(** * Heap allocators: the implicit free-list and the explicit free-list variants

    A shallow embedding of [implicit.c] and [explicit.c].  Every C value is a
    64-bit word ([size_t] and pointers) held in [Z] with the wrap-around
    written out; the two [int] counters wrap as 32-bit signed integers.  The
    segment lives in a byte-addressed memory; a header word is read and
    written as eight little-endian bytes.  The loops of the source take a
    fuel argument: [None] means the fuel ran out before the loop ended. *)

From Stdlib Require Import ZArith List Lia Bool.
Import ListNotations.
Local Open Scope Z_scope.

(** ** Machine arithmetic *)

Definition wrap (x : Z) : Z := x mod 2 ^ 64.
Definition wadd (a b : Z) : Z := wrap (a + b).
Definition wsub (a b : Z) : Z := wrap (a - b).
Definition wnot (a : Z) : Z := wrap (Z.lnot a).

(** [int] arithmetic of the block counters ([++] and [--]). *)
Definition wrap_int (x : Z) : Z := (x + 2 ^ 31) mod 2 ^ 32 - 2 ^ 31.
Definition incr (n : Z) : Z := wrap_int (n + 1).
Definition decr (n : Z) : Z := wrap_int (n - 1).

(** ** Byte-addressed memory *)

Definition memory : Type := Z -> Z.

Definition load8 (m : memory) (a : Z) : Z := m a mod 256.

Fixpoint load_le (n : nat) (m : memory) (a : Z) : Z :=
  match n with
  | O => 0
  | S k => load8 m a + 256 * load_le k m (a + 1)
  end.

Definition load64 (m : memory) (a : Z) : Z := load_le 8 m a.

Definition store64 (m : memory) (a v : Z) : memory :=
  fun x => if (a <=? x) && (x <? a + 8)
           then (v / 2 ^ (8 * (x - a))) mod 256
           else m x.

(** [memcpy(dst, src, n)] on non-overlapping ranges. *)
Definition memcpy (m : memory) (dst src n : Z) : memory :=
  fun x => if (dst <=? x) && (x <? dst + n) then m (src + (x - dst)) else m x.

(** Two eight-byte words that share no byte. *)
Definition apart (a b : Z) : Prop := a + 8 <= b \/ b + 8 <= a.

(** ** Constants and the header codec (the same text in both files) *)

Definition NULL : Z := 0.
Definition HEADER_SIZE : Z := 8.
Definition MALLOC : Z := 1.
Definition SIZE_BITMASK : Z := wnot 7.

(** Modelled from the spec: [allocator.h] is not among the sources; section
    3.1 gives [ALIGNMENT] as a power of two, typically 8, and section 8 works
    its scenarios with [ALIGNMENT] 8.  [MAX_REQUEST_SIZE], for which the spec
    gives no value, is a parameter of [mymalloc] and [myrealloc]. *)
Definition ALIGNMENT : Z := 8.

Definition roundup (size multiple : Z) : Z :=
  Z.land (wsub (wadd size multiple) 1) (wnot (wsub multiple 1)).

Definition get_header (ptr : Z) : Z := wsub ptr HEADER_SIZE.

Definition get_size (m : memory) (header_ptr : Z) : Z :=
  Z.land (load64 m header_ptr) SIZE_BITMASK.

Definition is_malloc (m : memory) (header_ptr : Z) : bool :=
  negb (Z.land (load64 m header_ptr) MALLOC =? 0).

(** The block that follows [block] in the segment. *)
Definition next_block (m : memory) (block : Z) : Z :=
  wadd (wadd block (get_size m block)) HEADER_SIZE.

(** ** The implicit allocator *)

Module Implicit.

Record state : Type := mkState {
  mem : memory;
  segment_start : Z;
  segment_end : Z;
  segment_size : Z;
  nused : Z;
  num_freeblocks : Z;
  num_usedblocks : Z
}.

Definition with_mem (st : state) (m : memory) : state :=
  mkState m (segment_start st) (segment_end st) (segment_size st)
          (nused st) (num_freeblocks st) (num_usedblocks st).

Definition with_nused (st : state) (n : Z) : state :=
  mkState (mem st) (segment_start st) (segment_end st) (segment_size st)
          n (num_freeblocks st) (num_usedblocks st).

Definition with_counts (st : state) (nfree nusedb : Z) : state :=
  mkState (mem st) (segment_start st) (segment_end st) (segment_size st)
          (nused st) nfree nusedb.

(** The globals before the first [myinit]: C zero-initialises them. *)
Definition blank : state := mkState (fun _ => 0) 0 0 0 0 0 0.

Definition myinit (st : state) (heap_start heap_size : Z) : bool * state :=
  if heap_size <? HEADER_SIZE + ALIGNMENT then (false, st)
  else
    (true,
     mkState (store64 (mem st) heap_start (wsub heap_size HEADER_SIZE))
             heap_start (wadd heap_start heap_size) heap_size 0 1 0).

Definition split_block (st : state) (old_block size_needed : Z) : state :=
  let old_size := get_size (mem st) old_block in
  if HEADER_SIZE + ALIGNMENT <=? wsub old_size size_needed then
    let total := wadd size_needed HEADER_SIZE in
    let new_block := wadd old_block total in
    let m1 := store64 (mem st) new_block (wsub old_size total) in
    let m2 := store64 m1 old_block size_needed in
    with_counts (with_mem st m2) (incr (num_freeblocks st)) (num_usedblocks st)
  else st.

Fixpoint find_first_free (fuel : nat) (m : memory) (seg_end ptr size_needed : Z)
  : option Z :=
  match fuel with
  | O => None
  | S f =>
      if ptr <? seg_end then
        let size := get_size m ptr in
        if (size_needed <=? size) && negb (is_malloc m ptr) then Some ptr
        else find_first_free f m seg_end (wadd (wadd ptr size) HEADER_SIZE)
                             size_needed
      else Some NULL
  end.

(** The traversal order of the segment: the header addresses the loops of
    [find_first_free], [validate_heap] and [dump_heap] visit from [ptr] until
    they are at or past [seg_end]. *)
Fixpoint blocks (fuel : nat) (m : memory) (seg_end ptr : Z) : option (list Z) :=
  match fuel with
  | O => None
  | S f =>
      if ptr <? seg_end
      then option_map (cons ptr) (blocks f m seg_end (next_block m ptr))
      else Some []
  end.

(** The test of [find_first_free] on one block. *)
Definition fits (m : memory) (size_needed block : Z) : bool :=
  (size_needed <=? get_size m block) && negb (is_malloc m block).

Section WithLimit.
Variable MAX_REQUEST_SIZE : Z.

Definition mymalloc (fuel : nat) (st : state) (requested_size : Z)
  : option (Z * state) :=
  if (MAX_REQUEST_SIZE <? requested_size) || (requested_size =? 0)
  then Some (NULL, st)
  else
    let size_needed := roundup requested_size ALIGNMENT in
    if segment_size st <? wadd size_needed (nused st) then Some (NULL, st)
    else
      match find_first_free fuel (mem st) (segment_end st) (segment_start st)
                            size_needed with
      | None => None
      | Some ptr =>
          if ptr =? NULL then Some (NULL, st)
          else
            let st1 := split_block st ptr size_needed in
            let m2 := store64 (mem st1) ptr (wadd (load64 (mem st1) ptr) MALLOC) in
            let st2 := with_mem st1 m2 in
            let st3 := with_nused st2
                         (wadd (nused st2) (wadd (get_size m2 ptr) HEADER_SIZE)) in
            let st4 := with_counts st3 (decr (num_freeblocks st3))
                                   (incr (num_usedblocks st3)) in
            Some (wadd ptr HEADER_SIZE, st4)
      end.

Definition myfree (st : state) (ptr : Z) : state :=
  if ptr =? NULL then st
  else
    let header_ptr := get_header ptr in
    let m1 := store64 (mem st) header_ptr
                      (wsub (load64 (mem st) header_ptr) MALLOC) in
    let st1 := with_mem st m1 in
    let st2 := with_counts st1 (incr (num_freeblocks st1))
                           (decr (num_usedblocks st1)) in
    with_nused st2 (wsub (nused st2) (wadd (get_size m1 header_ptr) HEADER_SIZE)).

Definition myrealloc (fuel : nat) (st : state) (old_ptr new_size : Z)
  : option (Z * state) :=
  if old_ptr =? NULL then mymalloc fuel st new_size
  else if new_size =? 0 then Some (NULL, myfree st old_ptr)
  else
    match mymalloc fuel st new_size with
    | None => None
    | Some (new_ptr, st1) =>
        if new_ptr =? NULL then Some (NULL, st1)
        else
          let old_size := get_size (mem st1) (get_header old_ptr) in
          let old_size := if new_size <? old_size then new_size else old_size in
          let st2 := with_mem st1 (memcpy (mem st1) new_ptr old_ptr old_size) in
          Some (new_ptr, myfree st2 old_ptr)
    end.

End WithLimit.

(** The segment walk of [validate_heap]: [Some None] is a [return false]
    from inside the loop, [Some (Some (f, u))] the two local counters once
    the walk is past [segment_end]. *)
Fixpoint validate_walk (fuel : nat) (st : state) (block free_blocks used_blocks : Z)
  : option (option (Z * Z)) :=
  match fuel with
  | O => None
  | S f =>
      if block <? segment_end st then
        if segment_size st <? nused st then Some None
        else
          let size := get_size (mem st) block in
          if size <? ALIGNMENT then Some None
          else
            let total := wadd size HEADER_SIZE in
            if is_malloc (mem st) block
            then validate_walk f st (wadd block total) free_blocks (incr used_blocks)
            else validate_walk f st (wadd block total) (incr free_blocks) used_blocks
      else Some (Some (free_blocks, used_blocks))
  end.

Definition validate_heap (fuel : nat) (st : state) : option bool :=
  match validate_walk fuel st (segment_start st) 0 0 with
  | None => None
  | Some None => Some false
  | Some (Some (free_blocks, used_blocks)) =>
      if negb (used_blocks =? num_usedblocks st) then Some false
      else if negb (free_blocks =? num_freeblocks st) then Some false
      else Some true
  end.

End Implicit.

(** ** The explicit allocator *)

Module Explicit.

Record state : Type := mkState {
  mem : memory;
  segment_start : Z;
  segment_end : Z;
  first_free : Z;
  segment_size : Z;
  nused : Z;
  num_freeblocks : Z;
  num_usedblocks : Z
}.

Definition with_mem (st : state) (m : memory) : state :=
  mkState m (segment_start st) (segment_end st) (first_free st)
          (segment_size st) (nused st) (num_freeblocks st) (num_usedblocks st).

Definition with_first_free (st : state) (p : Z) : state :=
  mkState (mem st) (segment_start st) (segment_end st) p
          (segment_size st) (nused st) (num_freeblocks st) (num_usedblocks st).

Definition with_nused (st : state) (n : Z) : state :=
  mkState (mem st) (segment_start st) (segment_end st) (first_free st)
          (segment_size st) n (num_freeblocks st) (num_usedblocks st).

Definition with_counts (st : state) (nfree nusedb : Z) : state :=
  mkState (mem st) (segment_start st) (segment_end st) (first_free st)
          (segment_size st) (nused st) nfree nusedb.

Definition blank : state := mkState (fun _ => 0) 0 0 0 0 0 0 0.

(** Field addresses of [struct header]: [payload] at offset 0, [prev] at 8,
    [next] at 16. *)
Definition prev_field (block : Z) : Z := wadd block 8.
Definition next_field (block : Z) : Z := wadd block 16.
Definition get_prev (m : memory) (block : Z) : Z := load64 m (prev_field block).
Definition get_next (m : memory) (block : Z) : Z := load64 m (next_field block).

Definition myinit (st : state) (heap_start heap_size : Z) : bool * state :=
  if heap_size <? HEADER_SIZE + ALIGNMENT * 2 then (false, st)
  else
    let m1 := store64 (mem st) heap_start (wsub heap_size HEADER_SIZE) in
    let m2 := store64 m1 (prev_field heap_start) NULL in
    let m3 := store64 m2 (next_field heap_start) NULL in
    (true,
     mkState m3 heap_start (wadd heap_start heap_size) heap_start heap_size 0 1 0).

Definition add_freeblock (st : state) (block : Z) : state :=
  if first_free st =? NULL then with_first_free st block
  else
    let m1 := store64 (mem st) (prev_field (first_free st)) block in
    let m2 := store64 m1 (prev_field block) NULL in
    let m3 := store64 m2 (next_field block) (first_free st) in
    with_first_free (with_mem st m3) block.

Definition remove_freeblock (st : state) (block : Z) : state :=
  let st1 := if block =? first_free st
             then with_first_free st (get_next (mem st) block)
             else st in
  let st2 := if negb (get_prev (mem st1) block =? NULL)
             then with_mem st1 (store64 (mem st1)
                                        (next_field (get_prev (mem st1) block))
                                        (get_next (mem st1) block))
             else st1 in
  if negb (get_next (mem st2) block =? NULL)
  then with_mem st2 (store64 (mem st2)
                             (prev_field (get_next (mem st2) block))
                             (get_prev (mem st2) block))
  else st2.

Definition split_block (st : state) (old_block size_needed : Z) : state :=
  let old_size := get_size (mem st) old_block in
  if 2 * ALIGNMENT + HEADER_SIZE <=? wsub old_size size_needed then
    let total := wadd size_needed HEADER_SIZE in
    let new_block := wadd old_block total in
    let m1 := store64 (mem st) new_block (wsub old_size total) in
    let m2 := if is_malloc m1 old_block
              then store64 m1 old_block (wadd size_needed MALLOC)
              else store64 m1 old_block size_needed in
    let st1 := add_freeblock (with_mem st m2) new_block in
    with_counts st1 (incr (num_freeblocks st1)) (num_usedblocks st1)
  else st.

Definition coalesce_block (st : state) (block : Z) : state :=
  if (get_prev (mem st) block =? NULL) && (get_next (mem st) block =? NULL)
  then st
  else
    let next := next_block (mem st) block in
    if segment_end st <=? next then st
    else if negb (is_malloc (mem st) next) then
      let st1 := remove_freeblock st next in
      let m1 := store64 (mem st1) block
                        (wadd (load64 (mem st1) block)
                              (wadd (get_size (mem st1) next) HEADER_SIZE)) in
      let st2 := with_mem st1 m1 in
      with_counts st2 (decr (num_freeblocks st2)) (num_usedblocks st2)
    else st.

Fixpoint find_freeblock (fuel : nat) (m : memory) (ptr size_needed : Z)
  : option Z :=
  match fuel with
  | O => None
  | S f =>
      if negb (ptr =? NULL) then
        let size := get_size m ptr in
        if size_needed <=? size then Some ptr
        else find_freeblock f m (get_next m ptr) size_needed
      else Some NULL
  end.

(** The traversal order of the free list: the nodes the loops of
    [find_freeblock] and [validate_heap] visit from [ptr] along [next] until
    [NULL]. *)
Fixpoint free_nodes (fuel : nat) (m : memory) (ptr : Z) : option (list Z) :=
  match fuel with
  | O => None
  | S f =>
      if negb (ptr =? NULL)
      then option_map (cons ptr) (free_nodes f m (get_next m ptr))
      else Some []
  end.

(** The test of [find_freeblock] on one node. *)
Definition fits (m : memory) (size_needed block : Z) : bool :=
  size_needed <=? get_size m block.

(** The header struct at [q] cannot be confused with the block at [block]
    of payload [size]: [q] is null, or is that block itself, or its 24 bytes
    lie in the address space wholly before or wholly after the block. *)
Definition clear_of (q block size : Z) : Prop :=
  q = NULL \/ q = block \/
  (0 <= q /\ q + 24 <= block) \/
  (block + HEADER_SIZE + size <= q /\ q + 24 <= 2 ^ 64).

(** The size both [mymalloc] and [myrealloc] compute from a request. *)
Definition size_for (requested_size : Z) : Z :=
  let size_needed := 2 * ALIGNMENT in
  if size_needed <? requested_size then roundup requested_size ALIGNMENT
  else size_needed.

(** The [while (true)] loop of [myrealloc]: coalesce until the size of the
    block stops changing; returns the state and the final [temp_size]. *)
Fixpoint coalesce_loop (fuel : nat) (st : state) (oldheader_ptr temp_size : Z)
  : option (state * Z) :=
  match fuel with
  | O => None
  | S f =>
      let st1 := coalesce_block st oldheader_ptr in
      if negb (get_size (mem st1) oldheader_ptr =? temp_size)
      then coalesce_loop f st1 oldheader_ptr (get_size (mem st1) oldheader_ptr)
      else Some (st1, temp_size)
  end.

Section WithLimit.
Variable MAX_REQUEST_SIZE : Z.

Definition mymalloc (fuel : nat) (st : state) (requested_size : Z)
  : option (Z * state) :=
  if (MAX_REQUEST_SIZE <? requested_size) || (requested_size =? 0)
  then Some (NULL, st)
  else
    let size_needed := size_for requested_size in
    if segment_size st <? wadd size_needed (nused st) then Some (NULL, st)
    else
      match find_freeblock fuel (mem st) (first_free st) size_needed with
      | None => None
      | Some ptr =>
          if ptr =? NULL then Some (NULL, st)
          else
            let st1 := split_block st ptr size_needed in
            let st2 := remove_freeblock st1 ptr in
            let m3 := store64 (mem st2) ptr (wadd (load64 (mem st2) ptr) MALLOC) in
            let st3 := with_mem st2 m3 in
            let st4 := with_nused st3
                         (wadd (nused st3) (wadd (get_size m3 ptr) HEADER_SIZE)) in
            let st5 := with_counts st4 (decr (num_freeblocks st4))
                                   (incr (num_usedblocks st4)) in
            Some (wadd ptr HEADER_SIZE, st5)
      end.

Definition myfree (st : state) (ptr : Z) : state :=
  if ptr =? NULL then st
  else
    let header_ptr := get_header ptr in
    let m1 := store64 (mem st) header_ptr
                      (wsub (load64 (mem st) header_ptr) MALLOC) in
    let st1 := with_mem st m1 in
    let st2 := with_nused st1
                 (wsub (nused st1) (wadd (get_size m1 header_ptr) HEADER_SIZE)) in
    let st3 := with_counts st2 (incr (num_freeblocks st2))
                           (decr (num_usedblocks st2)) in
    coalesce_block (add_freeblock st3 header_ptr) header_ptr.

Definition myrealloc (fuel : nat) (st : state) (old_ptr new_size : Z)
  : option (Z * state) :=
  if old_ptr =? NULL then mymalloc fuel st new_size
  else if new_size =? 0 then Some (NULL, myfree st old_ptr)
  else
    let oldheader_ptr := get_header old_ptr in
    let old_size := get_size (mem st) oldheader_ptr in
    let newsize_needed := size_for new_size in
    if newsize_needed <? old_size then
      let st1 := split_block st oldheader_ptr newsize_needed in
      Some (old_ptr,
            with_nused st1
              (wsub (nused st1)
                    (wsub old_size (get_size (mem st1) oldheader_ptr))))
    else if old_size =? newsize_needed then Some (old_ptr, st)
    else
      match coalesce_loop fuel st oldheader_ptr old_size with
      | None => None
      | Some (st1, temp_size) =>
          if newsize_needed <=? temp_size then
            let st2 := split_block st1 oldheader_ptr newsize_needed in
            Some (old_ptr,
                  with_nused st2
                    (wadd (nused st2)
                          (wsub (get_size (mem st2) oldheader_ptr) old_size)))
          else
            match mymalloc fuel st1 new_size with
            | None => None
            | Some (new_ptr, st2) =>
                if new_ptr =? NULL then Some (NULL, st2)
                else
                  let st3 := with_mem st2
                               (memcpy (mem st2) new_ptr old_ptr old_size) in
                  Some (new_ptr, myfree st3 old_ptr)
            end
      end.

End WithLimit.

(** First loop of [validate_heap], over the segment. *)
Fixpoint validate_walk (fuel : nat) (st : state) (block free_blocks used_blocks : Z)
  : option (option (Z * Z)) :=
  match fuel with
  | O => None
  | S f =>
      if block <? segment_end st then
        if segment_size st <? nused st then Some None
        else
          let size := get_size (mem st) block in
          if size <? 2 * ALIGNMENT then Some None
          else
            let total := wadd size HEADER_SIZE in
            if is_malloc (mem st) block
            then validate_walk f st (wadd block total) free_blocks (incr used_blocks)
            else validate_walk f st (wadd block total) (incr free_blocks) used_blocks
      else Some (Some (free_blocks, used_blocks))
  end.

(** Second loop of [validate_heap], over the free list: [Some None] is the
    [return false] on a node that is in use. *)
Fixpoint validate_list (fuel : nat) (m : memory) (temp free_blocks : Z)
  : option (option Z) :=
  match fuel with
  | O => None
  | S f =>
      if negb (temp =? NULL) then
        if is_malloc m temp then Some None
        else validate_list f m (get_next m temp) (incr free_blocks)
      else Some (Some free_blocks)
  end.

Definition validate_heap (fuel : nat) (st : state) : option bool :=
  match validate_walk fuel st (segment_start st) 0 0 with
  | None => None
  | Some None => Some false
  | Some (Some (free_blocks, used_blocks)) =>
      if negb (used_blocks =? num_usedblocks st) then Some false
      else if negb (free_blocks =? num_freeblocks st) then Some false
      else
        match validate_list fuel (mem st) (first_free st) 0 with
        | None => None
        | Some None => Some false
        | Some (Some free_blocks) =>
            if negb (free_blocks =? num_freeblocks st) then Some false
            else Some true
        end
  end.

End Explicit.

(** ** Worked runs

    Sequences of public calls on a fresh segment at address 4096, used below
    as concrete inputs.  They fix [MAX_REQUEST_SIZE] at [2^30]; every request
    in them is at most 100 bytes, so any larger limit gives the same runs. *)

Definition and_then {A B : Type} (o : option A) (k : A -> option B) : option B :=
  match o with
  | Some a => k a
  | None => None
  end.

Notation "' pat <- c ;; k" := (and_then c (fun pat => k))
  (at level 61, pat pattern, c at next level, right associativity).

Definition run_limit : Z := 2 ^ 30.
Definition run_base : Z := 4096.
Definition run_fuel : nat := 64%nat.

Module ImplicitRun.
Import Implicit.

Definition malloc := mymalloc run_limit run_fuel.
Definition realloc := myrealloc run_limit run_fuel.

(** [init(base, 32)]. *)
Definition small : state := snd (myinit blank run_base 32).

(** [init(base, 1024); p = malloc(100)]. *)
Definition one_block : option (Z * state) :=
  malloc (snd (myinit blank run_base 1024)) 100.

(** [init(base, 72); p = malloc(40)]. *)
Definition before_shrink : option (Z * state) :=
  malloc (snd (myinit blank run_base 72)) 40.

(** The state a run ends in ([blank] if the run ran out of fuel). *)
Definition final (run : option (Z * state)) : state :=
  match run with
  | Some (_, st) => st
  | None => blank
  end.

(** [init(base, 64); p = malloc(16)]. *)
Definition first_of_two : option (Z * state) :=
  malloc (snd (myinit blank run_base 64)) 16.

(** The run above followed by [q = malloc(16)]: two allocated blocks. *)
Definition two_blocks : option (Z * state) :=
  malloc (final first_of_two) 16.

End ImplicitRun.

Module ExplicitRun.
Import Explicit.

Definition malloc := mymalloc run_limit run_fuel.
Definition realloc := myrealloc run_limit run_fuel.

(** [init(base, 72)]: room for three blocks of payload 16. *)
Definition fresh : state := snd (myinit blank run_base 72).

(** [p = malloc(16); q = malloc(16); r = malloc(16); free(r); free(p);
    p' = malloc(16); r' = malloc(16)]: three allocated blocks of payload 16
    fill the segment; the result is [p'] and the state. *)
Definition all_allocated : option (Z * state) :=
  '(p, s1) <- malloc fresh 16 ;;
  '(q, s2) <- malloc s1 16 ;;
  '(r, s3) <- malloc s2 16 ;;
  let s4 := myfree s3 r in
  let s5 := myfree s4 p in
  '(p', s6) <- malloc s5 16 ;;
  '(r', s7) <- malloc s6 16 ;;
  Some (p', s7).

(** The run above followed by [free(p')]. *)
Definition stale_link : option (Z * state) :=
  '(p', s7) <- all_allocated ;;
  Some (p', myfree s7 p').

(** [p = malloc(16)]: an allocated block of payload 16 followed by a free
    block of payload 40. *)
Definition before_grow : option (Z * state) := malloc fresh 16.

(** [a = malloc(40); z = malloc(16); free(a); x = malloc(16);
    y = malloc(16); free(z)]: [y] is allocated and its right neighbour, the
    block of [z], is free; the result is [y] and the state. *)
Definition free_right_neighbour : option (Z * state) :=
  '(a, s1) <- malloc fresh 40 ;;
  '(z, s2) <- malloc s1 16 ;;
  let s3 := myfree s2 a in
  '(x, s4) <- malloc s3 16 ;;
  '(y, s5) <- malloc s4 16 ;;
  Some (y, myfree s5 z).

(** [p = malloc(40)]: an allocated block of payload 40 followed by a free
    block of payload 16. *)
Definition before_shrink : option (Z * state) := malloc fresh 40.

(** The state a run ends in ([blank] if the run ran out of fuel). *)
Definition final (run : option (Z * state)) : state :=
  match run with
  | Some (_, st) => st
  | None => blank
  end.

(** [init(base, 96); p = malloc(16); q = malloc(16); r = malloc(40);
    free(r); free(p); p' = malloc(16); r' = malloc(40); free(p')]: the
    blocks of [q] and [r'] are allocated, the block of [p'] is free; the
    result is [r'] and the state. *)
Definition live_node : option (Z * state) :=
  '(p, s1) <- malloc (snd (myinit blank run_base 96)) 16 ;;
  '(q, s2) <- malloc s1 16 ;;
  '(r, s3) <- malloc s2 40 ;;
  let s4 := myfree s3 r in
  let s5 := myfree s4 p in
  '(p', s6) <- malloc s5 16 ;;
  '(r', s7) <- malloc s6 40 ;;
  Some (r', myfree s7 p').

(** [init(base, 96); p = malloc(16); q = malloc(16); free(p)]: two free
    blocks, of payload 16 and 40, around the allocated block of [q]. *)
Definition two_free : option (Z * state) :=
  '(p, s1) <- malloc (snd (myinit blank run_base 96)) 16 ;;
  '(q, s2) <- malloc s1 16 ;;
  Some (q, myfree s2 p).

End ExplicitRun.
(** ** The layout of a well-formed implicit heap

    An abstract view of the segment as the sequence of its blocks, in address
    order, against which the operations of [implicit.c] are checked. *)

Module ImplicitHeap.

Record block : Type := mkBlock { size : Z; used : bool }.

(** The word [block] has in its header, and the bytes it occupies. *)
Definition header_word (b : block) : Z :=
  size b + (if used b then MALLOC else 0).

Definition footprint (b : block) : Z := HEADER_SIZE + size b.

Fixpoint span (l : list block) : Z :=
  match l with
  | [] => 0
  | b :: t => footprint b + span t
  end.

(** The blocks of [l] lie one after the other from address [a] on, each with
    its header word in memory, a payload of at least [ALIGNMENT] bytes and a
    size that leaves the three low bits of the header free. *)
Fixpoint tiles (m : memory) (a : Z) (l : list block) : Prop :=
  match l with
  | [] => True
  | b :: t =>
      load64 m a = header_word b /\
      ALIGNMENT <= size b /\
      size b mod 8 = 0 /\
      tiles m (a + footprint b) t
  end.

Fixpoint used_bytes (l : list block) : Z :=
  match l with
  | [] => 0
  | b :: t => (if used b then footprint b else 0) + used_bytes t
  end.

Fixpoint count_used (l : list block) : Z :=
  match l with
  | [] => 0
  | b :: t => (if used b then 1 else 0) + count_used t
  end.

Fixpoint count_free (l : list block) : Z :=
  match l with
  | [] => 0
  | b :: t => (if used b then 0 else 1) + count_free t
  end.

(** The state describes the heap [l]: the segment is a non-null range of the
    address space, small enough for the [int] block counters, the blocks of
    [l] tile it exactly, and [nused] and the two counters are what [mymalloc]
    and [myfree] maintain them to be. *)
Definition wf (st : Implicit.state) (l : list block) : Prop :=
  0 < Implicit.segment_start st /\
  Implicit.segment_end st = Implicit.segment_start st + Implicit.segment_size st /\
  Implicit.segment_end st < 2 ^ 64 /\
  Implicit.segment_size st <= 2 ^ 34 /\
  span l = Implicit.segment_size st /\
  tiles (Implicit.mem st) (Implicit.segment_start st) l /\
  Implicit.nused st = used_bytes l /\
  Implicit.num_usedblocks st = count_used l /\
  Implicit.num_freeblocks st = count_free l.

(** What [mymalloc] makes of the free block [b] it chose for a request of
    normalised size [n]. *)
Definition allocate_in (n : Z) (b : block) : list block :=
  if HEADER_SIZE + ALIGNMENT <=? size b - n
  then [mkBlock n true; mkBlock (size b - n - HEADER_SIZE) false]
  else [mkBlock (size b) true].

(** [p] is the payload address of an allocated block of the heap [l] that
    starts at [start]. *)
Definition live (start : Z) (l : list block) (p : Z) : Prop :=
  exists l1 b l2,
    l = l1 ++ b :: l2 /\ used b = true /\ p = start + span l1 + HEADER_SIZE.

(** The header addresses of the blocks of [l] laid out from [a]. *)
Fixpoint addresses (a : Z) (l : list block) : list Z :=
  match l with
  | [] => []
  | b :: t => a :: addresses (a + footprint b) t
  end.

(** The same, read off the segment itself: [p] is a pointer whose header is
    one of the blocks the segment walk visits and has the allocation bit
    set. *)
Definition allocated (st : Implicit.state) (p : Z) : Prop :=
  0 <= p < 2 ^ 64 /\
  is_malloc (Implicit.mem st) (get_header p) = true /\
  exists fuel l,
    Implicit.blocks fuel (Implicit.mem st) (Implicit.segment_end st)
                    (Implicit.segment_start st) = Some l /\
    In (get_header p) l.

(** The states a client reaches from a successful [myinit] of a non-null,
    8-byte-multiple segment by calls that return (the fuel suffices) and that
    free or reallocate only null or allocated pointers. *)
Inductive reachable (MAX_REQUEST_SIZE : Z) (fuel : nat) : Implicit.state -> Prop :=
| reach_init (st0 : Implicit.state) (base heap_size : Z) :
    0 < base -> base + heap_size < 2 ^ 64 ->
    heap_size mod 8 = 0 -> heap_size <= 2 ^ 34 ->
    heap_size / 16 < Z.of_nat fuel ->
    fst (Implicit.myinit st0 base heap_size) = true ->
    reachable MAX_REQUEST_SIZE fuel (snd (Implicit.myinit st0 base heap_size))
| reach_malloc (st : Implicit.state) (requested p : Z) (st' : Implicit.state) :
    reachable MAX_REQUEST_SIZE fuel st ->
    0 <= requested ->
    Implicit.mymalloc MAX_REQUEST_SIZE fuel st requested = Some (p, st') ->
    reachable MAX_REQUEST_SIZE fuel st'
| reach_free (st : Implicit.state) (p : Z) :
    reachable MAX_REQUEST_SIZE fuel st ->
    p = NULL \/ allocated st p ->
    reachable MAX_REQUEST_SIZE fuel (Implicit.myfree st p)
| reach_realloc (st : Implicit.state) (old new_size p : Z) (st' : Implicit.state) :
    reachable MAX_REQUEST_SIZE fuel st ->
    old = NULL \/ allocated st old ->
    0 <= new_size ->
    Implicit.myrealloc MAX_REQUEST_SIZE fuel st old new_size = Some (p, st') ->
    reachable MAX_REQUEST_SIZE fuel st'.

End ImplicitHeap.


(** * The explicit heap as its validator sees it *)

Module ExplicitHeap.

(** The blocks the first loop of [validate_heap] visits from [a]: each one
    lies below [seg_end] and leads, by its size and its header, to the next;
    the address after the last one is [seg_end] or beyond. *)
Fixpoint chain (m : memory) (seg_end a : Z) (l : list Z) : Prop :=
  match l with
  | [] => seg_end <= a
  | b :: t =>
      b = a /\ a < seg_end /\
      chain m seg_end (wadd a (wadd (get_size m a) HEADER_SIZE)) t
  end.

(** How many addresses of [l] satisfy [f]. *)
Definition count (f : Z -> bool) (l : list Z) : Z :=
  Z.of_nat (length (filter f l)).

(** The header struct at [q] is null, or lies in the address space and does
    not overlap the header struct at [b]. *)
Definition sep (q b : Z) : Prop :=
  q = NULL \/ (0 <= q /\ q + 24 <= 2 ^ 64 /\ (q + 24 <= b \/ b + 24 <= q)).

End ExplicitHeap.
(** * Properties *)

(** ** Machine words *)

Lemma wrap_range (x : Z) : 0 <= wrap x < 2 ^ 64.
Proof. unfold wrap. apply Z.mod_pos_bound. lia. Qed.

Lemma wrap_small (x : Z) : 0 <= x < 2 ^ 64 -> wrap x = x.
Proof. intros H. unfold wrap. apply Z.mod_small. exact H. Qed.

Lemma wadd_small (a b : Z) : 0 <= a + b < 2 ^ 64 -> wadd a b = a + b.
Proof. intros H. unfold wadd. apply wrap_small. exact H. Qed.

Lemma wsub_small (a b : Z) : 0 <= a - b < 2 ^ 64 -> wsub a b = a - b.
Proof. intros H. unfold wsub. apply wrap_small. exact H. Qed.

Lemma wnot_small (a : Z) : 0 <= a < 2 ^ 64 -> wnot a = 2 ^ 64 - 1 - a.
Proof.
  intros H. unfold wnot, wrap, Z.lnot.
  replace (Z.pred (- a)) with (2 ^ 64 - 1 - a + (-1) * 2 ^ 64) by lia.
  rewrite Z.mod_add by lia. apply Z.mod_small. lia.
Qed.

Lemma testbit_high (x n : Z) : 0 <= x < 2 ^ 64 -> 64 <= n -> Z.testbit x n = false.
Proof.
  intros Hx Hn.
  rewrite <- (Z.mod_small x (2 ^ 64)) by exact Hx.
  apply Z.mod_pow2_bits_high. lia.
Qed.

(** Masking with the complement of [2^k - 1] clears the low [k] bits. *)
Lemma land_clear_low (x k : Z) :
  0 <= x < 2 ^ 64 -> 0 <= k < 64 ->
  Z.land x (2 ^ 64 - 2 ^ k) = 2 ^ k * (x / 2 ^ k).
Proof.
  intros Hx Hk.
  assert (Hm : 2 ^ 64 - 2 ^ k = Z.shiftl (Z.ones (64 - k)) k).
  { rewrite Z.shiftl_mul_pow2, Z.ones_equiv by lia.
    replace 64 with ((64 - k) + k) at 1 by lia.
    rewrite Z.pow_add_r by lia. lia. }
  rewrite Hm, Z.mul_comm, <- Z.shiftl_mul_pow2, <- Z.shiftr_div_pow2 by lia.
  apply Z.bits_inj'. intros n Hn.
  rewrite Z.land_spec.
  destruct (Z_lt_le_dec n k) as [Hlt | Hge].
  - rewrite !Z.shiftl_spec_low by lia. apply andb_false_r.
  - rewrite !Z.shiftl_spec by lia.
    rewrite Z.shiftr_spec by lia.
    replace (n - k + k) with n by lia.
    destruct (Z_lt_le_dec n 64) as [Hlt' | Hge'].
    + rewrite Z.ones_spec_low by lia. apply andb_true_r.
    + rewrite Z.ones_spec_high by lia.
      rewrite (testbit_high x n) by lia. reflexivity.
Qed.

Lemma land_size_bitmask (h : Z) :
  0 <= h < 2 ^ 64 -> Z.land h SIZE_BITMASK = 8 * (h / 8).
Proof.
  intros Hh. change SIZE_BITMASK with (2 ^ 64 - 2 ^ 3).
  rewrite land_clear_low by lia. reflexivity.
Qed.

Lemma land_malloc (h : Z) : Z.land h MALLOC = h mod 2.
Proof. change MALLOC with (Z.ones 1). rewrite Z.land_ones by lia. reflexivity. Qed.

(** ** Loads and stores *)

Lemma load8_range (m : memory) (a : Z) : 0 <= load8 m a < 256.
Proof. unfold load8. apply Z.mod_pos_bound. lia. Qed.

Lemma load_le_range (n : nat) (m : memory) (a : Z) :
  0 <= load_le n m a < 2 ^ (8 * Z.of_nat n).
Proof.
  revert a. induction n as [| k IH]; intros a.
  - simpl. lia.
  - cbn [load_le].
    replace (8 * Z.of_nat (S k)) with (8 + 8 * Z.of_nat k) by lia.
    rewrite Z.pow_add_r by lia.
    pose proof (load8_range m a). pose proof (IH (a + 1)).
    change (2 ^ 8) with 256. nia.
Qed.

Lemma load64_range (m : memory) (a : Z) : 0 <= load64 m a < 2 ^ 64.
Proof. exact (load_le_range 8 m a). Qed.

Lemma store64_outside (m : memory) (a v x : Z) :
  x < a \/ a + 8 <= x -> store64 m a v x = m x.
Proof.
  intros H. unfold store64.
  destruct (a <=? x) eqn:E1; destruct (x <? a + 8) eqn:E2; simpl; try reflexivity.
  apply Z.leb_le in E1. apply Z.ltb_lt in E2. lia.
Qed.

Lemma load_le_store64_outside (n : nat) (m : memory) (a v b : Z) :
  b + Z.of_nat n <= a \/ a + 8 <= b ->
  load_le n (store64 m a v) b = load_le n m b.
Proof.
  revert b. induction n as [| k IH]; intros b H.
  - reflexivity.
  - cbn [load_le]. rewrite IH by lia.
    unfold load8. rewrite store64_outside by lia. reflexivity.
Qed.

Lemma load64_store64_apart (m : memory) (a v b : Z) :
  apart a b -> load64 (store64 m a v) b = load64 m b.
Proof.
  intros H. apply load_le_store64_outside. unfold apart in H.
  change (Z.of_nat 8) with 8. lia.
Qed.

Lemma load_le_store64_inside (n : nat) (m : memory) (a v i : Z) :
  0 <= i -> i + Z.of_nat n <= 8 ->
  load_le n (store64 m a v) (a + i) = (v / 2 ^ (8 * i)) mod 2 ^ (8 * Z.of_nat n).
Proof.
  revert i. induction n as [| k IH]; intros i Hi Hn.
  - simpl. rewrite Z.mod_1_r. reflexivity.
  - cbn [load_le].
    replace (a + i + 1) with (a + (i + 1)) by lia.
    rewrite IH by lia.
    unfold load8, store64.
    replace ((a <=? a + i) && (a + i <? a + 8)) with true
      by (symmetry; apply andb_true_iff; split;
          [apply Z.leb_le | apply Z.ltb_lt]; lia).
    replace (a + i - a) with i by lia.
    rewrite Z.mod_mod by lia.
    replace (8 * Z.of_nat (S k)) with (8 + 8 * Z.of_nat k) by lia.
    rewrite (Z.pow_add_r 2 8) by lia.
    replace (8 * (i + 1)) with (8 * i + 8) by lia.
    rewrite (Z.pow_add_r 2 (8 * i)) by lia.
    rewrite <- Z.div_div by (try apply Z.pow_pos_nonneg; lia).
    change (2 ^ 8) with 256.
    rewrite Z.rem_mul_r by (try apply Z.pow_pos_nonneg; lia).
    reflexivity.
Qed.

Lemma load64_store64_same (m : memory) (a v : Z) :
  load64 (store64 m a v) a = wrap v.
Proof.
  unfold load64. replace a with (a + 0) at 2 by lia.
  rewrite load_le_store64_inside by (simpl; lia).
  simpl (8 * 0). rewrite Z.div_1_r. reflexivity.
Qed.

(** ** Rounding *)

Lemma wsub_wadd (a b c : Z) : wsub (wadd a b) c = wrap (a + b - c).
Proof. unfold wsub, wadd, wrap. apply Zminus_mod_idemp_l. Qed.

Lemma wadd_wadd (a b c : Z) : wadd (wadd a b) c = wrap (a + b + c).
Proof. unfold wadd, wrap. apply Zplus_mod_idemp_l. Qed.

Lemma wadd_wadd_r (a b c : Z) : wadd a (wadd b c) = wrap (a + (b + c)).
Proof. unfold wadd, wrap. apply Zplus_mod_idemp_r. Qed.

Lemma roundup_div (s k : Z) :
  0 <= s -> 0 <= k < 64 -> s + 2 ^ k - 1 < 2 ^ 64 ->
  roundup s (2 ^ k) = 2 ^ k * ((s + 2 ^ k - 1) / 2 ^ k).
Proof.
  intros Hs Hk Hfit.
  assert (Hp : 0 < 2 ^ k) by (apply Z.pow_pos_nonneg; lia).
  assert (Hlt : 2 ^ k < 2 ^ 64) by (apply Z.pow_lt_mono_r; lia).
  unfold roundup.
  rewrite wsub_wadd, (wrap_small (s + 2 ^ k - 1)) by lia.
  rewrite (wsub_small (2 ^ k) 1), wnot_small by lia.
  replace (2 ^ 64 - 1 - (2 ^ k - 1)) with (2 ^ 64 - 2 ^ k) by lia.
  apply land_clear_low; lia.
Qed.

(** C10.  For a size [s] and a power of two [2^k] such that [s + 2^k - 1]
    does not wrap around a 64-bit word, [roundup s (2^k)] is the smallest
    multiple of [2^k] that is at least [s]. *)
Theorem roundup_smallest_multiple (s k : Z) :
  0 <= s -> 0 <= k < 64 -> s + 2 ^ k - 1 < 2 ^ 64 ->
  (2 ^ k | roundup s (2 ^ k)) /\
  s <= roundup s (2 ^ k) /\
  (forall r, (2 ^ k | r) -> s <= r -> roundup s (2 ^ k) <= r).
Proof.
  intros Hs Hk Hfit.
  assert (Hp : 0 < 2 ^ k) by (apply Z.pow_pos_nonneg; lia).
  rewrite roundup_div by assumption.
  set (m := 2 ^ k) in *.
  pose proof (Z_div_mod_eq_full (s + m - 1) m) as Hdm.
  pose proof (Z.mod_pos_bound (s + m - 1) m Hp) as Hmod.
  split; [exists ((s + m - 1) / m); lia |].
  split; [lia |].
  intros r [j Hj] Hr. subst r.
  assert (Hlt : (s + m - 1) / m < j + 1).
  { apply Z.div_lt_upper_bound; [exact Hp |]. nia. }
  nia.
Qed.

Lemma roundup_smallest_multiple_witness :
  (2 ^ 3 | roundup 13 (2 ^ 3)) /\
  13 <= roundup 13 (2 ^ 3) /\
  (forall r, (2 ^ 3 | r) -> 13 <= r -> roundup 13 (2 ^ 3) <= r).
Proof. apply (roundup_smallest_multiple 13 3); simpl; lia. Defined.

(** ** The header codec on a loaded word *)

Lemma get_size_div (m : memory) (p : Z) : get_size m p = 8 * (load64 m p / 8).
Proof. unfold get_size. apply land_size_bitmask. apply load64_range. Qed.

Lemma is_malloc_mod (m : memory) (p : Z) :
  is_malloc m p = negb (load64 m p mod 2 =? 0).
Proof. unfold is_malloc. rewrite land_malloc. reflexivity. Qed.

Lemma get_size_range (m : memory) (p : Z) : 0 <= get_size m p <= 2 ^ 64 - 8.
Proof.
  rewrite get_size_div. pose proof (load64_range m p) as H.
  pose proof (Z_div_mod_eq_full (load64 m p) 8).
  pose proof (Z.mod_pos_bound (load64 m p) 8 ltac:(lia)).
  assert (2 ^ 64 = 8 * 2 ^ 61) by reflexivity. lia.
Qed.

Lemma get_size_store (m : memory) (p v : Z) :
  0 <= v < 2 ^ 64 -> get_size (store64 m p v) p = 8 * (v / 8).
Proof.
  intros Hv. rewrite get_size_div, load64_store64_same, wrap_small by exact Hv.
  reflexivity.
Qed.

Lemma is_malloc_store (m : memory) (p v : Z) :
  0 <= v < 2 ^ 64 -> is_malloc (store64 m p v) p = negb (v mod 2 =? 0).
Proof.
  intros Hv. rewrite is_malloc_mod, load64_store64_same, wrap_small by exact Hv.
  reflexivity.
Qed.

Lemma get_size_store_apart (m : memory) (a v p : Z) :
  apart a p -> get_size (store64 m a v) p = get_size m p.
Proof. intros H. unfold get_size. rewrite load64_store64_apart by exact H. reflexivity. Qed.

Lemma is_malloc_store_apart (m : memory) (a v p : Z) :
  apart a p -> is_malloc (store64 m a v) p = is_malloc m p.
Proof. intros H. unfold is_malloc. rewrite load64_store64_apart by exact H. reflexivity. Qed.

(** ** Initialisation *)

(** C7, as the claim states it, fails on an odd segment size: [myinit]
    stores [25 - 8 = 17] in the header, which the codec reads as an allocated
    block of payload 16. *)
Lemma myinit_odd_size_counterexample :
  fst (Implicit.myinit Implicit.blank 4096 25) = true /\
  is_malloc (Implicit.mem (snd (Implicit.myinit Implicit.blank 4096 25))) 4096
    = true /\
  get_size (Implicit.mem (snd (Implicit.myinit Implicit.blank 4096 25))) 4096
    <> 25 - HEADER_SIZE.
Proof. split; [| split]; vm_compute; congruence. Qed.

(** C7 (amended).  [myinit] fails exactly when the size is below one header
    plus the minimum payload of the variant; otherwise it stores the word
    [size - HEADER_SIZE] at [base], which is a free header of payload
    [size - HEADER_SIZE] when [size] is a multiple of 8, touches no byte
    outside the header (for the explicit variant: outside the header and its
    two links), and sets [nused = 0], [num_usedblocks = 0],
    [num_freeblocks = 1]; the explicit variant makes the block the head of
    the free list with null [prev] and [next]. *)
Theorem myinit_spec (base size : Z) :
  0 <= base -> 0 <= size -> base + size <= 2 ^ 64 ->
  (forall st : Implicit.state,
      let r := Implicit.myinit st base size in
      (fst r = false <-> size < HEADER_SIZE + ALIGNMENT) /\
      (HEADER_SIZE + ALIGNMENT <= size ->
       fst r = true /\
       load64 (Implicit.mem (snd r)) base = size - HEADER_SIZE /\
       (size mod 8 = 0 ->
        is_malloc (Implicit.mem (snd r)) base = false /\
        get_size (Implicit.mem (snd r)) base = size - HEADER_SIZE) /\
       (forall x, x < base \/ base + HEADER_SIZE <= x ->
                  Implicit.mem (snd r) x = Implicit.mem st x) /\
       Implicit.segment_start (snd r) = base /\
       Implicit.segment_size (snd r) = size /\
       Implicit.nused (snd r) = 0 /\
       Implicit.num_usedblocks (snd r) = 0 /\
       Implicit.num_freeblocks (snd r) = 1)) /\
  (forall st : Explicit.state,
      let r := Explicit.myinit st base size in
      (fst r = false <-> size < HEADER_SIZE + 2 * ALIGNMENT) /\
      (HEADER_SIZE + 2 * ALIGNMENT <= size ->
       fst r = true /\
       load64 (Explicit.mem (snd r)) base = size - HEADER_SIZE /\
       (size mod 8 = 0 ->
        is_malloc (Explicit.mem (snd r)) base = false /\
        get_size (Explicit.mem (snd r)) base = size - HEADER_SIZE) /\
       (forall x, x < base \/ base + 24 <= x ->
                  Explicit.mem (snd r) x = Explicit.mem st x) /\
       Explicit.segment_start (snd r) = base /\
       Explicit.segment_size (snd r) = size /\
       Explicit.nused (snd r) = 0 /\
       Explicit.num_usedblocks (snd r) = 0 /\
       Explicit.num_freeblocks (snd r) = 1 /\
       Explicit.first_free (snd r) = base /\
       Explicit.get_prev (Explicit.mem (snd r)) base = NULL /\
       Explicit.get_next (Explicit.mem (snd r)) base = NULL)).
Proof.
  intros Hb Hs Hfit. change HEADER_SIZE with 8. change ALIGNMENT with 8.
  split; intros st r.
  - subst r. unfold Implicit.myinit. change (HEADER_SIZE + ALIGNMENT) with 16.
    destruct (size <? 16) eqn:E.
    + apply Z.ltb_lt in E. split; [simpl; tauto | lia].
    + apply Z.ltb_ge in E. split; [simpl; split; [discriminate | lia] |].
      intros _. cbn [fst snd Implicit.mem Implicit.segment_start
                     Implicit.segment_size Implicit.nused
                     Implicit.num_usedblocks Implicit.num_freeblocks].
      change HEADER_SIZE with 8. rewrite (wsub_small size 8) by lia.
      split; [reflexivity |].
      split; [rewrite load64_store64_same; apply wrap_small; lia |].
      split.
      { intros Hm. rewrite is_malloc_store, get_size_store by lia.
        pose proof (Z_div_mod_eq_full (size - 8) 8) as Hd.
        replace ((size - 8) mod 8) with 0 in Hd
          by (rewrite <- Zminus_mod_idemp_l, Hm; reflexivity).
        replace ((size - 8) mod 2) with 0.
        - split; [reflexivity | lia].
        - symmetry. apply Z.mod_divide; [lia |].
          exists (4 * ((size - 8) / 8)). lia. }
      split; [intros x Hx; apply store64_outside; lia |].
      repeat split.
  - subst r. unfold Explicit.myinit. change (HEADER_SIZE + ALIGNMENT * 2) with 24.
    destruct (size <? 24) eqn:E.
    + apply Z.ltb_lt in E. split; [simpl; tauto | lia].
    + apply Z.ltb_ge in E. split; [simpl; split; [discriminate | lia] |].
      intros _. cbn [fst snd Explicit.mem Explicit.segment_start
                     Explicit.segment_size Explicit.nused Explicit.first_free
                     Explicit.num_usedblocks Explicit.num_freeblocks].
      unfold Explicit.get_prev, Explicit.get_next,
        Explicit.prev_field, Explicit.next_field.
      change HEADER_SIZE with 8. rewrite (wsub_small size 8) by lia.
      rewrite (wadd_small base 8), (wadd_small base 16) by lia.
      assert (A1 : apart (base + 16) base) by (unfold apart; lia).
      assert (A2 : apart (base + 8) base) by (unfold apart; lia).
      assert (A3 : apart (base + 16) (base + 8)) by (unfold apart; lia).
      split; [reflexivity |].
      split.
      { rewrite !load64_store64_apart by assumption.
        rewrite load64_store64_same. apply wrap_small. lia. }
      split.
      { intros Hm.
        rewrite !is_malloc_store_apart, !get_size_store_apart by assumption.
        rewrite is_malloc_store, get_size_store by lia.
        pose proof (Z_div_mod_eq_full (size - 8) 8) as Hd.
        replace ((size - 8) mod 8) with 0 in Hd
          by (rewrite <- Zminus_mod_idemp_l, Hm; reflexivity).
        replace ((size - 8) mod 2) with 0.
        - split; [reflexivity | lia].
        - symmetry. apply Z.mod_divide; [lia |].
          exists (4 * ((size - 8) / 8)). lia. }
      split; [intros x Hx; rewrite !store64_outside by lia; reflexivity |].
      repeat split.
      * rewrite load64_store64_apart by assumption.
        rewrite load64_store64_same. reflexivity.
      * rewrite load64_store64_same. reflexivity.
Qed.

Lemma myinit_spec_witness :
  fst (Explicit.myinit Explicit.blank 4096 1024) = true /\
  get_size (Explicit.mem (snd (Explicit.myinit Explicit.blank 4096 1024))) 4096
    = 1024 - HEADER_SIZE /\
  Explicit.first_free (snd (Explicit.myinit Explicit.blank 4096 1024)) = 4096.
Proof.
  assert (H1 : 0 <= 4096) by lia.
  assert (H2 : 0 <= 1024) by lia.
  assert (H3 : 4096 + 1024 <= 2 ^ 64) by lia.
  destruct (myinit_spec 4096 1024 H1 H2 H3) as [_ He].
  destruct (He Explicit.blank) as [_ Hok].
  assert (H4 : HEADER_SIZE + 2 * ALIGNMENT <= 1024) by (vm_compute; discriminate).
  destruct (Hok H4) as (Ht & _ & Hfree & _ & _ & _ & _ & _ & _ & Hff & _).
  split; [exact Ht |].
  split; [apply Hfree; reflexivity | exact Hff].
Defined.

(** ** Setting and clearing the allocation bit *)

Lemma clear_bit_word (h : Z) :
  h mod 2 = 1 -> (h - 1) / 8 = h / 8 /\ (h - 1) mod 2 = 0.
Proof.
  intros Hodd.
  pose proof (Z_div_mod_eq_full h 8). pose proof (Z.mod_pos_bound h 8 ltac:(lia)).
  pose proof (Z_div_mod_eq_full h 2).
  pose proof (Z_div_mod_eq_full (h - 1) 8).
  pose proof (Z.mod_pos_bound (h - 1) 8 ltac:(lia)).
  pose proof (Z_div_mod_eq_full (h - 1) 2).
  pose proof (Z.mod_pos_bound (h - 1) 2 ltac:(lia)).
  split; lia.
Qed.

Lemma set_bit_word (h : Z) :
  h mod 2 = 0 -> (h + 1) / 8 = h / 8 /\ (h + 1) mod 2 = 1.
Proof.
  intros Heven.
  pose proof (Z_div_mod_eq_full h 8). pose proof (Z.mod_pos_bound h 8 ltac:(lia)).
  pose proof (Z_div_mod_eq_full h 2).
  pose proof (Z_div_mod_eq_full (h + 1) 8).
  pose proof (Z.mod_pos_bound (h + 1) 8 ltac:(lia)).
  pose proof (Z_div_mod_eq_full (h + 1) 2).
  pose proof (Z.mod_pos_bound (h + 1) 2 ltac:(lia)).
  split; lia.
Qed.

Lemma is_malloc_true_odd (m : memory) (p : Z) :
  is_malloc m p = true <-> load64 m p mod 2 = 1.
Proof.
  rewrite is_malloc_mod.
  pose proof (Z.mod_pos_bound (load64 m p) 2 ltac:(lia)).
  destruct (load64 m p mod 2 =? 0) eqn:E; simpl.
  - apply Z.eqb_eq in E. split; [discriminate | lia].
  - apply Z.eqb_neq in E. split; [lia | reflexivity].
Qed.

Lemma is_malloc_false_even (m : memory) (p : Z) :
  is_malloc m p = false <-> load64 m p mod 2 = 0.
Proof.
  rewrite is_malloc_mod.
  destruct (load64 m p mod 2 =? 0) eqn:E; simpl.
  - apply Z.eqb_eq in E. split; [trivial | reflexivity].
  - apply Z.eqb_neq in E. split; [discriminate | contradiction].
Qed.

Lemma wsub_wadd_r (a b c : Z) : wsub a (wadd b c) = wrap (a - (b + c)).
Proof. unfold wsub, wadd, wrap. apply Zminus_mod_idemp_r. Qed.

(** ** Freeing in the implicit allocator *)

(** C9.  In the implicit variant, [myfree] of a non-null pointer to an
    allocated block rewrites the header word of that block only, clearing its
    allocation bit and keeping its size; every byte outside that word, hence
    every other header and every payload, is unchanged, so no blocks are
    merged; [nused] drops by the footprint of the block and the two block
    counters move by one. *)
Theorem implicit_myfree_frame (st : Implicit.state) (p : Z) :
  p <> NULL ->
  is_malloc (Implicit.mem st) (get_header p) = true ->
  let hdr := get_header p in
  let st' := Implicit.myfree st p in
  load64 (Implicit.mem st') hdr = load64 (Implicit.mem st) hdr - MALLOC /\
  is_malloc (Implicit.mem st') hdr = false /\
  get_size (Implicit.mem st') hdr = get_size (Implicit.mem st) hdr /\
  (forall x, x < hdr \/ hdr + HEADER_SIZE <= x ->
             Implicit.mem st' x = Implicit.mem st x) /\
  (forall q, apart hdr q ->
             load64 (Implicit.mem st') q = load64 (Implicit.mem st) q) /\
  Implicit.nused st' =
    wrap (Implicit.nused st - (get_size (Implicit.mem st) hdr + HEADER_SIZE)) /\
  Implicit.num_usedblocks st' = decr (Implicit.num_usedblocks st) /\
  Implicit.num_freeblocks st' = incr (Implicit.num_freeblocks st) /\
  Implicit.segment_start st' = Implicit.segment_start st /\
  Implicit.segment_end st' = Implicit.segment_end st /\
  Implicit.segment_size st' = Implicit.segment_size st.
Proof.
  intros Hp Ha hdr st'. subst st'. unfold Implicit.myfree.
  destruct (p =? NULL) eqn:E; [apply Z.eqb_eq in E; contradiction |].
  fold hdr. fold hdr in Ha.
  apply is_malloc_true_odd in Ha.
  pose proof (load64_range (Implicit.mem st) hdr) as Hr.
  pose proof (Z_div_mod_eq_full (load64 (Implicit.mem st) hdr) 2) as Hd.
  destruct (clear_bit_word _ Ha) as [Hdiv Hmod].
  change MALLOC with 1 in *. change HEADER_SIZE with 8 in *.
  cbn [Implicit.mem Implicit.with_mem Implicit.with_counts Implicit.with_nused
       Implicit.nused Implicit.num_usedblocks Implicit.num_freeblocks
       Implicit.segment_start Implicit.segment_end Implicit.segment_size].
  rewrite (wsub_small (load64 (Implicit.mem st) hdr) 1) by lia.
  assert (Hsz : get_size (store64 (Implicit.mem st) hdr
                                  (load64 (Implicit.mem st) hdr - 1)) hdr
                = get_size (Implicit.mem st) hdr).
  { rewrite get_size_store by lia. rewrite Hdiv. symmetry. apply get_size_div. }
  split; [rewrite load64_store64_same; apply wrap_small; lia |].
  split; [rewrite is_malloc_store by lia; rewrite Hmod; reflexivity |].
  split; [exact Hsz |].
  split; [intros x Hx; apply store64_outside; lia |].
  split; [intros q Hq; apply load64_store64_apart; exact Hq |].
  split; [rewrite Hsz; apply wsub_wadd_r |].
  repeat split.
Qed.

Lemma implicit_myfree_frame_witness :
  is_malloc (Implicit.mem (Implicit.myfree (ImplicitRun.final ImplicitRun.one_block) 4104))
            (get_header 4104) = false /\
  get_size (Implicit.mem (Implicit.myfree (ImplicitRun.final ImplicitRun.one_block) 4104))
           (get_header 4104) = 104.
Proof.
  assert (H1 : 4104 <> NULL) by discriminate.
  assert (H2 : is_malloc (Implicit.mem (ImplicitRun.final ImplicitRun.one_block))
                         (get_header 4104) = true) by (vm_compute; reflexivity).
  destruct (implicit_myfree_frame (ImplicitRun.final ImplicitRun.one_block) 4104 H1 H2)
    as (_ & Hfree & Hsize & _).
  split; [exact Hfree |].
  rewrite Hsize. vm_compute. reflexivity.
Defined.

(** ** Placement *)

Lemma implicit_find_prefix (m : memory) (seg_end n : Z) :
  forall (fuel : nat) (ptr : Z) (l : list Z),
    Implicit.blocks fuel m seg_end ptr = Some l ->
    (exists l1 r l2,
        l = l1 ++ r :: l2 /\ Implicit.fits m n r = true /\
        (forall b, In b l1 -> Implicit.fits m n b = false) /\
        Implicit.find_first_free fuel m seg_end ptr n = Some r) \/
    ((forall b, In b l -> Implicit.fits m n b = false) /\
     Implicit.find_first_free fuel m seg_end ptr n = Some NULL).
Proof.
  induction fuel as [| f IH]; intros ptr l Hl; [discriminate |].
  cbn [Implicit.blocks Implicit.find_first_free] in *.
  destruct (ptr <? seg_end) eqn:E.
  - fold (next_block m ptr).
    destruct (Implicit.blocks f m seg_end (next_block m ptr)) as [t |] eqn:Et;
      [| discriminate].
    injection Hl as <-.
    fold (Implicit.fits m n ptr).
    destruct (Implicit.fits m n ptr) eqn:Ef.
    + left. exists [], ptr, t. repeat split; auto. intros b [].
    + destruct (IH _ _ Et) as [(l1 & r & l2 & -> & Hr & Hpre & Hfind) | [Hno Hfind]].
      * left. exists (ptr :: l1), r, l2. repeat split; auto.
        intros b [<- | Hb]; auto.
      * right. split; auto. intros b [<- | Hb]; auto.
  - injection Hl as <-. right. split; auto. intros b [].
Qed.

Lemma explicit_find_prefix (m : memory) (n : Z) :
  forall (fuel : nat) (ptr : Z) (l : list Z),
    Explicit.free_nodes fuel m ptr = Some l ->
    (exists l1 r l2,
        l = l1 ++ r :: l2 /\ Explicit.fits m n r = true /\
        (forall b, In b l1 -> Explicit.fits m n b = false) /\
        Explicit.find_freeblock fuel m ptr n = Some r) \/
    ((forall b, In b l -> Explicit.fits m n b = false) /\
     Explicit.find_freeblock fuel m ptr n = Some NULL).
Proof.
  induction fuel as [| f IH]; intros ptr l Hl; [discriminate |].
  cbn [Explicit.free_nodes Explicit.find_freeblock] in *.
  destruct (negb (ptr =? NULL)) eqn:E.
  - destruct (Explicit.free_nodes f m (Explicit.get_next m ptr)) as [t |] eqn:Et;
      [| discriminate].
    injection Hl as <-.
    fold (Explicit.fits m n ptr).
    destruct (Explicit.fits m n ptr) eqn:Ef.
    + left. exists [], ptr, t. repeat split; auto. intros b [].
    + destruct (IH _ _ Et) as [(l1 & r & l2 & -> & Hr & Hpre & Hfind) | [Hno Hfind]].
      * left. exists (ptr :: l1), r, l2. repeat split; auto.
        intros b [<- | Hb]; auto.
      * right. split; auto. intros b [<- | Hb]; auto.
  - injection Hl as <-. right. split; auto. intros b [].
Qed.

Lemma free_nodes_not_null (m : memory) :
  forall (fuel : nat) (ptr : Z) (l : list Z),
    Explicit.free_nodes fuel m ptr = Some l -> ~ In NULL l.
Proof.
  induction fuel as [| f IH]; intros ptr l Hl; [discriminate |].
  cbn [Explicit.free_nodes] in Hl.
  destruct (ptr =? NULL) eqn:E; cbn [negb] in Hl.
  - injection Hl as <-. intros [].
  - destruct (Explicit.free_nodes f m (Explicit.get_next m ptr)) as [t |] eqn:Et;
      [| discriminate].
    injection Hl as <-. apply Z.eqb_neq in E.
    intros [H | H]; [congruence | exact (IH _ _ Et H)].
Qed.

(** Without pointer wrap-around the segment walk visits increasing
    addresses. *)
Lemma blocks_increasing (m : memory) (seg_end : Z) :
  forall (fuel : nat) (ptr : Z) (l : list Z),
    Implicit.blocks fuel m seg_end ptr = Some l ->
    0 <= ptr ->
    (forall b, In b l -> b + get_size m b + HEADER_SIZE < 2 ^ 64) ->
    forall b, In b l -> ptr <= b.
Proof.
  induction fuel as [| f IH]; intros ptr l Hl Hp Hw b Hb; [discriminate |].
  cbn [Implicit.blocks] in Hl.
  destruct (ptr <? seg_end); [| injection Hl as <-; destruct Hb].
  destruct (Implicit.blocks f m seg_end (next_block m ptr)) as [t |] eqn:Et;
    [| discriminate].
  injection Hl as <-.
  destruct Hb as [<- | Hb]; [lia |].
  pose proof (get_size_range m ptr) as Hs.
  pose proof (Hw ptr (or_introl eq_refl)) as Hw0.
  assert (Hn : next_block m ptr = ptr + get_size m ptr + HEADER_SIZE).
  { unfold next_block. rewrite wadd_wadd. apply wrap_small.
    change HEADER_SIZE with 8 in *. lia. }
  assert (ptr + get_size m ptr + HEADER_SIZE <= b).
  { rewrite <- Hn. apply (IH _ _ Et).
    - rewrite Hn. change HEADER_SIZE with 8. lia.
    - intros c Hc. apply Hw. right. exact Hc.
    - exact Hb. }
  change HEADER_SIZE with 8 in *. lia.
Qed.

Lemma blocks_suffix_increasing (m : memory) (seg_end : Z) :
  forall (fuel : nat) (ptr : Z) (l1 l2 : list Z) (r : Z),
    Implicit.blocks fuel m seg_end ptr = Some (l1 ++ r :: l2) ->
    0 <= ptr ->
    (forall b, In b (l1 ++ r :: l2) -> b + get_size m b + HEADER_SIZE < 2 ^ 64) ->
    forall b, In b (r :: l2) -> r <= b.
Proof.
  induction fuel as [| f IH]; intros ptr l1 l2 r Hl Hp Hw b Hb; [discriminate |].
  destruct l1 as [| a l1].
  - simpl app in *.
    assert (ptr = r) as ->.
    { cbn [Implicit.blocks] in Hl. destruct (ptr <? seg_end); [| discriminate].
      destruct (Implicit.blocks f m seg_end (next_block m ptr)); [| discriminate].
      injection Hl as -> _. reflexivity. }
    exact (blocks_increasing m seg_end (S f) r (r :: l2) Hl Hp Hw b Hb).
  - cbn [Implicit.blocks] in Hl.
    destruct (ptr <? seg_end); [| discriminate].
    destruct (Implicit.blocks f m seg_end (next_block m ptr)) as [t |] eqn:Et;
      [| discriminate].
    simpl in Hl. injection Hl as -> ->.
    apply (IH _ _ _ _ Et); auto.
    + unfold next_block, wadd. apply wrap_range.
    + intros c Hc. apply Hw. right. exact Hc.
Qed.

(** X25.  Whenever its traversal ends within the fuel, the placement search
    returns the first block of the traversal that passes its test, and
    [NULL] exactly when no block of the traversal does.  For the implicit
    variant the traversal is the walk over all blocks from the start of the
    segment (none of them at address null) and the test is "free and of
    payload at least [n]"; when the walk does not wrap around, the block
    returned is the one of lowest address among those that pass.  For the
    explicit variant the traversal follows [next] from the head of the free
    list until [NULL] and the test is "payload at least [n]" alone: the
    allocation bit of a node is not looked at. *)
Theorem placement_first_fit (m : memory) (n : Z) (fuel : nat) :
  (forall seg_end start l,
      Implicit.blocks fuel m seg_end start = Some l ->
      ~ In NULL l ->
      exists r,
        Implicit.find_first_free fuel m seg_end start n = Some r /\
        (r = NULL <-> forall b, In b l -> Implicit.fits m n b = false) /\
        (r <> NULL ->
         exists l1 l2,
           l = l1 ++ r :: l2 /\ Implicit.fits m n r = true /\
           forall b, In b l1 -> Implicit.fits m n b = false) /\
        (r <> NULL -> 0 <= start ->
         (forall b, In b l -> b + get_size m b + HEADER_SIZE < 2 ^ 64) ->
         forall b, In b l -> Implicit.fits m n b = true -> r <= b)) /\
  (forall first l,
      Explicit.free_nodes fuel m first = Some l ->
      exists r,
        Explicit.find_freeblock fuel m first n = Some r /\
        (r = NULL <-> forall b, In b l -> Explicit.fits m n b = false) /\
        (r <> NULL ->
         exists l1 l2,
           l = l1 ++ r :: l2 /\ Explicit.fits m n r = true /\
           forall b, In b l1 -> Explicit.fits m n b = false)).
Proof.
  split.
  - intros seg_end start l Hl Hnn.
    destruct (implicit_find_prefix m seg_end n fuel start l Hl)
      as [(l1 & r & l2 & -> & Hr & Hpre & Hfind) | [Hno Hfind]].
    + assert (Hrn : r <> NULL).
      { intros ->. apply Hnn. apply in_or_app. right. left. reflexivity. }
      exists r. split; [exact Hfind |]. split; [| split].
      * split; [contradiction |]. intros Hno.
        rewrite Hno in Hr by (apply in_or_app; right; left; reflexivity).
        discriminate.
      * intros _. exists l1, l2. auto.
      * intros _ Hs Hw b Hb Hfit.
        apply in_app_or in Hb. destruct Hb as [Hb | Hb].
        -- rewrite (Hpre b Hb) in Hfit. discriminate.
        -- exact (blocks_suffix_increasing m seg_end fuel start l1 l2 r Hl Hs Hw b Hb).
    + exists NULL. split; [exact Hfind |]. split; [| split].
      * split; auto.
      * intros H. contradiction.
      * intros H. contradiction.
  - intros first l Hl.
    pose proof (free_nodes_not_null m fuel first l Hl) as Hnn.
    destruct (explicit_find_prefix m n fuel first l Hl)
      as [(l1 & r & l2 & -> & Hr & Hpre & Hfind) | [Hno Hfind]].
    + assert (Hrn : r <> NULL).
      { intros ->. apply Hnn. apply in_or_app. right. left. reflexivity. }
      exists r. split; [exact Hfind |]. split.
      * split; [contradiction |]. intros Hno.
        rewrite Hno in Hr by (apply in_or_app; right; left; reflexivity).
        discriminate.
      * intros _. exists l1, l2. auto.
    + exists NULL. split; [exact Hfind |]. split.
      * split; auto.
      * intros H. contradiction.
Qed.

Lemma placement_first_fit_witness :
  (exists r,
      Implicit.find_first_free run_fuel
        (Implicit.mem (ImplicitRun.final ImplicitRun.one_block)) 5120 4096 200
      = Some r /\
      (r = NULL <->
       forall b, In b [4096; 4208] ->
                 Implicit.fits (Implicit.mem (ImplicitRun.final ImplicitRun.one_block))
                               200 b = false)) /\
  (exists r,
      Explicit.find_freeblock run_fuel
        (Explicit.mem (ExplicitRun.final ExplicitRun.two_free)) 4096 40
      = Some r /\
      (r <> NULL ->
       exists l1 l2,
         [4096; 4144] = l1 ++ r :: l2 /\
         Explicit.fits (Explicit.mem (ExplicitRun.final ExplicitRun.two_free)) 40 r
         = true /\
         forall b, In b l1 ->
                   Explicit.fits (Explicit.mem (ExplicitRun.final ExplicitRun.two_free))
                                 40 b = false)).
Proof.
  split.
  - assert (Hl : Implicit.blocks run_fuel
                   (Implicit.mem (ImplicitRun.final ImplicitRun.one_block)) 5120 4096
                 = Some [4096; 4208]) by (vm_compute; reflexivity).
    assert (Hn : ~ In NULL [4096; 4208])
      by (intros [H | [H | []]]; discriminate H).
    destruct (proj1 (placement_first_fit
                       (Implicit.mem (ImplicitRun.final ImplicitRun.one_block))
                       200 run_fuel) 5120 4096 [4096; 4208] Hl Hn)
      as (r & Hf & Hnull & _).
    exists r. split; [exact Hf | exact Hnull].
  - assert (Hl : Explicit.free_nodes run_fuel
                   (Explicit.mem (ExplicitRun.final ExplicitRun.two_free)) 4096
                 = Some [4096; 4144]) by (vm_compute; reflexivity).
    destruct (proj2 (placement_first_fit
                       (Explicit.mem (ExplicitRun.final ExplicitRun.two_free))
                       40 run_fuel) 4096 [4096; 4144] Hl)
      as (r & Hf & _ & Hsome).
    exists r. split; [exact Hf | exact Hsome].
Defined.

(** ** Failing allocations *)

Lemma roundup8 (r : Z) :
  0 <= r -> r + 7 < 2 ^ 64 -> roundup r ALIGNMENT = 8 * ((r + 7) / 8).
Proof.
  intros H0 H1. change ALIGNMENT with (2 ^ 3).
  rewrite roundup_div by (simpl; lia).
  change (2 ^ 3) with 8. f_equal. f_equal. lia.
Qed.

(** The sizes [mymalloc] computes are the normalised size of the spec,
    [max(variant_min, round_up(requested, ALIGNMENT))]. *)
Lemma implicit_size_max (r : Z) :
  0 < r -> r + 7 < 2 ^ 64 ->
  roundup r ALIGNMENT = Z.max ALIGNMENT (roundup r ALIGNMENT).
Proof.
  intros H0 H1. rewrite roundup8 by lia. change ALIGNMENT with 8.
  pose proof (Z_div_mod_eq_full (r + 7) 8).
  pose proof (Z.mod_pos_bound (r + 7) 8 ltac:(lia)). lia.
Qed.

Lemma explicit_size_max (r : Z) :
  0 < r -> r + 7 < 2 ^ 64 ->
  Explicit.size_for r = Z.max (2 * ALIGNMENT) (roundup r ALIGNMENT).
Proof.
  intros H0 H1. unfold Explicit.size_for. rewrite roundup8 by lia.
  change (2 * ALIGNMENT) with 16.
  pose proof (Z_div_mod_eq_full (r + 7) 8).
  pose proof (Z.mod_pos_bound (r + 7) 8 ltac:(lia)).
  destruct (16 <? r) eqn:E; [apply Z.ltb_lt in E | apply Z.ltb_ge in E]; lia.
Qed.

(** X24.  [mymalloc] returns [NULL] and leaves the whole state (segment
    contents, counters and, for the explicit variant, the free list) as it
    was when the request is zero, when it exceeds [MAX_REQUEST_SIZE], when
    the normalised size plus [nused], added as 64-bit words, exceeds
    [segment_size], and when the traversal of the search ends within the
    fuel and no block of it passes the test of the search: for the implicit
    variant no block of the segment walk is free with payload at least the
    normalised size, for the explicit variant no node reached from
    [first_free] has payload at least the normalised size, whether it is
    marked free or not.  The normalised size is the one the code computes;
    whenever the request does not wrap it is
    [max(variant_min, round_up(requested, ALIGNMENT))]. *)
Theorem mymalloc_failure (MAX_REQUEST_SIZE : Z) (fuel : nat) (requested : Z) :
  (forall st : Implicit.state,
      let n := roundup requested ALIGNMENT in
      (0 < requested -> requested + 7 < 2 ^ 64 ->
       n = Z.max ALIGNMENT (roundup requested ALIGNMENT)) /\
      (requested = 0 \/ MAX_REQUEST_SIZE < requested \/
       Implicit.segment_size st < wadd n (Implicit.nused st) \/
       (exists l,
           Implicit.blocks fuel (Implicit.mem st) (Implicit.segment_end st)
                           (Implicit.segment_start st) = Some l /\
           forall b, In b l -> Implicit.fits (Implicit.mem st) n b = false) ->
       Implicit.mymalloc MAX_REQUEST_SIZE fuel st requested = Some (NULL, st))) /\
  (forall st : Explicit.state,
      let n := Explicit.size_for requested in
      (0 < requested -> requested + 7 < 2 ^ 64 ->
       n = Z.max (2 * ALIGNMENT) (roundup requested ALIGNMENT)) /\
      (requested = 0 \/ MAX_REQUEST_SIZE < requested \/
       Explicit.segment_size st < wadd n (Explicit.nused st) \/
       (exists l,
           Explicit.free_nodes fuel (Explicit.mem st) (Explicit.first_free st)
           = Some l /\
           forall b, In b l -> Explicit.fits (Explicit.mem st) n b = false) ->
       Explicit.mymalloc MAX_REQUEST_SIZE fuel st requested = Some (NULL, st))).
Proof.
  split; intros st n.
  - split; [intros; apply implicit_size_max; assumption |].
    intros H. unfold Implicit.mymalloc. fold n.
    destruct ((MAX_REQUEST_SIZE <? requested) || (requested =? 0)) eqn:E1;
      [reflexivity |].
    apply orb_false_iff in E1. destruct E1 as [E1 E2].
    apply Z.ltb_ge in E1. apply Z.eqb_neq in E2.
    destruct (Implicit.segment_size st <? wadd n (Implicit.nused st)) eqn:E3;
      [reflexivity |].
    apply Z.ltb_ge in E3.
    destruct H as [H | [H | [H | (l & Hl & Hno)]]]; try lia.
    destruct (implicit_find_prefix _ _ n _ _ _ Hl)
      as [(l1 & r & l2 & -> & Hr & _ & _) | [_ Hfind]].
    + rewrite Hno in Hr by (apply in_or_app; right; left; reflexivity).
      discriminate.
    + rewrite Hfind. reflexivity.
  - split; [intros; apply explicit_size_max; assumption |].
    intros H. unfold Explicit.mymalloc. fold n.
    destruct ((MAX_REQUEST_SIZE <? requested) || (requested =? 0)) eqn:E1;
      [reflexivity |].
    apply orb_false_iff in E1. destruct E1 as [E1 E2].
    apply Z.ltb_ge in E1. apply Z.eqb_neq in E2.
    destruct (Explicit.segment_size st <? wadd n (Explicit.nused st)) eqn:E3;
      [reflexivity |].
    apply Z.ltb_ge in E3.
    destruct H as [H | [H | [H | (l & Hl & Hno)]]]; try lia.
    destruct (explicit_find_prefix _ n _ _ _ Hl)
      as [(l1 & r & l2 & -> & Hr & _ & _) | [_ Hfind]].
    + rewrite Hno in Hr by (apply in_or_app; right; left; reflexivity).
      discriminate.
    + rewrite Hfind. reflexivity.
Qed.

(** With two free blocks of payload 16 and 40 and [nused = 24] in a
    segment of 96 bytes, [allocate(48)] passes the test on [nused], finds no
    node of the free list large enough, returns none and leaves the state
    unchanged. *)
Lemma mymalloc_failure_witness :
  Explicit.mymalloc run_limit run_fuel (ExplicitRun.final ExplicitRun.two_free) 48
  = Some (NULL, ExplicitRun.final ExplicitRun.two_free).
Proof.
  apply (proj2 (mymalloc_failure run_limit run_fuel 48)).
  right. right. right. exists [4096; 4144].
  split; [vm_compute; reflexivity |].
  intros b [<- | [<- | []]]; vm_compute; reflexivity.
Defined.

(** ** Splitting and unlinking in the explicit allocator *)

Ltac mem_norm :=
  repeat first
    [ rewrite load64_store64_same
    | rewrite load64_store64_apart by (unfold apart; lia) ].

Lemma roundup_mult8 (r : Z) :
  roundup r ALIGNMENT = 8 * (wrap (r + 8 - 1) / 8).
Proof.
  unfold roundup. change ALIGNMENT with 8.
  rewrite wsub_wadd. change (wnot (wsub 8 1)) with (2 ^ 64 - 2 ^ 3).
  rewrite land_clear_low by (try apply wrap_range; lia). reflexivity.
Qed.

Lemma roundup8_range (r : Z) :
  0 <= roundup r ALIGNMENT <= 2 ^ 64 - 8 /\ roundup r ALIGNMENT mod 8 = 0.
Proof.
  rewrite roundup_mult8. pose proof (wrap_range (r + 8 - 1)) as Hr.
  pose proof (Z_div_mod_eq_full (wrap (r + 8 - 1)) 8).
  pose proof (Z.mod_pos_bound (wrap (r + 8 - 1)) 8 ltac:(lia)).
  assert (2 ^ 64 = 8 * 2 ^ 61) by reflexivity.
  split; [lia |].
  rewrite Z.mul_comm. apply Z.mod_mul. lia.
Qed.

Lemma size_for_range (r : Z) :
  0 <= Explicit.size_for r <= 2 ^ 64 - 8 /\ Explicit.size_for r mod 8 = 0.
Proof.
  unfold Explicit.size_for. destruct (2 * ALIGNMENT <? r).
  - apply roundup8_range.
  - change (2 * ALIGNMENT) with 16. split; [lia | reflexivity].
Qed.

Lemma get_size_mod8 (m : memory) (p : Z) : get_size m p mod 8 = 0.
Proof. rewrite get_size_div, Z.mul_comm. apply Z.mod_mul. lia. Qed.

Lemma div8_exact (n : Z) : n mod 8 = 0 -> 8 * (n / 8) = n.
Proof. intros H. pose proof (Z_div_mod_eq_full n 8). lia. Qed.

Lemma div8_exact_succ (n : Z) : n mod 8 = 0 -> 8 * ((n + 1) / 8) = n /\ (n + 1) mod 2 = 1.
Proof.
  intros H. pose proof (Z_div_mod_eq_full n 8).
  pose proof (Z_div_mod_eq_full (n + 1) 8).
  pose proof (Z.mod_pos_bound (n + 1) 8 ltac:(lia)).
  pose proof (Z_div_mod_eq_full (n + 1) 2).
  pose proof (Z.mod_pos_bound (n + 1) 2 ltac:(lia)).
  split; lia.
Qed.

Lemma mod8_even (n : Z) : n mod 8 = 0 -> n mod 2 = 0.
Proof.
  intros H. pose proof (Z_div_mod_eq_full n 8).
  pose proof (Z_div_mod_eq_full n 2).
  pose proof (Z.mod_pos_bound n 2 ltac:(lia)). lia.
Qed.

Lemma split_block_splits (st : Explicit.state) (ptr n : Z) :
  let S := get_size (Explicit.mem st) ptr in
  let f := Explicit.first_free st in
  let new := ptr + n + 8 in
  0 < ptr ->
  ptr + HEADER_SIZE + S <= 2 ^ 64 ->
  2 * ALIGNMENT <= n /\ n mod 8 = 0 ->
  2 * ALIGNMENT + HEADER_SIZE <= S - n ->
  Explicit.clear_of f ptr S ->
  let st1 := Explicit.split_block st ptr n in
  load64 (Explicit.mem st1) ptr
  = n + (if is_malloc (Explicit.mem st) ptr then MALLOC else 0) /\
  load64 (Explicit.mem st1) new = S - n - HEADER_SIZE /\
  Explicit.first_free st1 = new /\
  Explicit.num_freeblocks st1 = incr (Explicit.num_freeblocks st) /\
  Explicit.num_usedblocks st1 = Explicit.num_usedblocks st /\
  Explicit.nused st1 = Explicit.nused st /\
  Explicit.get_prev (Explicit.mem st1) ptr
  = (if f =? ptr then new else Explicit.get_prev (Explicit.mem st) ptr) /\
  Explicit.get_next (Explicit.mem st1) ptr = Explicit.get_next (Explicit.mem st) ptr.
Proof.
  intros S f new Hptr Hblock Hn Hroom Hf.
  change HEADER_SIZE with 8 in *. change ALIGNMENT with 8 in *.
  change MALLOC with 1.
  pose proof (get_size_range (Explicit.mem st) ptr) as HS. fold S in HS.
  destruct Hn as [Hn0 Hn8].
  intros st1. subst st1. unfold Explicit.split_block. fold S.
  change (2 * ALIGNMENT + HEADER_SIZE) with 24.
  rewrite (wsub_small S n) by lia.
  replace (24 <=? S - n) with true by (symmetry; apply Z.leb_le; lia).
  change HEADER_SIZE with 8.
  rewrite (wadd_small n 8), (wadd_small ptr (n + 8)) by lia.
  rewrite (wsub_small S (n + 8)) by lia.
  replace (ptr + (n + 8)) with new by (unfold new; lia).
  assert (Hm : is_malloc (store64 (Explicit.mem st) new (S - (n + 8))) ptr
               = is_malloc (Explicit.mem st) ptr).
  { apply is_malloc_store_apart. unfold apart, new. lia. }
  cbn [Explicit.mem Explicit.with_mem]. rewrite Hm.
  set (v := if is_malloc (Explicit.mem st) ptr then wadd n MALLOC else n).
  assert (Hv : v = n + (if is_malloc (Explicit.mem st) ptr then 1 else 0) /\ 0 <= v < 2 ^ 64).
  { unfold v. destruct (is_malloc (Explicit.mem st) ptr).
    - change MALLOC with 1. rewrite wadd_small by lia. lia.
    - lia. }
  destruct Hv as [Hv Hvr].
  replace (if is_malloc (Explicit.mem st) ptr
           then store64 (store64 (Explicit.mem st) new (S - (n + 8))) ptr (wadd n MALLOC)
           else store64 (store64 (Explicit.mem st) new (S - (n + 8))) ptr n)
    with (store64 (store64 (Explicit.mem st) new (S - (n + 8))) ptr v)
    by (unfold v; destruct (is_malloc (Explicit.mem st) ptr); reflexivity).
  unfold Explicit.add_freeblock. cbn [Explicit.first_free Explicit.with_mem Explicit.mem]. fold f.
  unfold Explicit.get_prev, Explicit.get_next, Explicit.prev_field, Explicit.next_field.
  rewrite (wadd_small ptr 8), (wadd_small ptr 16) by lia.
  destruct (f =? NULL) eqn:Ef.
  - apply Z.eqb_eq in Ef.
    cbn [Explicit.mem Explicit.first_free Explicit.num_freeblocks Explicit.num_usedblocks Explicit.nused
         Explicit.with_first_free Explicit.with_counts Explicit.with_mem].
    split; [unfold new; mem_norm; rewrite wrap_small; lia |].
    split; [unfold new; mem_norm; rewrite wrap_small; lia |].
    do 4 (split; [reflexivity |]).
    replace (f =? ptr) with false.
    + unfold new. mem_norm. split; reflexivity.
    + symmetry. apply Z.eqb_neq. rewrite Ef. unfold NULL. lia.
  - apply Z.eqb_neq in Ef.
    assert (Hfr : 0 <= f /\ f + 24 <= 2 ^ 64 /\
                  (f = ptr \/ f + 24 <= ptr \/ ptr + 8 + S <= f)).
    { destruct Hf as [H | [H | [H | H]]]; [contradiction | | |];
        change HEADER_SIZE with 8 in H; lia. }
    destruct Hfr as (Hf0 & Hf1 & Hf2).
    rewrite (wadd_small f 8), (wadd_small new 8), (wadd_small new 16)
      by (unfold new; lia).
    cbn [Explicit.mem Explicit.first_free Explicit.num_freeblocks Explicit.num_usedblocks Explicit.nused
         Explicit.with_first_free Explicit.with_counts Explicit.with_mem].
    split; [unfold new; mem_norm; rewrite wrap_small; lia |].
    split; [unfold new; mem_norm; rewrite wrap_small; lia |].
    do 4 (split; [reflexivity |]).
    split.
    + destruct (f =? ptr) eqn:Efp.
      * apply Z.eqb_eq in Efp. rewrite Efp. unfold new. mem_norm.
        apply wrap_small. lia.
      * apply Z.eqb_neq in Efp. unfold new. mem_norm. reflexivity.
    + unfold new. mem_norm. reflexivity.
Qed.


Lemma explicit_split_block_keeps (st : Explicit.state) (ptr n : Z) :
  wsub (get_size (Explicit.mem st) ptr) n < 2 * ALIGNMENT + HEADER_SIZE ->
  Explicit.split_block st ptr n = st.
Proof.
  intros H. unfold Explicit.split_block.
  destruct (2 * ALIGNMENT + HEADER_SIZE <=? wsub (get_size (Explicit.mem st) ptr) n) eqn:E;
    [apply Z.leb_le in E; lia | reflexivity].
Qed.

Lemma implicit_split_block_keeps (st : Implicit.state) (ptr n : Z) :
  wsub (get_size (Implicit.mem st) ptr) n < HEADER_SIZE + ALIGNMENT ->
  Implicit.split_block st ptr n = st.
Proof.
  intros H. unfold Implicit.split_block.
  destruct (HEADER_SIZE + ALIGNMENT <=? wsub (get_size (Implicit.mem st) ptr) n) eqn:E;
    [apply Z.leb_le in E; lia | reflexivity].
Qed.

Lemma implicit_split_block_splits (st : Implicit.state) (ptr n : Z) :
  0 <= ptr < 2 ^ 64 -> 0 <= n ->
  HEADER_SIZE + ALIGNMENT <= get_size (Implicit.mem st) ptr - n ->
  load64 (Implicit.mem (Implicit.split_block st ptr n)) ptr = n /\
  Implicit.nused (Implicit.split_block st ptr n) = Implicit.nused st.
Proof.
  intros Hp Hn Hroom. change (HEADER_SIZE + ALIGNMENT) with 16 in Hroom.
  pose proof (get_size_range (Implicit.mem st) ptr) as HS.
  unfold Implicit.split_block. change (HEADER_SIZE + ALIGNMENT) with 16.
  rewrite (wsub_small _ n) by lia.
  replace (16 <=? get_size (Implicit.mem st) ptr - n) with true
    by (symmetry; apply Z.leb_le; lia).
  cbn [Implicit.mem Implicit.with_mem Implicit.with_counts Implicit.nused].
  split; [| reflexivity].
  rewrite load64_store64_same. apply wrap_small. lia.
Qed.

Lemma implicit_find_some (m : memory) (seg_end n : Z) :
  forall (fuel : nat) (ptr r : Z),
    Implicit.find_first_free fuel m seg_end ptr n = Some r ->
    r <> NULL -> 0 <= ptr < 2 ^ 64 ->
    Implicit.fits m n r = true /\ 0 <= r < 2 ^ 64.
Proof.
  induction fuel as [| f IH]; intros ptr r H Hr Hp; [discriminate |].
  cbn [Implicit.find_first_free] in H.
  destruct (ptr <? seg_end); [| injection H as <-; contradiction].
  fold (Implicit.fits m n ptr) in H.
  destruct (Implicit.fits m n ptr) eqn:E.
  - injection H as <-. auto.
  - apply (IH _ _ H Hr). apply wrap_range.
Qed.

Lemma explicit_find_some (m : memory) (n : Z) :
  forall (fuel : nat) (ptr r : Z),
    Explicit.find_freeblock fuel m ptr n = Some r ->
    r <> NULL -> 0 <= ptr < 2 ^ 64 ->
    Explicit.fits m n r = true /\ 0 <= r < 2 ^ 64.
Proof.
  induction fuel as [| f IH]; intros ptr r H Hr Hp; [discriminate |].
  cbn [Explicit.find_freeblock] in H.
  destruct (negb (ptr =? NULL)); [| injection H as <-; contradiction].
  fold (Explicit.fits m n ptr) in H.
  destruct (Explicit.fits m n ptr) eqn:E.
  - injection H as <-. auto.
  - apply (IH _ _ H Hr). apply load64_range.
Qed.

(** Unlinking [block] leaves the word at [a] alone when the two link fields
    it rewrites are away from [a]. *)
Lemma remove_freeblock_load (st : Explicit.state) (block a : Z) :
  0 <= block -> block + 24 <= 2 ^ 64 ->
  let p := Explicit.get_prev (Explicit.mem st) block in
  let nx := Explicit.get_next (Explicit.mem st) block in
  (p = NULL \/
   (apart (Explicit.next_field p) a /\
    (p = block \/ apart (Explicit.next_field p) (block + 16)))) ->
  (nx = NULL \/ apart (Explicit.prev_field nx) a) ->
  load64 (Explicit.mem (Explicit.remove_freeblock st block)) a
  = load64 (Explicit.mem st) a.
Proof.
  intros Hb0 Hb1 p nx Hp Hnx.
  unfold Explicit.remove_freeblock.
  set (st1 := if block =? Explicit.first_free st
              then Explicit.with_first_free st
                     (Explicit.get_next (Explicit.mem st) block)
              else st).
  assert (Hm1 : Explicit.mem st1 = Explicit.mem st)
    by (unfold st1; destruct (block =? Explicit.first_free st); reflexivity).
  rewrite Hm1. fold p nx.
  set (st2 := if negb (p =? NULL)
              then Explicit.with_mem st1
                     (store64 (Explicit.mem st) (Explicit.next_field p) nx)
              else st1).
  assert (Hnf : Explicit.next_field block = block + 16)
    by (unfold Explicit.next_field; apply wadd_small; lia).
  assert (Hnx2 : Explicit.get_next (Explicit.mem st2) block = nx).
  { unfold st2. destruct (p =? NULL) eqn:E; cbn [negb]; [rewrite Hm1; reflexivity |].
    apply Z.eqb_neq in E. destruct Hp as [Hp | [_ Hp]]; [contradiction |].
    cbn [Explicit.mem Explicit.with_mem].
    unfold nx, Explicit.get_next. rewrite Hnf.
    destruct Hp as [Hp | Hp].
    - replace (Explicit.next_field p) with (block + 16)
        by (rewrite Hp; symmetry; exact Hnf).
      rewrite load64_store64_same. apply wrap_small. apply load64_range.
    - rewrite load64_store64_apart by exact Hp. reflexivity. }
  assert (Hl2 : load64 (Explicit.mem st2) a = load64 (Explicit.mem st) a).
  { unfold st2. destruct (p =? NULL) eqn:E; cbn [negb]; [rewrite Hm1; reflexivity |].
    apply Z.eqb_neq in E. destruct Hp as [Hp | [Hp _]]; [contradiction |].
    cbn [Explicit.mem Explicit.with_mem]. apply load64_store64_apart. exact Hp. }
  rewrite Hnx2.
  destruct (nx =? NULL) eqn:E; cbn [negb]; [exact Hl2 |].
  apply Z.eqb_neq in E. destruct Hnx as [Hnx | Hnx]; [contradiction |].
  cbn [Explicit.mem Explicit.with_mem].
  rewrite load64_store64_apart by exact Hnx. exact Hl2.
Qed.

Lemma get_header_payload (ptr : Z) :
  0 <= ptr < 2 ^ 64 -> get_header (wadd ptr HEADER_SIZE) = ptr.
Proof.
  intros H. unfold get_header. rewrite wsub_wadd.
  replace (ptr + HEADER_SIZE - HEADER_SIZE) with ptr by lia.
  apply wrap_small. exact H.
Qed.

Lemma clear_of_fields (q ptr size : Z) :
  Explicit.clear_of q ptr size ->
  0 <= ptr -> ptr + 24 <= 2 ^ 64 -> 2 * ALIGNMENT <= size ->
  q = NULL \/
  (apart (Explicit.prev_field q) ptr /\
   apart (Explicit.next_field q) ptr /\
   (q = ptr \/ apart (Explicit.next_field q) (ptr + 16))).
Proof.
  intros Hc H0 H1 Hs. change (2 * ALIGNMENT) with 16 in Hs.
  unfold Explicit.clear_of in Hc. change HEADER_SIZE with 8 in Hc.
  destruct Hc as [Hc | Hc]; [left; exact Hc | right].
  assert (Hq : 0 <= q /\ q + 24 <= 2 ^ 64) by lia.
  unfold Explicit.prev_field, Explicit.next_field.
  rewrite (wadd_small q 8), (wadd_small q 16) by lia.
  unfold apart.
  destruct Hc as [Hc | [Hc | Hc]]; repeat split; lia.
Qed.

(** ** The payload size an allocation records *)

(** C5, as the claim states it, fails when the chosen block is too small to
    split: in a 32-byte segment [allocate(16)] returns the only block with
    its payload of 24 bytes, not the rounded size 16. *)
Lemma mymalloc_rounding_counterexample :
  option_map fst (ImplicitRun.malloc ImplicitRun.small 16) = Some 4104 /\
  get_size (Implicit.mem (ImplicitRun.final (ImplicitRun.malloc ImplicitRun.small 16)))
           (get_header 4104) = 24 /\
  Z.max ALIGNMENT (roundup 16 ALIGNMENT) = 16 /\
  24 <> 16.
Proof. repeat split; vm_compute; try reflexivity; discriminate. Qed.

(** C5 (amended).  A successful [allocate(R)], [0 < R], returns a block that
    is marked allocated and whose recorded payload size is the normalised
    size [n = max(variant_min, round_up(R, ALIGNMENT))] when the payload [S]
    of the chosen block leaves room for a split,
    [S - n >= HEADER_SIZE + variant_min], and is [S] itself otherwise; in
    both cases [n <= S].  For the explicit variant the chosen block is a free
    node whose list neighbours and the list head do not overlap it. *)
Theorem mymalloc_payload_size (MAX_REQUEST_SIZE : Z) (fuel : nat) (R : Z) :
  0 < R -> R + 7 < 2 ^ 64 ->
  (forall (st : Implicit.state) (p : Z) (st' : Implicit.state),
      0 <= Implicit.segment_start st < 2 ^ 64 ->
      Implicit.mymalloc MAX_REQUEST_SIZE fuel st R = Some (p, st') ->
      p <> NULL ->
      let n := Z.max ALIGNMENT (roundup R ALIGNMENT) in
      let hdr := get_header p in
      let S := get_size (Implicit.mem st) hdr in
      n <= S /\
      is_malloc (Implicit.mem st') hdr = true /\
      get_size (Implicit.mem st') hdr
      = if HEADER_SIZE + ALIGNMENT <=? S - n then n else S) /\
  (forall (st : Explicit.state) (p : Z) (st' : Explicit.state),
      0 <= Explicit.first_free st < 2 ^ 64 ->
      Explicit.mymalloc MAX_REQUEST_SIZE fuel st R = Some (p, st') ->
      p <> NULL ->
      let n := Z.max (2 * ALIGNMENT) (roundup R ALIGNMENT) in
      let hdr := get_header p in
      let S := get_size (Explicit.mem st) hdr in
      is_malloc (Explicit.mem st) hdr = false ->
      hdr + HEADER_SIZE + S <= 2 ^ 64 ->
      Explicit.clear_of (Explicit.first_free st) hdr S ->
      Explicit.clear_of (Explicit.get_prev (Explicit.mem st) hdr) hdr S ->
      Explicit.clear_of (Explicit.get_next (Explicit.mem st) hdr) hdr S ->
      n <= S /\
      is_malloc (Explicit.mem st') hdr = true /\
      get_size (Explicit.mem st') hdr
      = if HEADER_SIZE + 2 * ALIGNMENT <=? S - n then n else S).
Proof.
  intros HR0 HR1. split.
  - intros st p st' Hstart Hm Hp n hdr S.
    unfold Implicit.mymalloc in Hm.
    destruct ((MAX_REQUEST_SIZE <? R) || (R =? 0));
      [injection Hm as <- _; contradiction |].
    destruct (Implicit.segment_size st <? _);
      [injection Hm as <- _; contradiction |].
    destruct (Implicit.find_first_free _ _ _ _ _) as [ptr |] eqn:Hfind;
      [| discriminate].
    destruct (ptr =? NULL) eqn:Eptr; [injection Hm as <- _; contradiction |].
    apply Z.eqb_neq in Eptr.
    destruct (implicit_find_some _ _ _ _ _ _ Hfind Eptr Hstart) as [Hfit Hrange].
    injection Hm as <- <-.
    subst hdr S. rewrite get_header_payload by exact Hrange.
    subst n. rewrite <- implicit_size_max by lia.
    set (n := roundup R ALIGNMENT) in *.
    destruct (roundup8_range R) as [Hn Hn8]. fold n in Hn, Hn8.
    unfold Implicit.fits in Hfit. apply andb_true_iff in Hfit.
    destruct Hfit as [Hge Hfree]. apply Z.leb_le in Hge.
    apply negb_true_iff in Hfree. apply is_malloc_false_even in Hfree.
    pose proof (get_size_range (Implicit.mem st) ptr) as HS.
    pose proof (load64_range (Implicit.mem st) ptr) as Hh.
    split; [exact Hge |].
    cbn [Implicit.mem Implicit.with_mem Implicit.with_nused Implicit.with_counts].
    change MALLOC with 1.
    destruct (HEADER_SIZE + ALIGNMENT <=? get_size (Implicit.mem st) ptr - n) eqn:E.
    + apply Z.leb_le in E.
      destruct (implicit_split_block_splits st ptr n Hrange ltac:(lia) E) as [Hl _].
      rewrite Hl, (wadd_small n 1) by lia.
      rewrite is_malloc_store, get_size_store by lia.
      destruct (div8_exact_succ n Hn8) as [-> ->]. split; reflexivity.
    + apply Z.leb_gt in E.
      rewrite implicit_split_block_keeps by (rewrite wsub_small; lia).
      pose proof (Z_div_mod_eq_full (load64 (Implicit.mem st) ptr) 2) as Hd.
      assert (2 ^ 64 = 2 * 2 ^ 63) by reflexivity.
      rewrite (wadd_small _ 1) by lia.
      rewrite is_malloc_store, get_size_store by lia.
      destruct (set_bit_word _ Hfree) as [-> ->].
      split; [reflexivity | symmetry; apply get_size_div].
  - intros st p st' Hstart Hm Hp n hdr S.
    unfold Explicit.mymalloc in Hm.
    destruct ((MAX_REQUEST_SIZE <? R) || (R =? 0));
      [injection Hm as <- _; contradiction |].
    destruct (Explicit.segment_size st <? _);
      [injection Hm as <- _; contradiction |].
    destruct (Explicit.find_freeblock _ _ _ _) as [ptr |] eqn:Hfind;
      [| discriminate].
    destruct (ptr =? NULL) eqn:Eptr; [injection Hm as <- _; contradiction |].
    apply Z.eqb_neq in Eptr.
    destruct (explicit_find_some _ _ _ _ _ Hfind Eptr Hstart) as [Hfit Hrange].
    injection Hm as <- <-.
    subst hdr S. rewrite get_header_payload by exact Hrange.
    subst n. rewrite <- explicit_size_max by lia.
    assert (Hbig : 2 * ALIGNMENT <= Explicit.size_for R).
    { rewrite explicit_size_max by lia. lia. }
    set (n := Explicit.size_for R) in *.
    destruct (size_for_range R) as [Hn Hn8]. fold n in Hn, Hn8.
    unfold Explicit.fits in Hfit. apply Z.leb_le in Hfit.
    intros Hfree Hblock Hcf Hcp Hcn.
    pose proof Hfree as Heven. apply is_malloc_false_even in Heven.
    pose proof (get_size_range (Explicit.mem st) ptr) as HS.
    pose proof (load64_range (Explicit.mem st) ptr) as Hh.
    change (2 * ALIGNMENT) with 16 in *. change HEADER_SIZE with 8 in *.
    assert (Hp24 : ptr + 24 <= 2 ^ 64) by lia.
    assert (Hp0 : 0 < ptr) by (unfold NULL in Eptr; lia).
    split; [exact Hfit |].
    cbn [Explicit.mem Explicit.with_mem Explicit.with_nused Explicit.with_counts].
    change MALLOC with 1.
    destruct (8 + 16 <=? get_size (Explicit.mem st) ptr - n) eqn:E.
    + apply Z.leb_le in E.
      destruct (split_block_splits st ptr n Hp0 Hblock (conj Hbig Hn8)
                  ltac:(change (2 * ALIGNMENT + HEADER_SIZE) with 24; lia) Hcf)
        as (Hl & _ & _ & _ & _ & _ & Hprev & Hnext).
      rewrite Hfree in Hl.
      set (st1 := Explicit.split_block st ptr n) in *.
      assert (Hrm : load64 (Explicit.mem (Explicit.remove_freeblock st1 ptr)) ptr = n).
      { rewrite remove_freeblock_load; [lia | lia | lia | |].
        - rewrite Hprev. destruct (Explicit.first_free st =? ptr).
          + right. unfold Explicit.next_field.
            rewrite (wadd_small (ptr + n + 8) 16) by lia.
            unfold apart. split; [| right]; lia.
          + destruct (clear_of_fields _ _ _ Hcp ltac:(lia) Hp24 ltac:(change (2 * ALIGNMENT) with 16; lia))
              as [H | (_ & H1 & H2)]; [left; exact H | right; split; assumption].
        - rewrite Hnext.
          destruct (clear_of_fields _ _ _ Hcn ltac:(lia) Hp24 ltac:(change (2 * ALIGNMENT) with 16; lia))
            as [H | (H1 & _ & _)]; [left; exact H | right; exact H1]. }
      rewrite Hrm, (wadd_small n 1) by lia.
      rewrite is_malloc_store, get_size_store by lia.
      destruct (div8_exact_succ n Hn8) as [-> ->]. split; reflexivity.
    + apply Z.leb_gt in E.
      rewrite explicit_split_block_keeps
        by (rewrite wsub_small; change (2 * ALIGNMENT + HEADER_SIZE) with 24; lia).
      assert (Hrm : load64 (Explicit.mem (Explicit.remove_freeblock st ptr)) ptr
                    = load64 (Explicit.mem st) ptr).
      { apply remove_freeblock_load; [lia | lia | |].
        - destruct (clear_of_fields _ _ _ Hcp ltac:(lia) Hp24 ltac:(change (2 * ALIGNMENT) with 16; lia))
            as [H | (_ & H1 & H2)]; [left; exact H | right; split; assumption].
        - destruct (clear_of_fields _ _ _ Hcn ltac:(lia) Hp24 ltac:(change (2 * ALIGNMENT) with 16; lia))
            as [H | (H1 & _ & _)]; [left; exact H | right; exact H1]. }
      rewrite Hrm.
      pose proof (Z_div_mod_eq_full (load64 (Explicit.mem st) ptr) 2) as Hd.
      assert (2 ^ 64 = 2 * 2 ^ 63) by reflexivity.
      rewrite (wadd_small _ 1) by lia.
      rewrite is_malloc_store, get_size_store by lia.
      destruct (set_bit_word _ Heven) as [-> ->].
      split; [reflexivity | symmetry; apply get_size_div].
Qed.

Lemma mymalloc_payload_size_witness :
  exists p st',
    Explicit.mymalloc run_limit run_fuel
      (snd (Explicit.myinit Explicit.blank run_base 1024)) 100 = Some (p, st') /\
    get_size (Explicit.mem st') (get_header p) = 104.
Proof.
  set (s0 := snd (Explicit.myinit Explicit.blank run_base 1024)).
  destruct (Explicit.mymalloc run_limit run_fuel s0 100) as [[p st'] |] eqn:E.
  - exists p, st'. split; [reflexivity |].
    assert (Hp : p = 4104).
    { pose proof (f_equal (option_map fst) E) as H. vm_compute in H.
      injection H as H. symmetry. exact H. }
    subst p.
    assert (H1 : 0 < 100) by lia.
    assert (H2 : 100 + 7 < 2 ^ 64) by lia.
    assert (Hff : 0 <= Explicit.first_free s0 < 2 ^ 64) by (vm_compute; split; congruence).
    assert (Hpn : 4104 <> NULL) by discriminate.
    assert (Hfree : is_malloc (Explicit.mem s0) (get_header 4104) = false)
      by (vm_compute; reflexivity).
    assert (Hblock : get_header 4104 + HEADER_SIZE
                     + get_size (Explicit.mem s0) (get_header 4104) <= 2 ^ 64)
      by (vm_compute; congruence).
    assert (Hcf : Explicit.clear_of (Explicit.first_free s0) (get_header 4104)
                    (get_size (Explicit.mem s0) (get_header 4104)))
      by (right; left; vm_compute; reflexivity).
    assert (Hcp : Explicit.clear_of (Explicit.get_prev (Explicit.mem s0) (get_header 4104))
                    (get_header 4104)
                    (get_size (Explicit.mem s0) (get_header 4104)))
      by (left; vm_compute; reflexivity).
    assert (Hcn : Explicit.clear_of (Explicit.get_next (Explicit.mem s0) (get_header 4104))
                    (get_header 4104)
                    (get_size (Explicit.mem s0) (get_header 4104)))
      by (left; vm_compute; reflexivity).
    destruct (proj2 (mymalloc_payload_size run_limit run_fuel 100 H1 H2)
                s0 4104 st' Hff E Hpn Hfree Hblock Hcf Hcp Hcn) as (_ & _ & Hsz).
    rewrite Hsz. vm_compute. reflexivity.
  - pose proof (f_equal (option_map fst) E) as H. vm_compute in H. discriminate H.
Defined.

(** ** Shrinking reallocation *)

Lemma remainder_mod8 (a b : Z) :
  a mod 8 = 0 -> b mod 8 = 0 -> (a - b - 8) mod 8 = 0.
Proof.
  intros Ha Hb. pose proof (Z_div_mod_eq_full a 8). pose proof (Z_div_mod_eq_full b 8).
  apply Z.mod_divide; [lia |]. exists (a / 8 - b / 8 - 1). lia.
Qed.




(** ** Failing reallocation in the implicit allocator *)

(** The implicit [myrealloc] does what C2 asks: its only allocation attempt
    comes before any write, so a [NULL] result leaves the state as it was. *)
Lemma implicit_find_below (m : memory) (seg_end n : Z) :
  forall (fuel : nat) (ptr r : Z),
    Implicit.find_first_free fuel m seg_end ptr n = Some r ->
    r <> NULL -> r < seg_end.
Proof.
  induction fuel as [| f IH]; intros ptr r H Hr; [discriminate |].
  cbn [Implicit.find_first_free] in H.
  destruct (ptr <? seg_end) eqn:E; [| injection H as <-; contradiction].
  destruct ((n <=? get_size m ptr) && negb (is_malloc m ptr)).
  - injection H as <-. apply Z.ltb_lt. exact E.
  - exact (IH _ _ H Hr).
Qed.

Lemma implicit_mymalloc_null_unchanged
      (MAX_REQUEST_SIZE : Z) (fuel : nat) (st st' : Implicit.state) (R : Z) :
  0 <= Implicit.segment_start st < 2 ^ 64 ->
  Implicit.segment_end st <= 2 ^ 64 - HEADER_SIZE ->
  Implicit.mymalloc MAX_REQUEST_SIZE fuel st R = Some (NULL, st') ->
  st' = st.
Proof.
  intros Hs He Hm. unfold Implicit.mymalloc in Hm.
  destruct ((MAX_REQUEST_SIZE <? R) || (R =? 0)); [injection Hm as <-; reflexivity |].
  destruct (Implicit.segment_size st <? _); [injection Hm as <-; reflexivity |].
  destruct (Implicit.find_first_free _ _ _ _ _) as [ptr |] eqn:Hfind; [| discriminate].
  destruct (ptr =? NULL) eqn:E; [injection Hm as <-; reflexivity |].
  apply Z.eqb_neq in E. exfalso.
  destruct (implicit_find_some _ _ _ _ _ _ Hfind E Hs) as [_ Hr].
  pose proof (implicit_find_below _ _ _ _ _ _ Hfind E) as Hb.
  injection Hm as Hp _. change HEADER_SIZE with 8 in *.
  rewrite wadd_small in Hp by lia. unfold NULL in Hp. lia.
Qed.

Lemma implicit_failed_realloc_unchanged
      (MAX_REQUEST_SIZE : Z) (fuel : nat) (st st' : Implicit.state)
      (old new_size : Z) :
  0 <= Implicit.segment_start st < 2 ^ 64 ->
  Implicit.segment_end st <= 2 ^ 64 - HEADER_SIZE ->
  old <> NULL -> new_size <> 0 ->
  Implicit.myrealloc MAX_REQUEST_SIZE fuel st old new_size = Some (NULL, st') ->
  st' = st.
Proof.
  intros Hs He Ho Hn Hm. unfold Implicit.myrealloc in Hm.
  apply Z.eqb_neq in Ho. apply Z.eqb_neq in Hn. rewrite Ho, Hn in Hm.
  destruct (Implicit.mymalloc MAX_REQUEST_SIZE fuel st new_size)
    as [[np st1] |] eqn:Hmal; [| discriminate].
  destruct (np =? NULL) eqn:E.
  - apply Z.eqb_eq in E. subst np. injection Hm as <-.
    exact (implicit_mymalloc_null_unchanged _ _ _ _ _ Hs He Hmal).
  - injection Hm as Hp _. apply Z.eqb_neq in E. contradiction.
Qed.

(** ** Defects of the explicit allocator *)

(** C1.  A sequence of valid public calls after which [validate_heap]
    returns failure.  With the segment full (three allocated blocks, the
    validator still succeeding), [free(p')] finds [first_free] null, so
    [add_freeblock] makes the block the head without resetting its links:
    its [next] still holds the address left there when the block was last
    unlinked, which is the header of an allocated block. *)
Theorem explicit_validate_heap_fails :
  option_map fst ExplicitRun.all_allocated = Some 4104 /\
  Explicit.first_free (ExplicitRun.final ExplicitRun.all_allocated) = NULL /\
  Explicit.validate_heap run_fuel (ExplicitRun.final ExplicitRun.all_allocated)
  = Some true /\
  Explicit.validate_heap run_fuel (ExplicitRun.final ExplicitRun.stale_link)
  = Some false /\
  Explicit.first_free (ExplicitRun.final ExplicitRun.stale_link) = 4096 /\
  is_malloc (Explicit.mem (ExplicitRun.final ExplicitRun.stale_link)) 4096 = false /\
  Explicit.get_next (Explicit.mem (ExplicitRun.final ExplicitRun.stale_link)) 4096
  = 4144 /\
  is_malloc (Explicit.mem (ExplicitRun.final ExplicitRun.stale_link)) 4144 = true.
Proof. repeat split; vm_compute; reflexivity. Qed.

(** C2.  A failed grow that mutates the old block and the counters.  The
    allocated block [p] of payload 16 has a free right neighbour of payload
    40; [realloc(p, 100)] merges the neighbour into the block, finds the
    result (64) still short of 104, fails to allocate out of place and
    returns [NULL]: the header word went from 17 to 65, [num_freeblocks]
    from 1 to 0 and [first_free] from the neighbour to null, while [nused]
    stayed 24, less than the footprint the block now has.  A later [free(p)]
    then wraps [nused] around. *)
Theorem explicit_failed_grow_mutates :
  option_map fst ExplicitRun.before_grow = Some 4104 /\
  (let s := ExplicitRun.final ExplicitRun.before_grow in
   let r := ExplicitRun.realloc s 4104 100 in
   let s' := ExplicitRun.final r in
   is_malloc (Explicit.mem s) (get_header 4104) = true /\
   get_size (Explicit.mem s) (get_header 4104) = 16 /\
   Explicit.size_for 100 = 104 /\
   option_map fst r = Some NULL /\
   load64 (Explicit.mem s) (get_header 4104) = 17 /\
   load64 (Explicit.mem s') (get_header 4104) = 65 /\
   Explicit.num_freeblocks s = 1 /\ Explicit.num_freeblocks s' = 0 /\
   Explicit.first_free s = 4120 /\ Explicit.first_free s' = NULL /\
   Explicit.nused s = 24 /\ Explicit.nused s' = 24 /\
   Explicit.nused (Explicit.myfree s' 4104) = 2 ^ 64 - 48).
Proof. repeat split; vm_compute; reflexivity. Qed.

(** C3.  An allocated block with a free right neighbour that is large
    enough, for which [myrealloc] does not grow in place.  The block [y]
    (header 4120, payload 16) is followed by the free block at 4144 of
    payload 16, the last of the segment: together they hold the 40 bytes
    asked for.  The first two words of the payload of [y], which
    [coalesce_block] reads as [prev] and [next], are both zero, so it
    returns at once; [myrealloc] falls through to [mymalloc], which fails,
    and returns [NULL] instead of [y]. *)
Theorem explicit_grow_in_place_missed :
  option_map fst ExplicitRun.free_right_neighbour = Some 4128 /\
  (let s := ExplicitRun.final ExplicitRun.free_right_neighbour in
   Explicit.validate_heap run_fuel s = Some true /\
   is_malloc (Explicit.mem s) (get_header 4128) = true /\
   get_size (Explicit.mem s) (get_header 4128) = 16 /\
   next_block (Explicit.mem s) (get_header 4128) = 4144 /\
   is_malloc (Explicit.mem s) 4144 = false /\
   get_size (Explicit.mem s) 4144 = 16 /\
   next_block (Explicit.mem s) 4144 = Explicit.segment_end s /\
   Explicit.size_for 40 = 40 /\
   16 + (HEADER_SIZE + 16) >= 40 /\
   Explicit.get_prev (Explicit.mem s) (get_header 4128) = NULL /\
   Explicit.get_next (Explicit.mem s) (get_header 4128) = NULL /\
   option_map fst (ExplicitRun.realloc s 4128 40) = Some NULL).
Proof. repeat split; vm_compute; try reflexivity; discriminate. Qed.

(** C8.  A state reached by valid public calls in which the explicit
    placement search returns a block that is in use.  The segment holds the
    free block at 4096 (payload 16) and the allocated blocks at 4120
    (payload 16) and 4144 (payload 40, the block of [r']); the free list is
    [4096 -> 4144], the link to 4144 being the stale [next] that
    [add_freeblock] did not reset.  No free block has payload 24, and the
    walk of the implicit search over the same memory reports failure, but
    [find_freeblock], which tests the size only, returns 4144. *)
Theorem explicit_find_freeblock_returns_live_block :
  let s := ExplicitRun.final ExplicitRun.live_node in
  let m := Explicit.mem s in
  option_map fst ExplicitRun.live_node = Some 4152 /\
  get_header 4152 = 4144 /\
  Explicit.segment_start s = 4096 /\
  is_malloc m 4096 = false /\ get_size m 4096 = 16 /\ next_block m 4096 = 4120 /\
  is_malloc m 4120 = true /\ get_size m 4120 = 16 /\ next_block m 4120 = 4144 /\
  is_malloc m 4144 = true /\ get_size m 4144 = 40 /\
  next_block m 4144 = Explicit.segment_end s /\
  Explicit.first_free s = 4096 /\
  Explicit.free_nodes run_fuel m (Explicit.first_free s) = Some [4096; 4144] /\
  Explicit.find_freeblock run_fuel m (Explicit.first_free s) 24 = Some 4144 /\
  Implicit.find_first_free run_fuel m (Explicit.segment_end s)
                           (Explicit.segment_start s) 24 = Some NULL.
Proof. repeat split; vm_compute; reflexivity. Qed.

(** C6.  A state reached by valid public calls in which [mymalloc] hands out
    a block that is in use instead of failing.  The segment of 96 bytes
    holds the free block at 4096 (payload 16) and the allocated blocks at
    4120 and 4144, the latter being the block of [r' = 4152]; [nused] is 72.
    No free block fits a request of 24 bytes and [24 + nused = 96] does not
    exceed the segment size, yet [mymalloc(24)] does not return [NULL]: it
    returns 4152 and changes the state: the header word of that block goes
    from 41 to 42, [nused] from 72 to 120, more than the segment, and
    [num_usedblocks] from 2 to 3. *)
Theorem explicit_mymalloc_returns_live_block :
  let s := ExplicitRun.final ExplicitRun.live_node in
  let r := ExplicitRun.malloc s 24 in
  let s' := ExplicitRun.final r in
  option_map fst ExplicitRun.live_node = Some 4152 /\
  is_malloc (Explicit.mem s) (get_header 4152) = true /\
  Explicit.size_for 24 = 24 /\
  24 <= run_limit /\
  Explicit.segment_size s = 96 /\ Explicit.nused s = 72 /\
  Explicit.segment_start s = 4096 /\
  is_malloc (Explicit.mem s) 4096 = false /\ get_size (Explicit.mem s) 4096 = 16 /\
  next_block (Explicit.mem s) 4096 = 4120 /\
  is_malloc (Explicit.mem s) 4120 = true /\
  next_block (Explicit.mem s) 4120 = 4144 /\
  is_malloc (Explicit.mem s) 4144 = true /\
  next_block (Explicit.mem s) 4144 = Explicit.segment_end s /\
  option_map fst r = Some 4152 /\
  load64 (Explicit.mem s) 4144 = 41 /\ load64 (Explicit.mem s') 4144 = 42 /\
  Explicit.nused s' = 120 /\ Explicit.segment_size s' = 96 /\
  Explicit.num_usedblocks s = 2 /\ Explicit.num_usedblocks s' = 3.
Proof. repeat split; vm_compute; try reflexivity; discriminate. Qed.

(** ** Layout of the implicit heap *)

Import ImplicitHeap.

Lemma load64_ext (m m' : memory) (a : Z) :
  (forall x, a <= x < a + 8 -> m' x = m x) -> load64 m' a = load64 m a.
Proof.
  intros H. unfold load64.
  assert (G : forall (n : nat) (b : Z),
             a <= b -> b + Z.of_nat n <= a + 8 ->
             load_le n m' b = load_le n m b).
  { induction n as [| k IH]; intros b H1 H2; [reflexivity |].
    cbn [load_le]. unfold load8. rewrite H by lia. rewrite IH by lia. reflexivity. }
  apply G; simpl; lia.
Qed.

Lemma span_app (l1 l2 : list block) : span (l1 ++ l2) = span l1 + span l2.
Proof. induction l1 as [| b t IH]; simpl; [reflexivity | rewrite IH; lia]. Qed.

Lemma used_bytes_app (l1 l2 : list block) :
  used_bytes (l1 ++ l2) = used_bytes l1 + used_bytes l2.
Proof. induction l1 as [| b t IH]; simpl; [reflexivity | rewrite IH; lia]. Qed.

Lemma count_used_app (l1 l2 : list block) :
  count_used (l1 ++ l2) = count_used l1 + count_used l2.
Proof. induction l1 as [| b t IH]; simpl; [reflexivity | rewrite IH; lia]. Qed.

Lemma count_free_app (l1 l2 : list block) :
  count_free (l1 ++ l2) = count_free l1 + count_free l2.
Proof. induction l1 as [| b t IH]; simpl; [reflexivity | rewrite IH; lia]. Qed.

(** Every block takes at least 16 bytes; the sums and counts are bounded by
    the span. *)
Lemma tiles_bounds (m : memory) (l : list block) :
  forall a, tiles m a l ->
    16 * Z.of_nat (length l) <= span l /\
    0 <= used_bytes l <= span l /\
    0 <= count_used l /\ 0 <= count_free l /\
    count_used l + count_free l = Z.of_nat (length l).
Proof.
  induction l as [| b t IH]; intros a H.
  - simpl. lia.
  - destruct H as (_ & Hs & _ & Ht). destruct (IH _ Ht) as (H1 & H2 & H3 & H4 & H5).
    cbn [span used_bytes count_used count_free length]. unfold footprint.
    change ALIGNMENT with 8 in Hs. change HEADER_SIZE with 8.
    rewrite Nat2Z.inj_succ. destruct (used b); lia.
Qed.

Lemma tiles_app (m : memory) (l1 l2 : list block) :
  forall a, tiles m a (l1 ++ l2) <-> tiles m a l1 /\ tiles m (a + span l1) l2.
Proof.
  induction l1 as [| b t IH]; intros a.
  - simpl. replace (a + 0) with a by lia. tauto.
  - cbn [app tiles span]. rewrite IH.
    replace (a + footprint b + span t) with (a + (footprint b + span t)) by lia.
    tauto.
Qed.

(** The layout only depends on the bytes of the range it covers. *)
Lemma tiles_ext (m m' : memory) (l : list block) :
  forall a,
    (forall x, a <= x < a + span l -> m' x = m x) ->
    tiles m a l -> tiles m' a l.
Proof.
  induction l as [| b t IH]; intros a Hext H; [exact I |].
  destruct H as (Hh & Hs & H8 & Ht).
  assert (Hsp : 0 <= span t) by (destruct (tiles_bounds m t _ Ht); lia).
  cbn [span] in Hext. unfold footprint in *.
  change ALIGNMENT with 8 in Hs. change HEADER_SIZE with 8 in *.
  cbn [tiles]. split; [| split; [exact Hs | split; [exact H8 |]]].
  - rewrite <- Hh. apply load64_ext. intros x Hx. apply Hext. lia.
  - apply IH; [| exact Ht]. intros x Hx. apply Hext. unfold footprint in *.
    change HEADER_SIZE with 8 in *. lia.
Qed.

(** Replacing a run of blocks by another of the same span, in a memory that
    differs only inside that run. *)
Lemma tiles_replace (m m' : memory) (a : Z) (l1 mid mid' l2 : list block) :
  tiles m a (l1 ++ mid ++ l2) ->
  span mid' = span mid ->
  tiles m' (a + span l1) mid' ->
  (forall x, x < a + span l1 \/ a + span l1 + span mid <= x -> m' x = m x) ->
  tiles m' a (l1 ++ mid' ++ l2).
Proof.
  intros H Hsp Hmid Hout.
  apply tiles_app in H. destruct H as [H1 H]. apply tiles_app in H.
  destruct H as [_ H2].
  assert (B1 : 0 <= span l1) by (destruct (tiles_bounds m l1 _ H1); lia).
  assert (B2 : 0 <= span l2) by (destruct (tiles_bounds m l2 _ H2); lia).
  apply tiles_app. split.
  - apply (tiles_ext m); [| exact H1]. intros x Hx. apply Hout. lia.
  - apply tiles_app. split; [exact Hmid |]. rewrite Hsp.
    apply (tiles_ext m); [| exact H2]. intros x Hx. apply Hout. lia.
Qed.

Lemma wrap_int_small (x : Z) : - 2 ^ 31 <= x < 2 ^ 31 -> wrap_int x = x.
Proof. intros H. unfold wrap_int. rewrite Z.mod_small by lia. lia. Qed.

Lemma header_word_range (b : block) :
  0 <= size b -> size b mod 8 = 0 ->
  size b <= header_word b <= size b + 1 /\
  header_word b / 8 = size b / 8 /\
  header_word b mod 2 = (if used b then 1 else 0).
Proof.
  intros H0 H8. unfold header_word. change MALLOC with 1.
  pose proof (mod8_even _ H8) as H2.
  destruct (used b).
  - destruct (set_bit_word _ H2) as [Hd Hm]. split; [lia | split; assumption].
  - replace (size b + 0) with (size b) by lia. split; [lia | split; [reflexivity | exact H2]].
Qed.

(** In a tiled range the header codec reads the layout back. *)
Lemma tiles_head (m : memory) (a : Z) (b : block) (t : list block) :
  tiles m a (b :: t) ->
  get_size m a = size b /\ is_malloc m a = used b /\
  8 <= size b /\ size b mod 8 = 0 /\ 0 <= span t.
Proof.
  intros (Hh & Hs & H8 & Ht). change ALIGNMENT with 8 in Hs.
  destruct (header_word_range b ltac:(lia) H8) as (_ & Hd & Hm).
  split; [rewrite get_size_div, Hh, Hd; apply div8_exact; exact H8 |].
  split; [| split; [exact Hs | split; [exact H8 |
            destruct (tiles_bounds m t _ Ht); lia]]].
  rewrite is_malloc_mod, Hh, Hm. destruct (used b); reflexivity.
Qed.

Lemma tiles_at (m : memory) (a : Z) (l1 : list block) (b : block) (l2 : list block) :
  tiles m a (l1 ++ b :: l2) ->
  load64 m (a + span l1) = header_word b /\
  get_size m (a + span l1) = size b /\
  is_malloc m (a + span l1) = used b /\
  8 <= size b /\ size b mod 8 = 0 /\ 0 <= span l1 /\ 0 <= span l2.
Proof.
  intros H. apply tiles_app in H. destruct H as [H1 H2].
  destruct (tiles_head _ _ _ _ H2) as (A & B & C & D & E).
  destruct H2 as (Hh & _).
  destruct (tiles_bounds m l1 _ H1) as (F & _).
  repeat split; try assumption; lia.
Qed.

Lemma next_block_tiles (m : memory) (a : Z) (b : block) (t : list block) :
  tiles m a (b :: t) -> 0 <= a -> a + span (b :: t) < 2 ^ 64 ->
  wadd (wadd a (get_size m a)) HEADER_SIZE = a + footprint b.
Proof.
  intros H Ha He. destruct (tiles_head _ _ _ _ H) as (Hs & _ & H8 & _ & Ht).
  cbn [span] in He. unfold footprint in *. change HEADER_SIZE with 8 in *.
  rewrite Hs, wadd_wadd. replace (a + size b + 8) with (a + (8 + size b)) by lia.
  apply wrap_small. lia.
Qed.

(** The placement search on a tiled segment: with more fuel than blocks it
    ends, at the first free block that is large enough or with [NULL]. *)
Lemma find_on_tiles (m : memory) (n : Z) (l : list block) :
  forall (fuel : nat) (a : Z),
    tiles m a l -> 0 < a -> a + span l < 2 ^ 64 -> (length l < fuel)%nat ->
    (Implicit.find_first_free fuel m (a + span l) a n = Some NULL /\
     forall b, In b l -> used b = true \/ size b < n) \/
    (exists l1 b l2,
        l = l1 ++ b :: l2 /\ used b = false /\ n <= size b /\
        (forall c, In c l1 -> used c = true \/ size c < n) /\
        Implicit.find_first_free fuel m (a + span l) a n = Some (a + span l1)).
Proof.
  induction l as [| b t IH]; intros fuel a H Ha He Hf.
  - left. destruct fuel as [| f]; [inversion Hf |].
    cbn [Implicit.find_first_free span]. replace (a + 0) with a by lia.
    rewrite Z.ltb_irrefl. split; [reflexivity | intros b []].
  - destruct fuel as [| f]; [inversion Hf |]. cbn [length] in Hf.
    destruct (tiles_head _ _ _ _ H) as (Hs & Hu & H8 & Hm & Ht).
    pose proof (next_block_tiles _ _ _ _ H ltac:(lia) He) as Hn.
    cbn [Implicit.find_first_free]. cbn [span] in *.
    assert (Hfp : footprint b = 8 + size b) by reflexivity.
    replace (a <? a + (footprint b + span t)) with true
      by (symmetry; apply Z.ltb_lt; lia).
    rewrite Hn, Hs, Hu.
    destruct ((n <=? size b) && negb (used b)) eqn:E.
    + apply andb_true_iff in E. destruct E as [E1 E2].
      apply Z.leb_le in E1. apply negb_true_iff in E2.
      right. exists [], b, t. simpl. replace (a + 0) with a by lia.
      repeat split; auto; intros c [].
    + assert (Hb : used b = true \/ size b < n).
      { apply andb_false_iff in E. destruct E as [E | E].
        - right. apply Z.leb_gt in E. exact E.
        - left. apply negb_false_iff in E. exact E. }
      destruct H as (_ & _ & _ & Htl).
      replace (a + (footprint b + span t)) with (a + footprint b + span t) by lia.
      destruct (IH f (a + footprint b) Htl ltac:(lia) ltac:(lia) ltac:(lia))
        as [[Hfind Hno] | (l1 & c & l2 & -> & Hc1 & Hc2 & Hpre & Hfind)].
      * left. split; [exact Hfind |]. intros c [<- | Hc]; auto.
      * right. exists (b :: l1), c, l2. cbn [app span].
        replace (a + (footprint b + span l1)) with (a + footprint b + span l1) by lia.
        repeat split; auto. intros d [<- | Hd]; auto.
Qed.

(** The segment walk over a tiled range visits the header addresses. *)
Lemma blocks_on_tiles (m : memory) (l : list block) :
  forall (fuel : nat) (a : Z) (l' : list Z),
    tiles m a l -> 0 < a -> a + span l < 2 ^ 64 ->
    Implicit.blocks fuel m (a + span l) a = Some l' -> l' = addresses a l.
Proof.
  induction l as [| b t IH]; intros fuel a l' H Ha He Hb.
  - destruct fuel as [| f]; [discriminate |].
    cbn [Implicit.blocks span] in Hb. replace (a + 0) with a in Hb by lia.
    rewrite Z.ltb_irrefl in Hb. injection Hb as <-. reflexivity.
  - destruct fuel as [| f]; [discriminate |].
    destruct (tiles_head _ _ _ _ H) as (Hs & Hu & H8 & Hm & Ht).
    pose proof (next_block_tiles _ _ _ _ H ltac:(lia) He) as Hn.
    cbn [Implicit.blocks] in Hb. cbn [span] in *.
    assert (Hfp : footprint b = 8 + size b) by reflexivity.
    replace (a <? a + (footprint b + span t)) with true in Hb
      by (symmetry; apply Z.ltb_lt; lia).
    unfold next_block in Hb. rewrite Hn in Hb.
    destruct (Implicit.blocks f m (a + (footprint b + span t)) (a + footprint b))
      as [r |] eqn:Er; [| discriminate].
    injection Hb as <-. cbn [addresses]. f_equal.
    destruct H as (_ & _ & _ & Htl).
    apply (IH f _ _ Htl); [lia | lia |].
    replace (a + footprint b + span t) with (a + (footprint b + span t)) by lia.
    exact Er.
Qed.

Lemma in_addresses (l : list block) :
  forall (a h : Z),
    In h (addresses a l) -> exists l1 b l2, l = l1 ++ b :: l2 /\ h = a + span l1.
Proof.
  induction l as [| b t IH]; intros a h Hin; [destruct Hin |].
  destruct Hin as [<- | Hin].
  - exists [], b, t. simpl. split; [reflexivity | lia].
  - destruct (IH _ _ Hin) as (l1 & c & l2 & -> & ->).
    exists (b :: l1), c, l2. cbn [app span]. split; [reflexivity | lia].
Qed.

(** A pointer the segment shows as allocated is a live block of the
    layout. *)
Lemma allocated_live (st : Implicit.state) (l : list block) (p : Z) :
  wf st l -> allocated st p -> live (Implicit.segment_start st) l p.
Proof.
  intros (H0 & He & Hlt & _ & Hsp & Ht & _) (Hp & Hm & fuel & l' & Hb & Hin).
  rewrite He, <- Hsp in Hb.
  rewrite (blocks_on_tiles _ _ _ _ _ Ht H0 ltac:(lia) Hb) in Hin.
  destruct (in_addresses _ _ _ Hin) as (l1 & b & l2 & -> & Hh).
  destruct (tiles_at _ _ _ _ _ Ht) as (_ & _ & Hu & _ & _ & H1 & _).
  rewrite <- Hh, Hm in Hu.
  exists l1, b, l2. split; [reflexivity | split; [auto |]].
  unfold get_header in Hh. change HEADER_SIZE with 8 in *.
  unfold wsub, wrap in Hh.
  destruct (Z_lt_le_dec p 8) as [Hlo | Hhi].
  - exfalso. rewrite span_app in Hsp. cbn [span] in Hsp. unfold footprint in Hsp.
    replace (p - 8) with (p - 8 + 2 ^ 64 + (-1) * 2 ^ 64) in Hh by lia.
    rewrite Z.mod_add, Z.mod_small in Hh by lia.
    destruct (tiles_at _ _ _ _ _ Ht) as (_ & _ & _ & ? & _ & _ & ?).
    change HEADER_SIZE with 8 in *. lia.
  - rewrite Z.mod_small in Hh by lia. lia.
Qed.

(** ** Allocation in a well-formed implicit heap *)

Lemma roundup8_bounds (r : Z) :
  0 < r -> r + 7 < 2 ^ 64 ->
  r <= roundup r ALIGNMENT < r + 8 /\ 8 <= roundup r ALIGNMENT /\
  roundup r ALIGNMENT mod 8 = 0.
Proof.
  intros H0 H1. rewrite roundup8 by lia.
  pose proof (Z_div_mod_eq_full (r + 7) 8).
  pose proof (Z.mod_pos_bound (r + 7) 8 ltac:(lia)).
  split; [lia | split; [lia |]].
  rewrite Z.mul_comm. apply Z.mod_mul. lia.
Qed.

Ltac implicit_simpl :=
  cbn [Implicit.mem Implicit.with_mem Implicit.with_counts Implicit.with_nused
       Implicit.nused Implicit.num_freeblocks Implicit.num_usedblocks
       Implicit.segment_start Implicit.segment_end Implicit.segment_size].

Lemma mymalloc_on_heap
      (MAX_REQUEST_SIZE : Z) (fuel : nat) (st : Implicit.state)
      (l : list block) (R : Z) :
  wf st l -> MAX_REQUEST_SIZE + 7 < 2 ^ 64 -> 0 <= R -> (length l < fuel)%nat ->
  Implicit.mymalloc MAX_REQUEST_SIZE fuel st R = Some (NULL, st) \/
  exists l1 b l2 st',
    l = l1 ++ b :: l2 /\ used b = false /\
    0 < R <= roundup R ALIGNMENT /\ roundup R ALIGNMENT <= size b /\
    (forall c, In c l1 -> used c = true \/ size c < roundup R ALIGNMENT) /\
    Implicit.mymalloc MAX_REQUEST_SIZE fuel st R
    = Some (Implicit.segment_start st + span l1 + HEADER_SIZE, st') /\
    wf st' (l1 ++ allocate_in (roundup R ALIGNMENT) b ++ l2) /\
    (forall x, x < Implicit.segment_start st + span l1 \/
               Implicit.segment_start st + span l1 + footprint b <= x ->
               Implicit.mem st' x = Implicit.mem st x) /\
    Implicit.segment_start st' = Implicit.segment_start st /\
    Implicit.segment_size st' = Implicit.segment_size st.
Proof.
  intros (H0 & He & Hlt & Hsmall & Hsp & Ht & Hnu & Hcu & Hcf) Hmax HR Hfuel.
  unfold Implicit.mymalloc.
  destruct ((MAX_REQUEST_SIZE <? R) || (R =? 0)) eqn:E1; [left; reflexivity |].
  apply orb_false_iff in E1. destruct E1 as [E1 E2].
  apply Z.ltb_ge in E1. apply Z.eqb_neq in E2.
  destruct (roundup8_bounds R ltac:(lia) ltac:(lia)) as (Hn1 & Hn2 & Hn3).
  set (n := roundup R ALIGNMENT) in *.
  destruct (Implicit.segment_size st <? wadd n (Implicit.nused st));
    [left; reflexivity |].
  replace (Implicit.segment_end st) with (Implicit.segment_start st + span l) by lia.
  destruct (find_on_tiles (Implicit.mem st) n l fuel _ Ht H0 ltac:(lia) Hfuel)
    as [[Hfind _] | (l1 & b & l2 & -> & Hb1 & Hb2 & Hpre & Hfind)];
    rewrite Hfind; [left; reflexivity |].
  right.
  destruct (tiles_at _ _ _ _ _ Ht) as (Hh & Hs & Hu & Hs8 & Hsm & Hp1 & Hp2).
  destruct (tiles_bounds _ _ _ Ht) as (Hlen & Hub & Hc1 & Hc2 & Hc3).
  rewrite span_app in *. cbn [span] in *. unfold footprint in *.
  change HEADER_SIZE with 8 in *. change MALLOC with 1 in *.
  set (r := Implicit.segment_start st + span l1) in *.
  unfold header_word in Hh. rewrite Hb1 in Hh. change MALLOC with 1 in Hh.
  replace (r =? NULL) with false by (symmetry; apply Z.eqb_neq; unfold NULL; lia).
  rewrite (wadd_small r 8) by lia.
  rewrite used_bytes_app, count_used_app, count_free_app in *.
  cbn [used_bytes count_used count_free] in *. rewrite Hb1 in *.
  assert (Hlen' : Z.of_nat (length (l1 ++ b :: l2)) <= 2 ^ 30).
  { assert (2 ^ 34 = 16 * 2 ^ 30) by reflexivity. lia. }
  exists l1, b, l2. eexists.
  split; [reflexivity |]. split; [exact Hb1 |].
  split; [lia |]. split; [exact Hb2 |]. split; [exact Hpre |].
  split; [reflexivity |].
  unfold Implicit.split_block, allocate_in. rewrite Hs.
  change (HEADER_SIZE + ALIGNMENT) with 16. change HEADER_SIZE with 8.
  rewrite (wsub_small (size b) n) by lia.
  destruct (16 <=? size b - n) eqn:E.
  - apply Z.leb_le in E.
    implicit_simpl.
    rewrite (wadd_small n 8), (wadd_small r (n + 8)), (wsub_small (size b) (n + 8)) by lia.
    rewrite load64_store64_same, (wrap_small n), (wadd_small n 1) by lia.
    rewrite get_size_store by lia.
    destruct (div8_exact_succ n Hn3) as [Hd _]. rewrite Hd.
    rewrite (wadd_small n 8), wadd_small by lia.
    split; [| split; [| split; reflexivity]].
    + unfold wf.
      implicit_simpl.
      rewrite span_app, used_bytes_app, count_used_app, count_free_app.
      rewrite span_app, used_bytes_app, count_used_app, count_free_app.
      cbn [span used_bytes count_used count_free used size footprint].
      unfold footprint. cbn [size]. change HEADER_SIZE with 8.
      split; [exact H0 |]. split; [exact He |]. split; [exact Hlt |].
      split; [exact Hsmall |]. split; [lia |].
      split; [| split; [lia | split]].
      * apply (tiles_replace (Implicit.mem st) _ _ l1 [b]); [exact Ht | | |].
        -- cbn [span]. unfold footprint. cbn [size]. change HEADER_SIZE with 8. lia.
        -- fold r. cbn [tiles]. unfold header_word, footprint. cbn [size used].
           change MALLOC with 1. change ALIGNMENT with 8. change HEADER_SIZE with 8.
           split; [rewrite load64_store64_same; apply wrap_small; lia |].
           split; [lia |]. split; [exact Hn3 |].
           split; [| split; [lia | split; [| exact I]]].
           ++ replace (r + (8 + n)) with (r + (n + 8)) by lia.
              rewrite !load64_store64_apart by (unfold apart; lia).
              rewrite load64_store64_same. rewrite wrap_small; lia.
           ++ apply remainder_mod8; assumption.
        -- fold r. cbn [span]. unfold footprint. change HEADER_SIZE with 8.
           intros x Hx. rewrite !store64_outside by lia. reflexivity.
      * rewrite Hcu. unfold incr. rewrite wrap_int_small; lia.
      * rewrite Hcf. unfold incr, decr.
        rewrite (wrap_int_small (_ + 1)) by lia. rewrite wrap_int_small; lia.
    + fold r. intros x Hx. rewrite !store64_outside by lia. reflexivity.
  - apply Z.leb_gt in E.
    implicit_simpl.
    rewrite Hh. replace (size b + 0) with (size b) by lia.
    rewrite (wadd_small (size b) 1) by lia.
    rewrite get_size_store by lia.
    destruct (div8_exact_succ (size b) Hsm) as [Hd _]. rewrite Hd.
    rewrite (wadd_small (size b) 8), wadd_small by lia.
    split; [| split; [| split; reflexivity]].
    + unfold wf.
      implicit_simpl.
      rewrite span_app, used_bytes_app, count_used_app, count_free_app.
      rewrite span_app, used_bytes_app, count_used_app, count_free_app.
      cbn [span used_bytes count_used count_free used size footprint].
      unfold footprint. cbn [size]. change HEADER_SIZE with 8.
      split; [exact H0 |]. split; [exact He |]. split; [exact Hlt |].
      split; [exact Hsmall |]. split; [lia |].
      split; [| split; [lia | split]].
      * apply (tiles_replace (Implicit.mem st) _ _ l1 [b]); [exact Ht | | |].
        -- reflexivity.
        -- fold r. cbn [tiles]. unfold header_word, footprint. cbn [size used].
           change MALLOC with 1. change ALIGNMENT with 8.
           split; [rewrite load64_store64_same; apply wrap_small; lia |].
           split; [lia |]. split; [exact Hsm | exact I].
        -- fold r. cbn [span]. unfold footprint. change HEADER_SIZE with 8.
           intros x Hx. rewrite !store64_outside by lia. reflexivity.
      * rewrite Hcu. unfold incr. rewrite wrap_int_small; lia.
      * rewrite Hcf. unfold decr. rewrite wrap_int_small; lia.
    + fold r. intros x Hx. rewrite !store64_outside by lia. reflexivity.
Qed.

(** ** Freeing and validating in a well-formed implicit heap *)

Lemma myfree_on_heap (st : Implicit.state) (l1 : list block) (b : block)
      (l2 : list block) :
  wf st (l1 ++ b :: l2) -> used b = true ->
  let hdr := Implicit.segment_start st + span l1 in
  let st' := Implicit.myfree st (hdr + HEADER_SIZE) in
  wf st' (l1 ++ mkBlock (size b) false :: l2) /\
  (forall x, x < hdr \/ hdr + HEADER_SIZE <= x ->
             Implicit.mem st' x = Implicit.mem st x) /\
  Implicit.segment_start st' = Implicit.segment_start st /\
  Implicit.segment_size st' = Implicit.segment_size st.
Proof.
  intros (H0 & He & Hlt & Hsmall & Hsp & Ht & Hnu & Hcu & Hcf) Hb hdr st'.
  destruct (tiles_at _ _ _ _ _ Ht) as (Hh & Hs & Hu & Hs8 & Hsm & Hp1 & Hp2).
  destruct (tiles_bounds _ _ _ Ht) as (Hlen & Hub & Hc1 & Hc2 & Hc3).
  pose proof (proj1 (tiles_app _ _ _ _) Ht) as [Ht1 Ht2].
  destruct (tiles_bounds _ _ _ Ht1) as (_ & Hub1 & Hcu1 & Hcf1 & _).
  destruct Ht2 as (_ & _ & _ & Ht2).
  destruct (tiles_bounds _ _ _ Ht2) as (_ & Hub2 & Hcu2 & Hcf2 & _).
  rewrite span_app, used_bytes_app, count_used_app, count_free_app in *.
  cbn [span used_bytes count_used count_free] in *. unfold footprint in *.
  rewrite Hb in *. fold hdr in Hh, Hs, Hu.
  unfold header_word in Hh. rewrite Hb in Hh.
  change HEADER_SIZE with 8 in *. change MALLOC with 1 in *.
  assert (Hlen' : Z.of_nat (length (l1 ++ b :: l2)) <= 2 ^ 30).
  { assert (2 ^ 34 = 16 * 2 ^ 30) by reflexivity. lia. }
  subst st'. unfold Implicit.myfree.
  replace (hdr + 8 =? NULL) with false
    by (symmetry; apply Z.eqb_neq; unfold NULL, hdr; lia).
  assert (Hgh : get_header (hdr + 8) = hdr).
  { unfold get_header. change HEADER_SIZE with 8. rewrite wsub_small; unfold hdr; lia. }
  rewrite Hgh. change MALLOC with 1. rewrite Hh.
  rewrite (wsub_small (size b + 1) 1) by lia.
  replace (size b + 1 - 1) with (size b) by lia.
  implicit_simpl.
  rewrite get_size_store, div8_exact by (try exact Hsm; lia).
  change HEADER_SIZE with 8.
  rewrite (wadd_small (size b) 8), wsub_small by lia.
  split; [| split; [| split; reflexivity]].
  - unfold wf. implicit_simpl.
    rewrite span_app, used_bytes_app, count_used_app, count_free_app.
    cbn [span used_bytes count_used count_free used size].
    unfold footprint. cbn [size]. change HEADER_SIZE with 8.
    split; [exact H0 |]. split; [exact He |]. split; [exact Hlt |].
    split; [exact Hsmall |]. split; [lia |].
    split; [| split; [lia | split]].
    + apply (tiles_replace (Implicit.mem st) _ _ l1 [b] [mkBlock (size b) false]);
        [exact Ht | reflexivity | |].
      * fold hdr. cbn [tiles]. unfold header_word. cbn [size used].
        change ALIGNMENT with 8.
        split; [rewrite load64_store64_same; rewrite wrap_small; lia |].
        split; [lia |]. split; [exact Hsm | exact I].
      * fold hdr. cbn [span]. unfold footprint. change HEADER_SIZE with 8.
        intros x Hx. rewrite store64_outside by lia. reflexivity.
    + rewrite Hcu. unfold decr. rewrite wrap_int_small; lia.
    + rewrite Hcf. unfold incr. rewrite wrap_int_small; lia.
  - intros x Hx. rewrite store64_outside by lia. reflexivity.
Qed.

Lemma validate_walk_on_tiles (st : Implicit.state) (l : list block) :
  forall (fuel : nat) (a f u : Z),
    tiles (Implicit.mem st) a l -> 0 < a ->
    a + span l = Implicit.segment_end st -> Implicit.segment_end st < 2 ^ 64 ->
    Implicit.nused st <= Implicit.segment_size st ->
    (length l < fuel)%nat ->
    0 <= f -> 0 <= u -> f + u + Z.of_nat (length l) < 2 ^ 31 ->
    Implicit.validate_walk fuel st a f u
    = Some (Some (f + count_free l, u + count_used l)).
Proof.
  induction l as [| b t IH]; intros fuel a f u Ht Ha He Hlt Hnu Hfuel Hf Hu Hsum.
  - destruct fuel as [| k]; [inversion Hfuel |].
    cbn [Implicit.validate_walk span count_free count_used] in *.
    replace (a <? Implicit.segment_end st) with false
      by (symmetry; apply Z.ltb_ge; lia).
    do 3 f_equal; lia.
  - destruct fuel as [| k]; [inversion Hfuel |]. cbn [length] in Hfuel.
    destruct (tiles_head _ _ _ _ Ht) as (Hs & Hm & H8 & Hm8 & Hsp).
    pose proof (next_block_tiles _ _ _ _ Ht ltac:(lia) ltac:(lia)) as Hn.
    cbn [Implicit.validate_walk]. cbn [span length] in *.
    assert (Hfp : footprint b = 8 + size b) by reflexivity.
    replace (a <? Implicit.segment_end st) with true
      by (symmetry; apply Z.ltb_lt; lia).
    replace (Implicit.segment_size st <? Implicit.nused st) with false
      by (symmetry; apply Z.ltb_ge; lia).
    rewrite Hs, Hm. change ALIGNMENT with 8.
    replace (size b <? 8) with false by (symmetry; apply Z.ltb_ge; lia).
    replace (wadd a (wadd (size b) HEADER_SIZE)) with (a + footprint b).
    2:{ rewrite wadd_wadd_r. change HEADER_SIZE with 8 in *.
        rewrite wrap_small; lia. }
    destruct Ht as (_ & _ & _ & Htl).
    rewrite Nat2Z.inj_succ in Hsum.
    cbn [count_free count_used].
    destruct (used b).
    + rewrite (IH k); try assumption; try lia.
      * unfold incr. rewrite wrap_int_small by lia. do 3 f_equal; lia.
      * unfold incr. rewrite wrap_int_small; lia.
      * unfold incr. rewrite wrap_int_small; lia.
    + rewrite (IH k); try assumption; try lia.
      * unfold incr. rewrite wrap_int_small by lia. do 3 f_equal; lia.
      * unfold incr. rewrite wrap_int_small; lia.
      * unfold incr. rewrite wrap_int_small; lia.
Qed.

Lemma validate_on_heap (st : Implicit.state) (l : list block) (fuel : nat) :
  wf st l -> (length l < fuel)%nat ->
  Implicit.validate_heap fuel st = Some true.
Proof.
  intros (H0 & He & Hlt & Hsmall & Hsp & Ht & Hnu & Hcu & Hcf) Hfuel.
  destruct (tiles_bounds _ _ _ Ht) as (Hlen & Hub & Hc1 & Hc2 & Hc3).
  assert (Hlen' : Z.of_nat (length l) <= 2 ^ 30).
  { assert (2 ^ 34 = 16 * 2 ^ 30) by reflexivity. lia. }
  unfold Implicit.validate_heap.
  rewrite (validate_walk_on_tiles st l fuel _ 0 0 Ht); try lia.
  rewrite Hcu, Hcf. cbn [Z.add]. rewrite !Z.eqb_refl. reflexivity.
Qed.

(** ** Reallocation in a well-formed implicit heap *)

Lemma tiles_spans (m : memory) (a : Z) (x y : list block) :
  tiles m a (x ++ y) -> 0 <= span x /\ 0 <= span y.
Proof.
  intros H. apply tiles_app in H. destruct H as [H1 H2].
  destruct (tiles_bounds _ _ _ H1). destruct (tiles_bounds _ _ _ H2). lia.
Qed.

(** A block that keeps its place when another run of the list is replaced
    by one of the same span. *)
Lemma relocate (m : memory) (a : Z) (l1 l2 k1 k2 mid' : list block) (b c : block) :
  tiles m a (l1 ++ b :: l2) ->
  l1 ++ b :: l2 = k1 ++ c :: k2 ->
  span l1 <> span k1 ->
  span mid' = footprint c ->
  exists j1 j2,
    k1 ++ mid' ++ k2 = j1 ++ b :: j2 /\ span j1 = span l1 /\
    (span l1 + footprint b <= span k1 \/ span k1 + footprint c <= span l1).
Proof.
  intros Ht Heq Hne Hsp.
  destruct (app_eq_app _ _ _ _ Heq) as [t [[H1 H2] | [H1 H2]]].
  - destruct t as [| c' t'].
    + rewrite app_nil_r in H1. subst l1. contradiction.
    + simpl in H2. injection H2 as <- ->. subst l1.
      exists (k1 ++ mid' ++ t'), l2.
      rewrite <- app_assoc in Ht.
      destruct (tiles_spans _ _ _ _ Ht) as [_ Ht2]. cbn [app span] in Ht2.
      destruct (tiles_spans m (a + span k1 + footprint c) t' (b :: l2)) as [Ht3 _].
      { apply tiles_app in Ht. destruct Ht as [_ (_ & _ & _ & Ht)].
        replace (a + span k1 + footprint c) with (a + span k1 + footprint c) by lia.
        exact Ht. }
      split; [rewrite <- !app_assoc; reflexivity |].
      rewrite !span_app. cbn [span]. split; lia.
  - destruct t as [| b' t'].
    + rewrite app_nil_r in H1. subst k1. contradiction.
    + simpl in H2. injection H2 as <- ->. subst k1.
      exists l1, (t' ++ mid' ++ k2).
      destruct (tiles_spans m (a + span l1 + footprint b) t' (c :: k2)) as [Ht3 _].
      { apply tiles_app in Ht. destruct Ht as [_ (_ & _ & _ & Ht)]. exact Ht. }
      split; [rewrite <- !app_assoc; reflexivity |].
      rewrite !span_app. cbn [span]. split; lia.
Qed.

Lemma allocate_in_head (n : Z) (c : block) :
  n <= size c -> 0 <= n ->
  exists first rest,
    allocate_in n c = first :: rest /\ used first = true /\
    n <= size first /\ span (allocate_in n c) = footprint c /\
    0 <= span rest.
Proof.
  intros H H0. unfold allocate_in. change (HEADER_SIZE + ALIGNMENT) with 16.
  destruct (16 <=? size c - n) eqn:E.
  - apply Z.leb_le in E. eexists _, _. split; [reflexivity |].
    cbn [used size span]. unfold footprint. cbn [size].
    change HEADER_SIZE with 8. repeat split; lia.
  - eexists _, _. split; [reflexivity |].
    cbn [used size span]. unfold footprint. cbn [size]. repeat split; lia.
Qed.

(** Writing inside the payload of one block leaves the layout alone. *)
Lemma tiles_payload_write (m m' : memory) (a : Z) (l1 : list block) (b : block)
      (l2 : list block) :
  tiles m a (l1 ++ b :: l2) ->
  (forall x, x < a + span l1 + HEADER_SIZE \/
             a + span l1 + footprint b <= x -> m' x = m x) ->
  tiles m' a (l1 ++ b :: l2).
Proof.
  intros Ht Hout.
  destruct (tiles_at _ _ _ _ _ Ht) as (Hh & _ & _ & H8 & Hm & H1 & H2).
  change HEADER_SIZE with 8 in Hout. unfold footprint in Hout.
  change HEADER_SIZE with 8 in Hout.
  apply (tiles_replace m m' a l1 [b] [b] l2); [exact Ht | reflexivity | |].
  - cbn [tiles]. change ALIGNMENT with 8.
    split; [| split; [lia | split; [exact Hm | exact I]]].
    rewrite <- Hh. apply load64_ext. intros x Hx. apply Hout. lia.
  - cbn [span]. unfold footprint. change HEADER_SIZE with 8.
    intros x Hx. apply Hout. lia.
Qed.

Lemma myrealloc_on_heap
      (MAX_REQUEST_SIZE : Z) (fuel : nat) (st : Implicit.state)
      (l1 : list block) (b : block) (l2 : list block) (R : Z) :
  wf st (l1 ++ b :: l2) -> used b = true ->
  MAX_REQUEST_SIZE + 7 < 2 ^ 64 -> 0 < R ->
  (length (l1 ++ b :: l2) < fuel)%nat ->
  let old := Implicit.segment_start st + span l1 + HEADER_SIZE in
  Implicit.myrealloc MAX_REQUEST_SIZE fuel st old R = Some (NULL, st) \/
  exists p st' l',
    Implicit.myrealloc MAX_REQUEST_SIZE fuel st old R = Some (p, st') /\
    wf st' l' /\
    live (Implicit.segment_start st) l' p /\
    p <> old /\
    (forall i, 0 <= i < Z.min R (size b) ->
               Implicit.mem st' (p + i) = Implicit.mem st (old + i)) /\
    Implicit.segment_start st' = Implicit.segment_start st /\
    Implicit.segment_size st' = Implicit.segment_size st.
Proof.
  intros Hwf Hb Hmax HR Hfuel old.
  pose proof Hwf as (H0 & He & Hlt & Hsmall & Hsp & Ht & Hnu & Hcu & Hcf).
  destruct (tiles_at _ _ _ _ _ Ht) as (_ & _ & Hub & Hb8 & _ & Hl1 & Hl2).
  rewrite span_app in Hsp. cbn [span] in Hsp. unfold footprint in Hsp.
  change HEADER_SIZE with 8 in *.
  unfold Implicit.myrealloc.
  replace (old =? NULL) with false
    by (symmetry; apply Z.eqb_neq; unfold NULL, old; lia).
  replace (R =? 0) with false by (symmetry; apply Z.eqb_neq; lia).
  destruct (mymalloc_on_heap MAX_REQUEST_SIZE fuel st _ R Hwf Hmax ltac:(lia) Hfuel)
    as [Hm | (k1 & c & k2 & st1 & Heq & Hc & HRn & Hnc & _ & Hm & Hwf1 & Hfr1 & Hs1 & Hz1)];
    rewrite Hm; [left; reflexivity | right].
  set (n := roundup R ALIGNMENT) in *. change HEADER_SIZE with 8 in *.
  set (start := Implicit.segment_start st) in *.
  assert (Hk : 0 <= span k1 /\ 0 <= span k2 /\ 8 <= size c).
  { rewrite Heq in Ht. destruct (tiles_at _ _ _ _ _ Ht) as (_ & _ & _ & ? & _ & ? & ?).
    lia. }
  destruct Hk as (Hk1 & Hk2 & Hc8).
  replace (start + span k1 + 8 =? NULL) with false
    by (symmetry; apply Z.eqb_neq; unfold NULL; lia).
  assert (Hpos : span l1 <> span k1).
  { intros Hbad. pose proof Ht as Ht'. rewrite Heq in Ht'.
    destruct (tiles_at _ _ _ _ _ Ht) as (_ & _ & Hu1 & _).
    destruct (tiles_at _ _ _ _ _ Ht') as (_ & _ & Hu2 & _).
    rewrite Hbad in Hu1. congruence. }
  destruct (allocate_in_head n c Hnc ltac:(lia))
    as (first & rest & Hal & Hfu & Hfs & Hspan & Hrest).
  destruct (relocate _ _ _ _ _ _ (allocate_in n c) _ _ Ht Heq Hpos Hspan)
    as (j1 & j2 & Hj & Hjs & Hdis).
  pose proof Hwf1 as (_ & He1 & Hlt1 & Hsmall1 & Hsp1 & Ht1 & Hnu1 & Hcu1 & Hcf1).
  rewrite Hs1 in Ht1. fold start in Ht1.
  (* the old block in the new layout *)
  assert (Hold : get_header old = start + span l1).
  { unfold get_header, old. change HEADER_SIZE with 8. rewrite wsub_small; lia. }
  assert (Hosz : get_size (Implicit.mem st1) (get_header old) = size b).
  { rewrite Hold, <- Hjs. rewrite Hj in Ht1.
    destruct (tiles_at _ _ _ _ _ Ht1) as (_ & Hs & _). exact Hs. }
  rewrite Hosz.
  set (k := if R <? size b then R else size b).
  assert (Hkk : k = Z.min R (size b)).
  { unfold k. destruct (R <? size b) eqn:E;
      [apply Z.ltb_lt in E | apply Z.ltb_ge in E]; lia. }
  set (p := start + span k1 + 8) in *.
  set (m2 := memcpy (Implicit.mem st1) p old k).
  set (st2 := Implicit.with_mem st1 m2).
  assert (Hm2 : forall x, x < p \/ p + k <= x -> m2 x = Implicit.mem st1 x).
  { intros x Hx. unfold m2, memcpy.
    destruct (p <=? x) eqn:E1; destruct (x <? p + k) eqn:E2; simpl; try reflexivity.
    apply Z.leb_le in E1. apply Z.ltb_lt in E2. lia. }
  assert (Hwf2 : wf st2 (j1 ++ b :: j2)).
  { unfold wf, st2. implicit_simpl. rewrite <- Hj.
    split; [rewrite Hs1; exact H0 |]. split; [exact He1 |]. split; [exact Hlt1 |].
    split; [exact Hsmall1 |]. split; [exact Hsp1 |].
    split; [| split; [exact Hnu1 | split; [exact Hcu1 | exact Hcf1]]].
    rewrite Hs1. fold start. rewrite Hal in *. cbn [app] in *.
    apply (tiles_payload_write (Implicit.mem st1)); [exact Ht1 |].
    intros x Hx. apply Hm2. unfold p, footprint in *.
    change HEADER_SIZE with 8 in *. lia. }
  assert (Hst2 : Implicit.segment_start st2 = start) by (unfold st2; implicit_simpl; exact Hs1).
  destruct (myfree_on_heap st2 j1 b j2 Hwf2 Hb) as (Hwf3 & Hfr3 & Hs3 & Hz3).
  rewrite Hst2, Hjs in Hwf3, Hfr3, Hs3, Hz3. change HEADER_SIZE with 8 in *.
  fold old in Hwf3, Hfr3, Hs3, Hz3.
  exists p, (Implicit.myfree st2 old), (j1 ++ mkBlock (size b) false :: j2).
  split; [reflexivity |]. split; [exact Hwf3 |].
  split; [| split; [| split; [| split]]].
  - (* the new block is live *)
    rewrite Hal in Hj. cbn [app] in Hj.
    assert (Ht1' : tiles (Implicit.mem st1) start (k1 ++ first :: rest ++ k2))
      by (rewrite Hal in Ht1; exact Ht1).
    assert (Hne : span k1 <> span j1) by lia.
    assert (Hfb : span [mkBlock (size b) false] = footprint b)
      by (cbn [span]; unfold footprint; cbn [size]; lia).
    destruct (relocate _ _ _ _ _ _ [mkBlock (size b) false] _ _ Ht1' Hj Hne Hfb)
      as (i1 & i2 & Hi & His & _).
    exists i1, first, i2. cbn [app] in Hi. rewrite Hi.
    split; [reflexivity | split; [exact Hfu |]].
    unfold p. rewrite His. reflexivity.
  - unfold p, old. unfold footprint in Hdis. lia.
  - intros i Hi. rewrite Hfr3.
    + unfold st2. implicit_simpl. unfold m2, memcpy.
      replace ((p <=? p + i) && (p + i <? p + k)) with true
        by (symmetry; apply andb_true_iff; split;
            [apply Z.leb_le | apply Z.ltb_lt]; lia).
      replace (p + i - p) with i by lia.
      apply Hfr1. fold start. unfold old, footprint in *.
      change HEADER_SIZE with 8 in *. lia.
    + unfold p, old, footprint in *. change HEADER_SIZE with 8 in *. lia.
  - exact Hs3.
  - rewrite Hz3. unfold st2. implicit_simpl. exact Hz1.
Qed.

(** ** Reachable states of the implicit allocator *)

Lemma myinit_on_heap (st0 : Implicit.state) (base heap_size : Z) :
  0 < base -> base + heap_size < 2 ^ 64 ->
  heap_size mod 8 = 0 -> heap_size <= 2 ^ 34 ->
  fst (Implicit.myinit st0 base heap_size) = true ->
  wf (snd (Implicit.myinit st0 base heap_size))
     [mkBlock (heap_size - HEADER_SIZE) false].
Proof.
  intros Hb Hfit H8 Hsmall Hok. unfold Implicit.myinit in *.
  change (HEADER_SIZE + ALIGNMENT) with 16 in *.
  destruct (heap_size <? 16) eqn:E; [discriminate |].
  apply Z.ltb_ge in E. cbn [snd]. change HEADER_SIZE with 8.
  unfold wf. implicit_simpl. cbn [span tiles used_bytes count_used count_free used size].
  unfold footprint, header_word. cbn [size used]. change HEADER_SIZE with 8.
  change ALIGNMENT with 8.
  rewrite (wsub_small heap_size 8), (wadd_small base heap_size) by lia.
  rewrite load64_store64_same, wrap_small by lia.
  repeat split; try lia.
  replace (heap_size - 8) with (heap_size - 0 - 8) by lia.
  apply remainder_mod8; [exact H8 | reflexivity].
Qed.

Lemma heap_fuel (st : Implicit.state) (l : list block) (fuel : nat) :
  wf st l -> Implicit.segment_size st / 16 < Z.of_nat fuel ->
  (length l < fuel)%nat.
Proof.
  intros (_ & _ & _ & _ & Hsp & Ht & _) Hf.
  destruct (tiles_bounds _ _ _ Ht) as (Hlen & _).
  assert (Z.of_nat (length l) <= Implicit.segment_size st / 16)
    by (apply Z.div_le_lower_bound; lia).
  lia.
Qed.

Lemma reachable_heap (MAX_REQUEST_SIZE : Z) (fuel : nat) (st : Implicit.state) :
  MAX_REQUEST_SIZE + 7 < 2 ^ 64 ->
  reachable MAX_REQUEST_SIZE fuel st ->
  exists l, wf st l /\ Implicit.segment_size st / 16 < Z.of_nat fuel.
Proof.
  intros Hmax Hr.
  induction Hr as [st0 base hs Hb Hfit H8 Hsmall Hfuel Hok
                  | st R p st' _ IH HR Hm
                  | st p _ IH Hp
                  | st old R p st' _ IH Hold HR Hm].
  - eexists. split; [apply myinit_on_heap; assumption |].
    unfold Implicit.myinit in *. destruct (hs <? HEADER_SIZE + ALIGNMENT);
      [discriminate | exact Hfuel].
  - destruct IH as (l & Hwf & Hf).
    destruct (mymalloc_on_heap MAX_REQUEST_SIZE fuel st l R Hwf Hmax HR
                (heap_fuel _ _ _ Hwf Hf))
      as [Hn | (l1 & b & l2 & st1 & _ & _ & _ & _ & _ & Hs & Hwf1 & _ & _ & Hz)].
    + rewrite Hn in Hm. injection Hm as _ <-. exists l. auto.
    + rewrite Hs in Hm. injection Hm as _ <-. eexists. split; [exact Hwf1 |].
      rewrite Hz. exact Hf.
  - destruct IH as (l & Hwf & Hf). destruct Hp as [-> | Hp].
    + exists l. auto.
    + destruct (allocated_live _ _ _ Hwf Hp) as (l1 & b & l2 & -> & Hb & ->).
      destruct (myfree_on_heap st l1 b l2 Hwf Hb) as (Hwf1 & _ & _ & Hz).
      eexists. split; [exact Hwf1 |]. cbv zeta in Hz. rewrite Hz. exact Hf.
  - destruct IH as (l & Hwf & Hf). destruct Hold as [-> | Hold].
    + unfold Implicit.myrealloc in Hm. cbn [Z.eqb NULL] in Hm.
      destruct (mymalloc_on_heap MAX_REQUEST_SIZE fuel st l R Hwf Hmax HR
                  (heap_fuel _ _ _ Hwf Hf))
        as [Hn | (l1 & b & l2 & st1 & _ & _ & _ & _ & _ & Hs & Hwf1 & _ & _ & Hz)].
      * rewrite Hn in Hm. injection Hm as _ <-. exists l. auto.
      * rewrite Hs in Hm. injection Hm as _ <-. eexists. split; [exact Hwf1 |].
        rewrite Hz. exact Hf.
    + destruct (allocated_live _ _ _ Hwf Hold) as (l1 & b & l2 & -> & Hb & ->).
      destruct (Z.eq_dec R 0) as [-> | HR0].
      * unfold Implicit.myrealloc in Hm.
        destruct (_ =? NULL) in Hm.
        -- destruct (mymalloc_on_heap MAX_REQUEST_SIZE fuel st _ 0 Hwf Hmax HR
                       (heap_fuel _ _ _ Hwf Hf))
             as [Hn | (k1 & c & k2 & st1 & _ & _ & HR' & _)]; [| lia].
           rewrite Hn in Hm. injection Hm as _ <-. eexists. eauto.
        -- cbn [Z.eqb] in Hm. injection Hm as _ <-.
           destruct (myfree_on_heap st l1 b l2 Hwf Hb) as (Hwf1 & _ & _ & Hz).
           eexists. split; [exact Hwf1 |]. cbv zeta in Hz. rewrite Hz. exact Hf.
      * destruct (myrealloc_on_heap MAX_REQUEST_SIZE fuel st l1 b l2 R Hwf Hb Hmax
                    ltac:(lia) (heap_fuel _ _ _ Hwf Hf))
          as [Hn | (q & st1 & l' & Hs & Hwf1 & _ & _ & _ & _ & Hz)].
        -- rewrite Hn in Hm. injection Hm as _ <-. eexists. eauto.
        -- rewrite Hs in Hm. injection Hm as _ <-. eexists. split; [exact Hwf1 |].
           rewrite Hz. exact Hf.
Qed.

(** A free block is not counted in the used bytes. *)
Lemma free_block_room (m : memory) (l : list block) :
  forall a b, tiles m a l -> In b l -> used b = false ->
              used_bytes l + footprint b <= span l.
Proof.
  induction l as [| c t IH]; intros a b Ht Hin Hb; [destruct Hin |].
  destruct (tiles_head _ _ _ _ Ht) as (_ & _ & H8 & _ & Hsp).
  destruct Ht as (_ & _ & _ & Htl).
  destruct (tiles_bounds _ _ _ Htl) as (_ & Hub & _).
  cbn [used_bytes span]. unfold footprint in *. change HEADER_SIZE with 8 in *.
  destruct Hin as [-> | Hin].
  - rewrite Hb. lia.
  - pose proof (IH _ _ Htl Hin Hb). destruct (used c); lia.
Qed.

(** ** The implicit allocator on well-formed heaps *)

(** A concrete well-formed heap: [init(base, 1024); malloc(100)]. *)
Lemma one_block_heap :
  wf (ImplicitRun.final ImplicitRun.one_block) [mkBlock 104 true; mkBlock 904 false].
Proof.
  unfold wf. cbn [tiles span used_bytes count_used count_free].
  unfold footprint, header_word. cbn [size used].
  repeat split; vm_compute; try reflexivity; discriminate.
Qed.

Lemma tiles_aligned (m : memory) (l : list block) :
  forall a, tiles m a l -> span l mod 8 = 0.
Proof.
  induction l as [| b t IH]; intros a Ht; [reflexivity |].
  destruct Ht as (_ & _ & H8 & Ht). cbn [span]. unfold footprint.
  change HEADER_SIZE with 8. pose proof (IH _ Ht) as Ht8.
  pose proof (Z_div_mod_eq_full (size b) 8). pose proof (Z_div_mod_eq_full (span t) 8).
  apply Z.mod_divide; [lia |]. exists (1 + size b / 8 + span t / 8). lia.
Qed.

(** X1.  After a successful [myinit] of a non-null segment whose size is a
    multiple of 8 (and at most [2^34], so that the [int] counters cannot
    overflow) the heap is one free block and [validate_heap] accepts it. *)
Theorem implicit_myinit_well_formed (st0 : Implicit.state) (base heap_size : Z) (fuel : nat) :
  0 < base -> base + heap_size < 2 ^ 64 ->
  heap_size mod 8 = 0 -> HEADER_SIZE + ALIGNMENT <= heap_size <= 2 ^ 34 ->
  (1 < fuel)%nat ->
  fst (Implicit.myinit st0 base heap_size) = true /\
  wf (snd (Implicit.myinit st0 base heap_size))
     [mkBlock (heap_size - HEADER_SIZE) false] /\
  Implicit.validate_heap fuel (snd (Implicit.myinit st0 base heap_size)) = Some true.
Proof.
  intros Hb Hfit H8 Hs Hf.
  assert (Hok : fst (Implicit.myinit st0 base heap_size) = true).
  { unfold Implicit.myinit. destruct (heap_size <? HEADER_SIZE + ALIGNMENT) eqn:E;
      [apply Z.ltb_lt in E; lia | reflexivity]. }
  pose proof (myinit_on_heap st0 base heap_size Hb Hfit H8 ltac:(lia) Hok) as Hwf.
  split; [exact Hok | split; [exact Hwf |]].
  apply (validate_on_heap _ _ _ Hwf). simpl. lia.
Qed.

Lemma implicit_myinit_well_formed_witness :
  Implicit.validate_heap run_fuel (snd (Implicit.myinit Implicit.blank 4096 1024))
  = Some true.
Proof.
  apply (implicit_myinit_well_formed Implicit.blank 4096 1024 run_fuel);
    try (vm_compute; congruence); try reflexivity; try lia.
  - split; vm_compute; congruence.
  - unfold run_fuel. lia.
Defined.

(** X2.  On a well-formed heap, with more fuel than blocks, [mymalloc]
    returns: either [NULL] with the state untouched, or the payload address
    of the first free block [b] of payload at least the rounded request, and
    then the state describes the heap in which [b] is replaced by an
    allocated block (and a free remainder when the split threshold is
    met). *)
Theorem implicit_mymalloc_preserves_heap
        (MAX_REQUEST_SIZE : Z) (fuel : nat) (st : Implicit.state)
        (l : list block) (R : Z) :
  wf st l -> MAX_REQUEST_SIZE + 7 < 2 ^ 64 -> 0 <= R -> (length l < fuel)%nat ->
  exists p st',
    Implicit.mymalloc MAX_REQUEST_SIZE fuel st R = Some (p, st') /\
    ((p = NULL /\ st' = st) \/
     exists l1 b l2,
       l = l1 ++ b :: l2 /\ used b = false /\
       roundup R ALIGNMENT <= size b /\
       (forall c, In c l1 -> used c = true \/ size c < roundup R ALIGNMENT) /\
       p = Implicit.segment_start st + span l1 + HEADER_SIZE /\
       wf st' (l1 ++ allocate_in (roundup R ALIGNMENT) b ++ l2)).
Proof.
  intros Hwf Hmax HR Hf.
  destruct (mymalloc_on_heap MAX_REQUEST_SIZE fuel st l R Hwf Hmax HR Hf)
    as [Hn | (l1 & b & l2 & st1 & Hl & Hb & _ & Hnb & Hpre & Hs & Hwf1 & _)].
  - exists NULL, st. split; [exact Hn | left; split; reflexivity].
  - eexists _, st1. split; [exact Hs |]. right. exists l1, b, l2.
    split; [exact Hl |]. split; [exact Hb |]. split; [exact Hnb |].
    split; [exact Hpre |]. split; [reflexivity | exact Hwf1].
Qed.

Lemma implicit_mymalloc_preserves_heap_witness :
  exists p st',
    Implicit.mymalloc run_limit run_fuel
      (ImplicitRun.final ImplicitRun.one_block) 200 = Some (p, st') /\
    ((p = NULL /\ st' = ImplicitRun.final ImplicitRun.one_block) \/
     exists l1 b l2,
       [mkBlock 104 true; mkBlock 904 false] = l1 ++ b :: l2 /\ used b = false /\
       roundup 200 ALIGNMENT <= size b /\
       (forall c, In c l1 -> used c = true \/ size c < roundup 200 ALIGNMENT) /\
       p = Implicit.segment_start (ImplicitRun.final ImplicitRun.one_block)
           + span l1 + HEADER_SIZE /\
       wf st' (l1 ++ allocate_in (roundup 200 ALIGNMENT) b ++ l2)).
Proof.
  apply (implicit_mymalloc_preserves_heap run_limit run_fuel _ _ 200 one_block_heap).
  - vm_compute. reflexivity.
  - lia.
  - unfold run_fuel. simpl. lia.
Defined.

(** X3.  A non-null result of [mymalloc] on a well-formed heap lies inside
    the segment, past the first header, at a multiple of 8 from the segment
    start; the block it heads is marked allocated and its payload, which
    holds at least the requested bytes, ends within the segment. *)
Theorem implicit_mymalloc_in_segment
        (MAX_REQUEST_SIZE : Z) (fuel : nat) (st : Implicit.state)
        (l : list block) (R p : Z) (st' : Implicit.state) :
  wf st l -> MAX_REQUEST_SIZE + 7 < 2 ^ 64 -> 0 <= R -> (length l < fuel)%nat ->
  Implicit.mymalloc MAX_REQUEST_SIZE fuel st R = Some (p, st') ->
  p <> NULL ->
  Implicit.segment_start st + HEADER_SIZE <= p /\
  (p - Implicit.segment_start st) mod 8 = 0 /\
  is_malloc (Implicit.mem st') (get_header p) = true /\
  R <= get_size (Implicit.mem st') (get_header p) /\
  p + get_size (Implicit.mem st') (get_header p) <= Implicit.segment_end st.
Proof.
  intros Hwf Hmax HR Hf Hm Hp.
  destruct (mymalloc_on_heap MAX_REQUEST_SIZE fuel st l R Hwf Hmax HR Hf)
    as [Hn | (l1 & b & l2 & st1 & -> & Hb & HRn & Hnb & _ & Hs & Hwf1 & _ & Hs1 & _)].
  - rewrite Hn in Hm. injection Hm as <- _. contradiction.
  - rewrite Hs in Hm. injection Hm as <- <-.
    destruct Hwf as (H0 & He & Hlt & _ & Hsp & Ht & _).
    destruct (tiles_at _ _ _ _ _ Ht) as (_ & _ & _ & Hb8 & _ & Hl1 & Hl2).
    pose proof (proj1 (tiles_app _ _ _ _) Ht) as [Ht1 _].
    pose proof (tiles_aligned _ _ _ Ht1) as Hal.
    destruct (allocate_in_head (roundup R ALIGNMENT) b Hnb ltac:(lia))
      as (first & rest & Hfr & Hfu & Hfs & Hspan & Hrest).
    destruct Hwf1 as (_ & _ & _ & _ & _ & Ht' & _).
    rewrite Hfr, Hs1 in Ht'. cbn [app] in Ht'.
    destruct (tiles_at _ _ _ _ _ Ht') as (_ & Hgs & Hgm & _).
    rewrite Hfr in Hspan. cbn [span] in Hspan. unfold footprint in Hspan.
    rewrite span_app in Hsp. cbn [span] in Hsp. unfold footprint in Hsp.
    change HEADER_SIZE with 8 in *.
    assert (Hgh : get_header (Implicit.segment_start st + span l1 + 8)
                  = Implicit.segment_start st + span l1).
    { unfold get_header. change HEADER_SIZE with 8. rewrite wsub_small; lia. }
    rewrite Hgh, Hgs, Hgm.
    split; [lia |]. split.
    { replace (Implicit.segment_start st + span l1 + 8 - Implicit.segment_start st)
        with (span l1 + 8) by lia.
      rewrite <- Zplus_mod_idemp_l, Hal. reflexivity. }
    split; [exact Hfu |]. split; lia.
Qed.

Lemma implicit_mymalloc_in_segment_witness :
  exists p st',
    Implicit.mymalloc run_limit run_fuel
      (ImplicitRun.final ImplicitRun.one_block) 200 = Some (p, st') /\
    Implicit.segment_start (ImplicitRun.final ImplicitRun.one_block) + HEADER_SIZE <= p /\
    200 <= get_size (Implicit.mem st') (get_header p).
Proof.
  destruct (Implicit.mymalloc run_limit run_fuel
              (ImplicitRun.final ImplicitRun.one_block) 200) as [[p st'] |] eqn:E.
  - exists p, st'. split; [reflexivity |].
    assert (Hp : p <> NULL).
    { pose proof (f_equal (option_map fst) E) as H. vm_compute in H.
      injection H as H. rewrite <- H. discriminate. }
    assert (H1 : run_limit + 7 < 2 ^ 64) by (vm_compute; reflexivity).
    assert (H2 : 0 <= 200) by lia.
    assert (H3 : (length [mkBlock 104 true; mkBlock 904 false] < run_fuel)%nat)
      by (unfold run_fuel; simpl; lia).
    destruct (implicit_mymalloc_in_segment run_limit run_fuel _ _ 200 p st'
                one_block_heap H1 H2 H3 E Hp) as (Ha & _ & _ & Hb & _).
    split; assumption.
  - pose proof (f_equal (option_map fst) E) as H. vm_compute in H. discriminate H.
Defined.

(** X4.  [mymalloc] on a well-formed heap never writes into an allocated
    block: for every live pointer [q] of the heap, the header word of its
    block and every byte of its payload are the same after the call, and the
    pointer returned is not [q]. *)
Theorem implicit_mymalloc_keeps_live_payloads
        (MAX_REQUEST_SIZE : Z) (fuel : nat) (st : Implicit.state)
        (l1 : list block) (b : block) (l2 : list block)
        (R p : Z) (st' : Implicit.state) :
  wf st (l1 ++ b :: l2) -> used b = true ->
  MAX_REQUEST_SIZE + 7 < 2 ^ 64 -> 0 <= R ->
  (length (l1 ++ b :: l2) < fuel)%nat ->
  Implicit.mymalloc MAX_REQUEST_SIZE fuel st R = Some (p, st') ->
  let q := Implicit.segment_start st + span l1 + HEADER_SIZE in
  p <> q /\
  load64 (Implicit.mem st') (get_header q) = load64 (Implicit.mem st) (get_header q) /\
  (forall i, 0 <= i < size b ->
             Implicit.mem st' (q + i) = Implicit.mem st (q + i)).
Proof.
  intros Hwf Hb Hmax HR Hf Hm q.
  pose proof Hwf as (H0 & He & Hlt & _ & Hsp & Ht & _).
  destruct (tiles_at _ _ _ _ _ Ht) as (_ & _ & Hub & Hb8 & _ & Hl1 & Hl2).
  rewrite span_app in Hsp. cbn [span] in Hsp. unfold footprint in Hsp.
  change HEADER_SIZE with 8 in *.
  destruct (mymalloc_on_heap MAX_REQUEST_SIZE fuel st _ R Hwf Hmax HR Hf)
    as [Hn | (k1 & c & k2 & st1 & Heq & Hc & _ & Hnc & _ & Hs & _ & Hfr & _)].
  - rewrite Hn in Hm. injection Hm as <- <-.
    split; [unfold NULL, q; lia | split; reflexivity].
  - rewrite Hs in Hm. injection Hm as <- <-.
    assert (Hpos : span l1 <> span k1).
    { intros Hbad. pose proof Ht as Ht'. rewrite Heq in Ht'.
      destruct (tiles_at _ _ _ _ _ Ht') as (_ & _ & Hu2 & _).
      rewrite Hbad in Hub. congruence. }
    destruct (relocate _ _ _ _ _ _ [c] _ _ Ht Heq Hpos)
      as (_ & _ & _ & _ & Hdis);
      [cbn [span]; lia |].
    unfold footprint in Hdis, Hfr. change HEADER_SIZE with 8 in *.
    assert (Hgh : get_header q = Implicit.segment_start st + span l1).
    { unfold get_header, q. change HEADER_SIZE with 8. rewrite wsub_small; lia. }
    split; [unfold q; lia |]. split.
    + rewrite Hgh. apply load64_ext. intros x Hx. apply Hfr. lia.
    + intros i Hi. apply Hfr. unfold q. lia.
Qed.

Lemma implicit_mymalloc_keeps_live_payloads_witness :
  exists p st',
    Implicit.mymalloc run_limit run_fuel
      (ImplicitRun.final ImplicitRun.one_block) 200 = Some (p, st') /\
    p <> 4104 /\
    forall i, 0 <= i < 104 ->
              Implicit.mem st' (4104 + i)
              = Implicit.mem (ImplicitRun.final ImplicitRun.one_block) (4104 + i).
Proof.
  destruct (Implicit.mymalloc run_limit run_fuel
              (ImplicitRun.final ImplicitRun.one_block) 200) as [[p st'] |] eqn:E.
  - exists p, st'. split; [reflexivity |].
    assert (H1 : run_limit + 7 < 2 ^ 64) by (vm_compute; reflexivity).
    assert (H2 : 0 <= 200) by lia.
    assert (H3 : (length ([] ++ mkBlock 104 true :: [mkBlock 904 false]) < run_fuel)%nat)
      by (unfold run_fuel; simpl; lia).
    destruct (implicit_mymalloc_keeps_live_payloads run_limit run_fuel _
                [] (mkBlock 104 true) [mkBlock 904 false] 200 p st'
                one_block_heap eq_refl H1 H2 H3 E) as (Ha & _ & Hb).
    split; [exact Ha | exact Hb].
  - pose proof (f_equal (option_map fst) E) as H. vm_compute in H. discriminate H.
Defined.

(** X5.  [myfree] of an allocated pointer of a well-formed heap yields the
    heap in which that one block is free and nothing else has changed: the
    same blocks with the same sizes (no merging), so the heap stays
    well-formed. *)
Theorem implicit_myfree_preserves_heap (st : Implicit.state) (l : list block) (p : Z) :
  wf st l -> allocated st p ->
  exists l1 b l2,
    l = l1 ++ b :: l2 /\ used b = true /\
    p = Implicit.segment_start st + span l1 + HEADER_SIZE /\
    wf (Implicit.myfree st p) (l1 ++ mkBlock (size b) false :: l2).
Proof.
  intros Hwf Hp.
  destruct (allocated_live _ _ _ Hwf Hp) as (l1 & b & l2 & -> & Hb & ->).
  exists l1, b, l2. split; [reflexivity | split; [exact Hb | split; [reflexivity |]]].
  exact (proj1 (myfree_on_heap st l1 b l2 Hwf Hb)).
Qed.

Lemma one_block_allocated :
  allocated (ImplicitRun.final ImplicitRun.one_block) 4104.
Proof.
  split; [lia |]. split; [vm_compute; reflexivity |].
  exists run_fuel, [4096; 4208]. split; [vm_compute; reflexivity |].
  left. vm_compute. reflexivity.
Qed.

Lemma implicit_myfree_preserves_heap_witness :
  exists l', wf (Implicit.myfree (ImplicitRun.final ImplicitRun.one_block) 4104) l'.
Proof.
  destruct (implicit_myfree_preserves_heap _ _ 4104 one_block_heap one_block_allocated)
    as (l1 & b & l2 & _ & _ & _ & H).
  eexists. exact H.
Defined.

(** X6.  Allocating and at once freeing the block returns the accounting to
    where it was: [nused] and [num_usedblocks] have their old values and the
    heap is well-formed again; [num_freeblocks] is unchanged or has grown
    by one (a split is not merged back). *)
Theorem implicit_malloc_free_round_trip
        (MAX_REQUEST_SIZE : Z) (fuel : nat) (st : Implicit.state)
        (l : list block) (R p : Z) (st' : Implicit.state) :
  wf st l -> MAX_REQUEST_SIZE + 7 < 2 ^ 64 -> 0 <= R -> (length l < fuel)%nat ->
  Implicit.mymalloc MAX_REQUEST_SIZE fuel st R = Some (p, st') ->
  p <> NULL ->
  let st'' := Implicit.myfree st' p in
  Implicit.nused st'' = Implicit.nused st /\
  Implicit.num_usedblocks st'' = Implicit.num_usedblocks st /\
  (Implicit.num_freeblocks st'' = Implicit.num_freeblocks st \/
   Implicit.num_freeblocks st'' = Implicit.num_freeblocks st + 1) /\
  exists l'', wf st'' l''.
Proof.
  intros Hwf Hmax HR Hf Hm Hp st''.
  destruct (mymalloc_on_heap MAX_REQUEST_SIZE fuel st l R Hwf Hmax HR Hf)
    as [Hn | (l1 & b & l2 & st1 & -> & Hb & HRn & Hnb & _ & Hs & Hwf1 & _ & Hs1 & _)].
  - rewrite Hn in Hm. injection Hm as <- _. contradiction.
  - rewrite Hs in Hm. injection Hm as <- <-.
    destruct Hwf as (_ & _ & _ & _ & _ & Ht & Hnu & Hcu & Hcf).
    destruct (tiles_at _ _ _ _ _ Ht) as (_ & _ & _ & Hb8 & _).
    destruct (allocate_in_head (roundup R ALIGNMENT) b Hnb ltac:(lia))
      as (first & rest & Hfr & Hfu & _).
    assert (Hrest : rest = [] \/ exists c, rest = [c] /\ used c = false).
    { unfold allocate_in in Hfr.
      destruct (HEADER_SIZE + ALIGNMENT <=? size b - roundup R ALIGNMENT);
        injection Hfr as _ <-; [right; eexists; split; reflexivity | left; reflexivity]. }
    rewrite Hfr in Hwf1. cbn [app] in Hwf1.
    destruct (myfree_on_heap st1 l1 first (rest ++ l2) Hwf1 Hfu)
      as ((_ & _ & _ & _ & _ & _ & Hnu' & Hcu' & Hcf') & _).
    pose proof (myfree_on_heap st1 l1 first (rest ++ l2) Hwf1 Hfu) as [Hwf'' _].
    cbv zeta in Hnu', Hcu', Hcf', Hwf''. rewrite Hs1 in Hnu', Hcu', Hcf', Hwf''.
    subst st''.
    rewrite used_bytes_app, count_used_app, count_free_app in *.
    cbn [used_bytes count_used count_free used] in *.
    rewrite used_bytes_app, count_used_app, count_free_app in *.
    rewrite Hb in *.
    split; [| split; [| split; [| eexists; exact Hwf'']]].
    + rewrite Hnu', Hnu. destruct Hrest as [-> | (c & -> & Hc)];
        cbn [used_bytes]; try rewrite Hc; lia.
    + rewrite Hcu', Hcu. destruct Hrest as [-> | (c & -> & Hc)];
        cbn [count_used]; try rewrite Hc; lia.
    + rewrite Hcf', Hcf. destruct Hrest as [-> | (c & -> & Hc)];
        cbn [count_free]; try rewrite Hc; [left | right]; lia.
Qed.

Lemma implicit_malloc_free_round_trip_witness :
  exists p st',
    Implicit.mymalloc run_limit run_fuel
      (ImplicitRun.final ImplicitRun.one_block) 200 = Some (p, st') /\
    Implicit.nused (Implicit.myfree st' p)
    = Implicit.nused (ImplicitRun.final ImplicitRun.one_block).
Proof.
  destruct (Implicit.mymalloc run_limit run_fuel
              (ImplicitRun.final ImplicitRun.one_block) 200) as [[p st'] |] eqn:E.
  - exists p, st'. split; [reflexivity |].
    assert (Hp : p <> NULL).
    { pose proof (f_equal (option_map fst) E) as H. vm_compute in H.
      injection H as H. rewrite <- H. discriminate. }
    assert (H1 : run_limit + 7 < 2 ^ 64) by (vm_compute; reflexivity).
    assert (H2 : 0 <= 200) by lia.
    assert (H3 : (length [mkBlock 104 true; mkBlock 904 false] < run_fuel)%nat)
      by (unfold run_fuel; simpl; lia).
    exact (proj1 (implicit_malloc_free_round_trip run_limit run_fuel _ _ 200 p st'
                    one_block_heap H1 H2 H3 E Hp)).
  - pose proof (f_equal (option_map fst) E) as H. vm_compute in H. discriminate H.
Defined.

(** X7.  [myrealloc] of an allocated pointer of a well-formed heap to a
    non-zero size returns: either [NULL] with the state untouched (the old
    block stays allocated), or a pointer other than [old] that is live in a
    well-formed heap. *)
Theorem implicit_myrealloc_preserves_heap
        (MAX_REQUEST_SIZE : Z) (fuel : nat) (st : Implicit.state)
        (l : list block) (old R : Z) :
  wf st l -> allocated st old ->
  MAX_REQUEST_SIZE + 7 < 2 ^ 64 -> 0 < R -> (length l < fuel)%nat ->
  exists p st',
    Implicit.myrealloc MAX_REQUEST_SIZE fuel st old R = Some (p, st') /\
    ((p = NULL /\ st' = st) \/
     (p <> NULL /\ p <> old /\
      exists l', wf st' l' /\ live (Implicit.segment_start st') l' p)).
Proof.
  intros Hwf Hold Hmax HR Hf.
  destruct (allocated_live _ _ _ Hwf Hold) as (l1 & b & l2 & -> & Hb & ->).
  destruct (myrealloc_on_heap MAX_REQUEST_SIZE fuel st l1 b l2 R Hwf Hb Hmax HR Hf)
    as [Hn | (p & st' & l' & Hs & Hwf' & Hlive & Hne & _ & Hs' & _)].
  - exists NULL, st. split; [exact Hn | left; split; reflexivity].
  - exists p, st'. split; [exact Hs |]. right.
    split; [| split; [exact Hne | exists l'; rewrite Hs'; split; assumption]].
    destruct Hlive as (j1 & c & j2 & -> & _ & ->).
    destruct Hwf' as (H0 & _ & _ & _ & _ & Ht & _).
    destruct (tiles_at _ _ _ _ _ Ht) as (_ & _ & _ & _ & _ & Hj & _).
    destruct Hwf as (H0' & _). change HEADER_SIZE with 8. unfold NULL. lia.
Qed.

Lemma implicit_myrealloc_preserves_heap_witness :
  exists p st',
    Implicit.myrealloc run_limit run_fuel
      (ImplicitRun.final ImplicitRun.one_block) 4104 300 = Some (p, st') /\
    ((p = NULL /\ st' = ImplicitRun.final ImplicitRun.one_block) \/
     (p <> NULL /\ p <> 4104 /\
      exists l', wf st' l' /\ live (Implicit.segment_start st') l' p)).
Proof.
  apply (implicit_myrealloc_preserves_heap run_limit run_fuel _ _ 4104 300
           one_block_heap one_block_allocated).
  - vm_compute. reflexivity.
  - lia.
  - unfold run_fuel. simpl. lia.
Defined.

(** X8.  A successful [myrealloc] carries the contents over: the first
    [min(new_size, old payload size)] bytes at the returned address are the
    bytes that were at [old] before the call. *)
Theorem implicit_myrealloc_copies_contents
        (MAX_REQUEST_SIZE : Z) (fuel : nat) (st : Implicit.state)
        (l : list block) (old R p : Z) (st' : Implicit.state) :
  wf st l -> allocated st old ->
  MAX_REQUEST_SIZE + 7 < 2 ^ 64 -> 0 < R -> (length l < fuel)%nat ->
  Implicit.myrealloc MAX_REQUEST_SIZE fuel st old R = Some (p, st') ->
  p <> NULL ->
  forall i,
    0 <= i < Z.min R (get_size (Implicit.mem st) (get_header old)) ->
    Implicit.mem st' (p + i) = Implicit.mem st (old + i).
Proof.
  intros Hwf Hold Hmax HR Hf Hm Hp i Hi.
  destruct (allocated_live _ _ _ Hwf Hold) as (l1 & b & l2 & -> & Hb & ->).
  assert (Hsz : get_size (Implicit.mem st)
                  (get_header (Implicit.segment_start st + span l1 + HEADER_SIZE))
                = size b).
  { destruct Hwf as (H0 & He & Hlt & _ & Hsp & Ht & _).
    destruct (tiles_at _ _ _ _ _ Ht) as (_ & Hs & _ & Hb8 & _ & Hl1 & Hl2).
    rewrite span_app in Hsp. cbn [span] in Hsp. unfold footprint in Hsp.
    unfold get_header. change HEADER_SIZE with 8 in *.
    rewrite wsub_small by lia.
    replace (Implicit.segment_start st + span l1 + 8 - 8)
      with (Implicit.segment_start st + span l1) by lia.
    exact Hs. }
  rewrite Hsz in Hi.
  destruct (myrealloc_on_heap MAX_REQUEST_SIZE fuel st l1 b l2 R Hwf Hb Hmax HR Hf)
    as [Hn | (q & st1 & l' & Hs & _ & _ & _ & Hcopy & _)].
  - rewrite Hn in Hm. injection Hm as <- _. contradiction.
  - rewrite Hs in Hm. injection Hm as <- <-. apply Hcopy. exact Hi.
Qed.

Lemma implicit_myrealloc_copies_contents_witness :
  exists p st',
    Implicit.myrealloc run_limit run_fuel
      (ImplicitRun.final ImplicitRun.one_block) 4104 300 = Some (p, st') /\
    Implicit.mem st' (p + 7)
    = Implicit.mem (ImplicitRun.final ImplicitRun.one_block) (4104 + 7).
Proof.
  destruct (Implicit.myrealloc run_limit run_fuel
              (ImplicitRun.final ImplicitRun.one_block) 4104 300)
    as [[p st'] |] eqn:E.
  - exists p, st'. split; [reflexivity |].
    assert (Hp : p <> NULL).
    { pose proof (f_equal (option_map fst) E) as H. vm_compute in H.
      injection H as H. rewrite <- H. discriminate. }
    assert (H1 : run_limit + 7 < 2 ^ 64) by (vm_compute; reflexivity).
    assert (H2 : 0 < 300) by lia.
    assert (H3 : (length [mkBlock 104 true; mkBlock 904 false] < run_fuel)%nat)
      by (unfold run_fuel; simpl; lia).
    apply (implicit_myrealloc_copies_contents run_limit run_fuel _ _ 4104 300 p st'
             one_block_heap one_block_allocated H1 H2 H3 E Hp).
    vm_compute. split; congruence.
  - pose proof (f_equal (option_map fst) E) as H. vm_compute in H. discriminate H.
Defined.

(** X9.  [validate_heap] accepts every well-formed heap, given more fuel
    than there are blocks. *)
Theorem implicit_validate_heap_accepts
        (st : Implicit.state) (l : list block) (fuel : nat) :
  wf st l -> (length l < fuel)%nat ->
  Implicit.validate_heap fuel st = Some true.
Proof. exact (validate_on_heap st l fuel). Qed.

Lemma implicit_validate_heap_accepts_witness :
  Implicit.validate_heap run_fuel (ImplicitRun.final ImplicitRun.one_block)
  = Some true.
Proof.
  apply (implicit_validate_heap_accepts _ _ run_fuel one_block_heap).
  unfold run_fuel. simpl. lia.
Defined.

(** X10.  Validator fixed point for the implicit variant: in every state
    reached from a successful [myinit] by calls of [mymalloc], [myfree] and
    [myrealloc] that free or reallocate only null or allocated pointers, the
    heap is well-formed, [nused] is at most [segment_size] and
    [validate_heap] returns true. *)
Theorem implicit_reachable_validates
        (MAX_REQUEST_SIZE : Z) (fuel : nat) (st : Implicit.state) :
  MAX_REQUEST_SIZE + 7 < 2 ^ 64 ->
  reachable MAX_REQUEST_SIZE fuel st ->
  (exists l, wf st l) /\
  Implicit.nused st <= Implicit.segment_size st /\
  Implicit.validate_heap fuel st = Some true.
Proof.
  intros Hmax Hr.
  destruct (reachable_heap _ _ _ Hmax Hr) as (l & Hwf & Hf).
  split; [exists l; exact Hwf |]. split.
  - destruct Hwf as (_ & _ & _ & _ & Hsp & Ht & Hnu & _).
    destruct (tiles_bounds _ _ _ Ht) as (_ & Hub & _). lia.
  - exact (validate_on_heap _ _ _ Hwf (heap_fuel _ _ _ Hwf Hf)).
Qed.

Lemma small_run_reachable :
  reachable run_limit run_fuel
    (ImplicitRun.final (ImplicitRun.malloc ImplicitRun.small 16)).
Proof.
  unfold ImplicitRun.final, ImplicitRun.malloc, ImplicitRun.small.
  destruct (Implicit.mymalloc run_limit run_fuel
              (snd (Implicit.myinit Implicit.blank run_base 32)) 16)
    as [[p st'] |] eqn:E.
  - apply (reach_malloc run_limit run_fuel
             (snd (Implicit.myinit Implicit.blank run_base 32)) 16 p st');
      [| lia | exact E].
    apply reach_init; try (vm_compute; congruence); reflexivity.
  - pose proof (f_equal (option_map fst) E) as H. vm_compute in H. discriminate H.
Qed.

Lemma implicit_reachable_validates_witness :
  Implicit.validate_heap run_fuel
    (Implicit.myfree (ImplicitRun.final (ImplicitRun.malloc ImplicitRun.small 16)) 4104)
  = Some true.
Proof.
  assert (H1 : run_limit + 7 < 2 ^ 64) by (vm_compute; reflexivity).
  assert (H2 : reachable run_limit run_fuel
                 (Implicit.myfree
                    (ImplicitRun.final (ImplicitRun.malloc ImplicitRun.small 16)) 4104)).
  { apply reach_free; [exact small_run_reachable | right].
    split; [lia |]. split; [vm_compute; reflexivity |].
    exists run_fuel, [4096]. split; [vm_compute; reflexivity |].
    left. vm_compute. reflexivity. }
  exact (proj2 (proj2 (implicit_reachable_validates run_limit run_fuel _ H1 H2))).
Defined.

Lemma final_run (r : option (Z * Implicit.state)) (p : Z) :
  option_map fst r = Some p -> r = Some (p, ImplicitRun.final r).
Proof.
  destruct r as [[a st] |]; simpl; intros H; [| discriminate H].
  injection H as ->. reflexivity.
Qed.

(** X11.  Allocated blocks never overlap: in every state reached from a
    successful [myinit] by calls of [mymalloc], [myfree] and [myrealloc]
    that free or reallocate only null or allocated pointers, two different
    pointers that the segment shows as allocated (their header is visited
    by the walk from [segment_start] and has the allocation bit set) have
    payloads, of the sizes [get_size] reads in their headers, that lie
    inside the segment and are at least a header apart. *)
Theorem implicit_allocated_blocks_disjoint
        (MAX_REQUEST_SIZE : Z) (fuel : nat) (st : Implicit.state) (p q : Z) :
  MAX_REQUEST_SIZE + 7 < 2 ^ 64 ->
  reachable MAX_REQUEST_SIZE fuel st ->
  allocated st p -> allocated st q -> p <> q ->
  let sp := get_size (Implicit.mem st) (get_header p) in
  let sq := get_size (Implicit.mem st) (get_header q) in
  Implicit.segment_start st + HEADER_SIZE <= p /\
  p + sp <= Implicit.segment_end st /\
  Implicit.segment_start st + HEADER_SIZE <= q /\
  q + sq <= Implicit.segment_end st /\
  (p + sp + HEADER_SIZE <= q \/ q + sq + HEADER_SIZE <= p).
Proof.
  intros Hmax Hr Hp Hq Hne sp sq.
  destruct (reachable_heap _ _ _ Hmax Hr) as (l & Hwf & _).
  destruct (allocated_live _ _ _ Hwf Hp) as (l1 & b & l2 & Hl & _ & Hpa).
  destruct (allocated_live _ _ _ Hwf Hq) as (k1 & c & k2 & Hk & _ & Hqa).
  destruct Hwf as (H0 & He & Hlt & _ & Hsp & Ht & _).
  pose proof Ht as Ht1. rewrite Hl in Ht1.
  pose proof Ht as Ht2. rewrite Hk in Ht2.
  destruct (tiles_at _ _ _ _ _ Ht1) as (_ & Hsb & _ & Hb8 & _ & Hl1 & Hl2).
  destruct (tiles_at _ _ _ _ _ Ht2) as (_ & Hsc & _ & Hc8 & _ & Hk1 & Hk2).
  pose proof Hsp as Hsp1. rewrite Hl, span_app in Hsp1. cbn [span] in Hsp1.
  pose proof Hsp as Hsp2. rewrite Hk, span_app in Hsp2. cbn [span] in Hsp2.
  unfold footprint in Hsp1, Hsp2. change HEADER_SIZE with 8 in *.
  assert (Hhp : get_header p = Implicit.segment_start st + span l1).
  { unfold get_header. change HEADER_SIZE with 8. rewrite wsub_small by lia. lia. }
  assert (Hhq : get_header q = Implicit.segment_start st + span k1).
  { unfold get_header. change HEADER_SIZE with 8. rewrite wsub_small by lia. lia. }
  assert (Esp : sp = size b) by (unfold sp; rewrite Hhp; exact Hsb).
  assert (Esq : sq = size c) by (unfold sq; rewrite Hhq; exact Hsc).
  assert (Hspan : span l1 <> span k1) by lia.
  assert (Heq : l1 ++ b :: l2 = k1 ++ c :: k2) by congruence.
  destruct (relocate _ _ _ _ _ _ [c] _ _ Ht1 Heq Hspan) as (_ & _ & _ & _ & Hdis);
    [cbn [span]; lia |].
  unfold footprint in Hdis. change HEADER_SIZE with 8 in Hdis.
  rewrite Esp, Esq. repeat split; lia.
Qed.

Lemma implicit_allocated_blocks_disjoint_witness :
  let st := ImplicitRun.final ImplicitRun.two_blocks in
  4104 + get_size (Implicit.mem st) (get_header 4104) + HEADER_SIZE <= 4128 \/
  4128 + get_size (Implicit.mem st) (get_header 4128) + HEADER_SIZE <= 4104.
Proof.
  intros st.
  assert (Hmax : run_limit + 7 < 2 ^ 64) by (vm_compute; reflexivity).
  assert (Hr : reachable run_limit run_fuel st).
  { apply (reach_malloc run_limit run_fuel
             (ImplicitRun.final ImplicitRun.first_of_two) 16 4128 st);
      [| lia | apply final_run; vm_compute; reflexivity].
    apply (reach_malloc run_limit run_fuel
             (snd (Implicit.myinit Implicit.blank run_base 64)) 16 4104
             (ImplicitRun.final ImplicitRun.first_of_two));
      [| lia | apply final_run; vm_compute; reflexivity].
    apply reach_init; try (vm_compute; congruence); reflexivity. }
  assert (Hblocks : Implicit.blocks run_fuel (Implicit.mem st)
                      (Implicit.segment_end st) (Implicit.segment_start st)
                    = Some [4096; 4120; 4144]) by (vm_compute; reflexivity).
  assert (Hp : allocated st 4104).
  { split; [lia |]. split; [vm_compute; reflexivity |].
    exists run_fuel, [4096; 4120; 4144]. split; [exact Hblocks |].
    left. vm_compute. reflexivity. }
  assert (Hq : allocated st 4128).
  { split; [lia |]. split; [vm_compute; reflexivity |].
    exists run_fuel, [4096; 4120; 4144]. split; [exact Hblocks |].
    right. left. vm_compute. reflexivity. }
  refine (proj2 (proj2 (proj2 (proj2
            (implicit_allocated_blocks_disjoint run_limit run_fuel st 4104 4128
               Hmax Hr Hp Hq _))))).
  lia.
Defined.

(** X12.  The early rejection of [mymalloc] is sound on a well-formed heap:
    when the rounded size plus [nused] exceeds [segment_size], no free block
    is large enough, so the search it skips would have failed too. *)
Theorem implicit_fast_reject_sound
        (st : Implicit.state) (l : list block) (n : Z) (fuel : nat) :
  wf st l -> 0 <= n < 2 ^ 63 ->
  Implicit.segment_size st < wadd n (Implicit.nused st) ->
  (forall b, In b l -> used b = true \/ size b < n) /\
  ((length l < fuel)%nat ->
   Implicit.find_first_free fuel (Implicit.mem st) (Implicit.segment_end st)
                            (Implicit.segment_start st) n = Some NULL).
Proof.
  intros Hwf Hn Hrej.
  pose proof Hwf as (H0 & He & Hlt & Hsmall & Hsp & Ht & Hnu & _).
  destruct (tiles_bounds _ _ _ Ht) as (_ & Hub & _).
  rewrite wadd_small in Hrej by lia.
  assert (Hno : forall b, In b l -> used b = true \/ size b < n).
  { intros b Hin. destruct (used b) eqn:Eb; [left; reflexivity | right].
    pose proof (free_block_room _ _ _ _ Ht Hin Eb) as Hroom.
    unfold footprint in Hroom. change HEADER_SIZE with 8 in Hroom. lia. }
  split; [exact Hno |]. intros Hf.
  replace (Implicit.segment_end st) with (Implicit.segment_start st + span l) by lia.
  destruct (find_on_tiles (Implicit.mem st) n l fuel _ Ht H0 ltac:(lia) Hf)
    as [[Hfind _] | (l1 & b & l2 & -> & Hb1 & Hb2 & _)]; [exact Hfind |].
  destruct (Hno b ltac:(apply in_or_app; right; left; reflexivity)); [congruence | lia].
Qed.

Lemma implicit_fast_reject_sound_witness :
  Implicit.find_first_free run_fuel
    (Implicit.mem (ImplicitRun.final ImplicitRun.one_block))
    (Implicit.segment_end (ImplicitRun.final ImplicitRun.one_block))
    (Implicit.segment_start (ImplicitRun.final ImplicitRun.one_block)) 920
  = Some NULL.
Proof.
  refine (proj2 (implicit_fast_reject_sound (ImplicitRun.final ImplicitRun.one_block)
                   _ 920 run_fuel one_block_heap _ _) _).
  - lia.
  - vm_compute. reflexivity.
  - unfold run_fuel. simpl. lia.
Defined.

(** X13.  A [NULL] result of [mymalloc] or of [myrealloc] to a non-zero size
    leaves the whole state as it was, whatever the reason of the failure
    (the segment lying below the last word of the address space, so that no
    payload address wraps to null). *)
Theorem implicit_null_result_keeps_state
        (MAX_REQUEST_SIZE : Z) (fuel : nat) (st st' : Implicit.state)
        (old R : Z) :
  0 <= Implicit.segment_start st < 2 ^ 64 ->
  Implicit.segment_end st <= 2 ^ 64 - HEADER_SIZE ->
  (Implicit.mymalloc MAX_REQUEST_SIZE fuel st R = Some (NULL, st') -> st' = st) /\
  (old <> NULL -> R <> 0 ->
   Implicit.myrealloc MAX_REQUEST_SIZE fuel st old R = Some (NULL, st') -> st' = st).
Proof.
  intros Hs He. split.
  - exact (implicit_mymalloc_null_unchanged _ _ _ _ _ Hs He).
  - intros Ho HR. exact (implicit_failed_realloc_unchanged _ _ _ _ _ _ Hs He Ho HR).
Qed.

Lemma implicit_null_result_keeps_state_witness :
  exists st',
    Implicit.mymalloc run_limit run_fuel
      (ImplicitRun.final ImplicitRun.one_block) 2000 = Some (NULL, st') /\
    st' = ImplicitRun.final ImplicitRun.one_block.
Proof.
  destruct (Implicit.mymalloc run_limit run_fuel
              (ImplicitRun.final ImplicitRun.one_block) 2000)
    as [[p st'] |] eqn:E.
  - pose proof (f_equal (option_map fst) E) as H. vm_compute in H.
    injection H as <-. exists st'. split; [reflexivity |].
    revert E.
    apply (implicit_null_result_keeps_state run_limit run_fuel _ st' 4104 2000);
      vm_compute; try split; congruence.
  - pose proof (f_equal (option_map fst) E) as H. vm_compute in H. discriminate H.
Defined.

(** ** Round trips of the codec, of pointers and of the free list *)

(** X14.  The header codec round-trips: a word made of a payload size that is
    a multiple of 8 and of the allocation bit is read back by [get_size] and
    [is_malloc] as that size and that bit. *)
Theorem header_codec_round_trip (m : memory) (p s : Z) (bit : bool) :
  0 <= s <= 2 ^ 64 - 8 -> s mod 8 = 0 ->
  let m' := store64 m p (s + (if bit then MALLOC else 0)) in
  get_size m' p = s /\ is_malloc m' p = bit.
Proof.
  intros Hs H8 m'. subst m'. change MALLOC with 1.
  rewrite get_size_store, is_malloc_store by (destruct bit; lia).
  destruct bit.
  - destruct (div8_exact_succ s H8) as [-> ->]. split; reflexivity.
  - replace (s + 0) with s by lia. rewrite (mod8_even s H8).
    split; [apply div8_exact; exact H8 | reflexivity].
Qed.

Lemma header_codec_round_trip_witness :
  get_size (store64 (fun _ => 0) 4096 (104 + MALLOC)) 4096 = 104 /\
  is_malloc (store64 (fun _ => 0) 4096 (104 + MALLOC)) 4096 = true.
Proof.
  apply (header_codec_round_trip (fun _ => 0) 4096 104 true); [lia | reflexivity].
Defined.

(** X15.  [get_header] undoes the step from a header to its payload that
    [mymalloc] takes, and that step undoes [get_header], for every 64-bit
    address, wrap-around included. *)
Theorem get_header_round_trip (a : Z) :
  0 <= a < 2 ^ 64 ->
  get_header (wadd a HEADER_SIZE) = a /\ wadd (get_header a) HEADER_SIZE = a.
Proof.
  intros Ha. unfold get_header. split.
  - rewrite wsub_wadd. replace (a + HEADER_SIZE - HEADER_SIZE) with a by lia.
    apply wrap_small. exact Ha.
  - unfold wadd, wsub, wrap. rewrite Zplus_mod_idemp_l.
    replace (a - HEADER_SIZE + HEADER_SIZE) with a by lia.
    apply Z.mod_small. exact Ha.
Qed.

Lemma get_header_round_trip_witness :
  get_header (wadd 4096 HEADER_SIZE) = 4096 /\ wadd (get_header 4096) HEADER_SIZE = 4096.
Proof. apply (get_header_round_trip 4096). lia. Defined.

(** X16.  [roundup] to a power of two is idempotent, leaves multiples as they
    are, and adds less than the multiple. *)
Theorem roundup_idempotent (s k : Z) :
  0 <= s -> 0 <= k < 64 -> s + 2 ^ k - 1 < 2 ^ 64 ->
  roundup (roundup s (2 ^ k)) (2 ^ k) = roundup s (2 ^ k) /\
  (s mod 2 ^ k = 0 -> roundup s (2 ^ k) = s) /\
  roundup s (2 ^ k) < s + 2 ^ k.
Proof.
  intros Hs Hk Hfit.
  assert (Hp : 0 < 2 ^ k) by (apply Z.pow_pos_nonneg; lia).
  rewrite (roundup_div s k) by assumption.
  set (m := 2 ^ k) in *. set (q := (s + m - 1) / m).
  pose proof (Z_div_mod_eq_full (s + m - 1) m) as Hdm. fold q in Hdm.
  pose proof (Z.mod_pos_bound (s + m - 1) m Hp) as Hmod.
  assert (Hq : 0 <= q) by (apply Z.div_pos; lia).
  assert (Hmq : 0 <= m * q) by nia.
  assert (Htop : m * q + m <= 2 ^ 64).
  { assert (Hpow : 2 ^ 64 = m * 2 ^ (64 - k)).
    { unfold m. rewrite <- Z.pow_add_r by lia. f_equal. lia. }
    assert (Hlt : q < 2 ^ (64 - k)) by nia.
    rewrite Hpow. nia. }
  split; [| split].
  - unfold m. rewrite roundup_div; fold m; try lia.
    f_equal. replace (m * q + m - 1) with (m - 1 + q * m) by lia.
    rewrite Z.div_add by lia. rewrite Z.div_small by lia. lia.
  - intros H0. pose proof (Z_div_mod_eq_full s m) as Hd. rewrite H0 in Hd.
    assert (q = s / m).
    { unfold q. replace (s + m - 1) with (m - 1 + s / m * m) by lia.
      rewrite Z.div_add by lia. rewrite Z.div_small by lia. lia. }
    lia.
  - lia.
Qed.

Lemma roundup_idempotent_witness :
  roundup (roundup 13 (2 ^ 3)) (2 ^ 3) = roundup 13 (2 ^ 3).
Proof. apply (roundup_idempotent 13 3); simpl; lia. Defined.

(** X17.  The free list is LIFO and insertion is undone by removal.  When the
    list is not empty and the block inserted is a non-null header struct
    that does not overlap the header struct of the head (so it is not the
    head itself), both inside the address space, [add_freeblock] makes the
    block the head with a null [prev] and the old head as [next] and sets
    the old head's [prev] to it; removing it again restores [first_free];
    the old head ends with a null [prev] and its own [next] and header word,
    and memory has only changed in the [prev] field of the old head and the
    two link fields of the block. *)
Theorem explicit_add_remove_round_trip (st : Explicit.state) (block : Z) :
  let f := Explicit.first_free st in
  0 < f -> f + 24 <= 2 ^ 64 -> 0 < block -> block + 24 <= 2 ^ 64 ->
  f + 24 <= block \/ block + 24 <= f ->
  let st1 := Explicit.add_freeblock st block in
  let st2 := Explicit.remove_freeblock st1 block in
  Explicit.first_free st1 = block /\
  Explicit.get_next (Explicit.mem st1) block = f /\
  Explicit.get_prev (Explicit.mem st1) block = NULL /\
  Explicit.get_prev (Explicit.mem st1) f = block /\
  Explicit.first_free st2 = f /\
  Explicit.get_prev (Explicit.mem st2) f = NULL /\
  Explicit.get_next (Explicit.mem st2) f = Explicit.get_next (Explicit.mem st) f /\
  load64 (Explicit.mem st2) f = load64 (Explicit.mem st) f /\
  (forall x, (x < f + 8 \/ f + 16 <= x) -> (x < block + 8 \/ block + 24 <= x) ->
             Explicit.mem st2 x = Explicit.mem st x).
Proof.
  intros f Hf0 Hf1 Hb0 Hb1 Hd st1 st2.
  assert (E1 : (f =? NULL) = false) by (apply Z.eqb_neq; unfold NULL; lia).
  assert (Hst1 : st1 = Explicit.with_first_free
                   (Explicit.with_mem st
                      (store64 (store64 (store64 (Explicit.mem st) (f + 8) block)
                                        (block + 8) NULL)
                               (block + 16) f)) block).
  { unfold st1, Explicit.add_freeblock. fold f. rewrite E1.
    unfold Explicit.prev_field, Explicit.next_field.
    rewrite (wadd_small f 8), (wadd_small block 8), (wadd_small block 16) by lia.
    reflexivity. }
  set (m3 := store64 (store64 (store64 (Explicit.mem st) (f + 8) block)
                              (block + 8) NULL) (block + 16) f) in *.
  assert (Hn3 : Explicit.get_next m3 block = f).
  { unfold Explicit.get_next, Explicit.next_field, m3.
    rewrite (wadd_small block 16) by lia. mem_norm. apply wrap_small. lia. }
  assert (Hp3 : Explicit.get_prev m3 block = NULL).
  { unfold Explicit.get_prev, Explicit.prev_field, m3.
    rewrite (wadd_small block 8) by lia. mem_norm. reflexivity. }
  assert (Hpf : Explicit.get_prev m3 f = block).
  { unfold Explicit.get_prev, Explicit.prev_field, m3.
    rewrite (wadd_small f 8) by lia. mem_norm. apply wrap_small. lia. }
  assert (Hst2 : st2 = Explicit.with_mem
                   (Explicit.with_first_free
                      (Explicit.with_first_free (Explicit.with_mem st m3) block) f)
                   (store64 m3 (f + 8) NULL)).
  { unfold st2, Explicit.remove_freeblock. rewrite Hst1.
    cbn [Explicit.first_free Explicit.with_first_free Explicit.mem Explicit.with_mem].
    rewrite Z.eqb_refl.
    cbn [Explicit.first_free Explicit.with_first_free Explicit.mem Explicit.with_mem].
    rewrite Hp3. cbn [Z.eqb NULL negb].
    cbn [Explicit.first_free Explicit.with_first_free Explicit.mem Explicit.with_mem].
    rewrite Hn3, E1. cbn [negb]. rewrite Hp3.
    unfold Explicit.prev_field. rewrite (wadd_small f 8) by lia.
    cbn [Explicit.first_free Explicit.with_first_free Explicit.mem Explicit.with_mem].
    reflexivity. }
  rewrite Hst1, Hst2.
  cbn [Explicit.first_free Explicit.with_first_free Explicit.mem Explicit.with_mem].
  split; [reflexivity |]. split; [exact Hn3 |]. split; [exact Hp3 |].
  split; [exact Hpf |]. split; [reflexivity |].
  unfold Explicit.get_prev, Explicit.get_next, Explicit.prev_field,
    Explicit.next_field, m3.
  rewrite (wadd_small f 8), (wadd_small f 16) by lia.
  split; [mem_norm; reflexivity |].
  split; [mem_norm; reflexivity |].
  split; [mem_norm; reflexivity |].
  intros x H1 H2. rewrite !store64_outside by lia. reflexivity.
Qed.

Lemma explicit_add_remove_round_trip_witness :
  let st := ExplicitRun.final ExplicitRun.before_grow in
  Explicit.first_free (Explicit.remove_freeblock (Explicit.add_freeblock st 4096) 4096)
  = Explicit.first_free st.
Proof.
  intros st.
  assert (Hf : Explicit.first_free st = 4120) by (vm_compute; reflexivity).
  refine (proj1 (proj2 (proj2 (proj2 (proj2
            (explicit_add_remove_round_trip st 4096 _ _ _ _ _))))));
    try rewrite Hf; lia.
Defined.

(** ** What the explicit validator guarantees *)

Lemma incr_wrap_int (x : Z) : incr (wrap_int x) = wrap_int (x + 1).
Proof.
  unfold incr, wrap_int.
  replace ((x + 2 ^ 31) mod 2 ^ 32 - 2 ^ 31 + 1 + 2 ^ 31)
    with ((x + 2 ^ 31) mod 2 ^ 32 + 1) by lia.
  rewrite Zplus_mod_idemp_l. do 2 f_equal. lia.
Qed.

Lemma explicit_walk_sound (st : Explicit.state) (fuel : nat) :
  forall a F U f' u',
    Explicit.validate_walk fuel st a (wrap_int F) (wrap_int U) = Some (Some (f', u')) ->
    exists bl,
      ExplicitHeap.chain (Explicit.mem st) (Explicit.segment_end st) a bl /\
      Forall (fun b => 2 * ALIGNMENT <= get_size (Explicit.mem st) b) bl /\
      (bl <> [] -> Explicit.nused st <= Explicit.segment_size st) /\
      f' = wrap_int (F + ExplicitHeap.count
                           (fun b => negb (is_malloc (Explicit.mem st) b)) bl) /\
      u' = wrap_int (U + ExplicitHeap.count (is_malloc (Explicit.mem st)) bl).
Proof.
  induction fuel as [| fuel IH]; intros a F U f' u' H; [discriminate H |].
  cbn [Explicit.validate_walk] in H.
  destruct (a <? Explicit.segment_end st) eqn:Ea.
  - destruct (Explicit.segment_size st <? Explicit.nused st) eqn:En; [discriminate H |].
    destruct (get_size (Explicit.mem st) a <? 2 * ALIGNMENT) eqn:Es; [discriminate H |].
    apply Z.ltb_lt in Ea. apply Z.ltb_ge in En, Es.
    destruct (is_malloc (Explicit.mem st) a) eqn:Em.
    + rewrite incr_wrap_int in H. apply IH in H.
      destruct H as (bl & Hc & Hs & _ & Hf & Hu).
      exists (a :: bl). unfold ExplicitHeap.count in *.
      cbn [ExplicitHeap.chain filter]. rewrite Em. cbn [negb length].
      split; [auto |]. split; [constructor; assumption |].
      split; [intros _; exact En |]. split; [exact Hf |].
      rewrite Hu. f_equal. lia.
    + rewrite incr_wrap_int in H. apply IH in H.
      destruct H as (bl & Hc & Hs & _ & Hf & Hu).
      exists (a :: bl). unfold ExplicitHeap.count in *.
      cbn [ExplicitHeap.chain filter]. rewrite Em. cbn [negb length].
      split; [auto |]. split; [constructor; assumption |].
      split; [intros _; exact En |]. split; [| exact Hu].
      rewrite Hf. f_equal. lia.
  - injection H as <- <-. apply Z.ltb_ge in Ea.
    exists []. unfold ExplicitHeap.count. cbn [ExplicitHeap.chain filter length].
    split; [exact Ea |]. split; [constructor |].
    split; [intros C; contradiction |]. split; f_equal; lia.
Qed.

Lemma explicit_list_sound (m : memory) (fuel : nat) :
  forall t F f',
    Explicit.validate_list fuel m t (wrap_int F) = Some (Some f') ->
    exists nodes,
      Explicit.free_nodes fuel m t = Some nodes /\
      Forall (fun b => is_malloc m b = false) nodes /\
      f' = wrap_int (F + Z.of_nat (length nodes)).
Proof.
  induction fuel as [| fuel IH]; intros t F f' H; [discriminate H |].
  cbn [Explicit.validate_list Explicit.free_nodes] in *.
  destruct (negb (t =? NULL)).
  - destruct (is_malloc m t) eqn:Em; [discriminate H |].
    rewrite incr_wrap_int in H. apply IH in H.
    destruct H as (nodes & -> & Hall & Hf).
    exists (t :: nodes). cbn [option_map length].
    split; [reflexivity |]. split; [constructor; assumption |].
    rewrite Hf. f_equal. lia.
  - injection H as <-. exists []. cbn [length].
    split; [reflexivity |]. split; [constructor |]. f_equal. lia.
Qed.

(** X18.  What a [true] of the explicit [validate_heap] guarantees: from
    [segment_start] there is a chain of blocks, each starting below
    [segment_end], each of payload at least 16 and each followed by the
    address its header and payload lead to (in 64-bit arithmetic), that ends
    at the first such address at or beyond [segment_end] (the loop tests
    [block < segment_end] only, so the last block may overrun the segment);
    [nused] is within the segment size when the chain has a block; the free
    list reaches [NULL] within the fuel and every node on it is marked free;
    and the two block counters equal, as 32-bit integers, the number of used
    blocks of the chain, and both the number of free blocks of the chain and
    the length of the free list. *)
Theorem explicit_validate_heap_sound (fuel : nat) (st : Explicit.state) :
  Explicit.validate_heap fuel st = Some true ->
  exists bl nodes,
    ExplicitHeap.chain (Explicit.mem st) (Explicit.segment_end st)
                       (Explicit.segment_start st) bl /\
    Forall (fun b => 2 * ALIGNMENT <= get_size (Explicit.mem st) b) bl /\
    (bl <> [] -> Explicit.nused st <= Explicit.segment_size st) /\
    Explicit.free_nodes fuel (Explicit.mem st) (Explicit.first_free st) = Some nodes /\
    Forall (fun b => is_malloc (Explicit.mem st) b = false) nodes /\
    Explicit.num_usedblocks st
    = wrap_int (ExplicitHeap.count (is_malloc (Explicit.mem st)) bl) /\
    Explicit.num_freeblocks st
    = wrap_int (ExplicitHeap.count
                  (fun b => negb (is_malloc (Explicit.mem st) b)) bl) /\
    Explicit.num_freeblocks st = wrap_int (Z.of_nat (length nodes)).
Proof.
  unfold Explicit.validate_heap. intros H.
  destruct (Explicit.validate_walk fuel st (Explicit.segment_start st) 0 0)
    as [[[f u] |] |] eqn:Ew; try discriminate H.
  destruct (negb (u =? Explicit.num_usedblocks st)) eqn:Eu; [discriminate H |].
  destruct (negb (f =? Explicit.num_freeblocks st)) eqn:Ef; [discriminate H |].
  destruct (Explicit.validate_list fuel (Explicit.mem st) (Explicit.first_free st) 0)
    as [[f2 |] |] eqn:El; try discriminate H.
  destruct (negb (f2 =? Explicit.num_freeblocks st)) eqn:Ef2; [discriminate H |].
  apply negb_false_iff, Z.eqb_eq in Eu, Ef, Ef2.
  change 0 with (wrap_int 0) in Ew at 1 2. change 0 with (wrap_int 0) in El.
  apply explicit_walk_sound in Ew. destruct Ew as (bl & Hc & Hs & Hn & Hf & Hu).
  apply explicit_list_sound in El. destruct El as (nodes & Hnodes & Hall & Hf2).
  exists bl, nodes.
  split; [exact Hc |]. split; [exact Hs |]. split; [exact Hn |].
  split; [exact Hnodes |]. split; [exact Hall |].
  rewrite <- Eu, <- Ef at 1. rewrite <- Ef2.
  split; [exact Hu |]. split; [exact Hf | exact Hf2].
Qed.

Lemma explicit_validate_heap_sound_witness :
  let st := ExplicitRun.final ExplicitRun.before_grow in
  exists bl nodes,
    ExplicitHeap.chain (Explicit.mem st) (Explicit.segment_end st)
                       (Explicit.segment_start st) bl /\
    Forall (fun b => 2 * ALIGNMENT <= get_size (Explicit.mem st) b) bl /\
    (bl <> [] -> Explicit.nused st <= Explicit.segment_size st) /\
    Explicit.free_nodes run_fuel (Explicit.mem st) (Explicit.first_free st) = Some nodes /\
    Forall (fun b => is_malloc (Explicit.mem st) b = false) nodes /\
    Explicit.num_usedblocks st
    = wrap_int (ExplicitHeap.count (is_malloc (Explicit.mem st)) bl) /\
    Explicit.num_freeblocks st
    = wrap_int (ExplicitHeap.count
                  (fun b => negb (is_malloc (Explicit.mem st) b)) bl) /\
    Explicit.num_freeblocks st = wrap_int (Z.of_nat (length nodes)).
Proof.
  intros st. apply (explicit_validate_heap_sound run_fuel st).
  vm_compute. reflexivity.
Defined.

(** ** The first allocation of the explicit allocator *)

Lemma first_allocation_state
  (MAX_REQUEST_SIZE : Z) (fuel : nat) (st0 : Explicit.state) (base size R : Z) :
  0 < base -> base + size < 2 ^ 64 -> size mod 8 = 0 ->
  0 < R <= MAX_REQUEST_SIZE -> R + 7 < 2 ^ 64 ->
  let n := Explicit.size_for R in
  n + 2 * HEADER_SIZE + 2 * ALIGNMENT <= size ->
  let st := snd (Explicit.myinit st0 base size) in
  let rest := base + HEADER_SIZE + n in
  exists st',
    Explicit.mymalloc MAX_REQUEST_SIZE (S fuel) st R = Some (base + HEADER_SIZE, st') /\
    load64 (Explicit.mem st') base = n + MALLOC /\
    load64 (Explicit.mem st') rest = size - 2 * HEADER_SIZE - n /\
    Explicit.first_free st' = rest /\
    Explicit.get_prev (Explicit.mem st') rest = NULL /\
    Explicit.get_next (Explicit.mem st') rest = NULL /\
    Explicit.nused st' = n + HEADER_SIZE /\
    Explicit.num_usedblocks st' = 1 /\
    Explicit.num_freeblocks st' = 1 /\
    Explicit.validate_heap (S (S (S fuel))) st' = Some true /\
    Explicit.segment_start st' = base /\
    Explicit.segment_end st' = base + size /\
    Explicit.segment_size st' = size /\
    (forall x, (x < base \/ base + 16 <= x) -> (x < rest \/ rest + 24 <= x) ->
               Explicit.mem st' x = Explicit.mem st x).
Proof.
  intros Hb Hbs H8 HR HR7 n Hroom st rest.
  destruct (size_for_range R) as [Hn Hn8]. fold n in Hn, Hn8.
  assert (Hn16 : 16 <= n).
  { unfold n. rewrite explicit_size_max by lia. change (2 * ALIGNMENT) with 16. lia. }
  change HEADER_SIZE with 8 in *. change ALIGNMENT with 8 in *.
  change MALLOC with 1. change NULL with 0.
  unfold st, Explicit.myinit. change (HEADER_SIZE + ALIGNMENT * 2) with 24.
  replace (size <? 24) with false by (symmetry; apply Z.ltb_ge; lia).
  cbn [snd].
  unfold Explicit.prev_field, Explicit.next_field. change HEADER_SIZE with 8.
  rewrite (wsub_small size 8), (wadd_small base 8), (wadd_small base 16),
    (wadd_small base size) by lia.
  change NULL with 0.
  set (m3 := store64 (store64 (store64 (Explicit.mem st0) base (size - 8))
                              (base + 8) 0) (base + 16) 0).
  set (s := Explicit.mkState m3 base (base + size) base size 0 1 0).
  assert (Hrest : rest = base + 8 + n) by reflexivity. clearbody rest.
  pose proof (Z_div_mod_eq_full size 8) as Hsz.
  assert (Hs8 : (size - 8) mod 8 = 0).
  { pose proof (Z_div_mod_eq_full (size - 8) 8).
    pose proof (Z.mod_pos_bound (size - 8) 8 ltac:(lia)). lia. }
  assert (Hr8 : (size - 16 - n) mod 8 = 0).
  { pose proof (Z_div_mod_eq_full (size - 16 - n) 8).
    pose proof (Z_div_mod_eq_full n 8).
    pose proof (Z.mod_pos_bound (size - 16 - n) 8 ltac:(lia)). lia. }
  assert (L0 : load64 m3 base = size - 8).
  { unfold m3. mem_norm. apply wrap_small. lia. }
  assert (G0 : get_size m3 base = size - 8).
  { rewrite get_size_div, L0. apply div8_exact. exact Hs8. }
  assert (M0 : is_malloc m3 base = false).
  { rewrite is_malloc_mod, L0, (mod8_even _ Hs8). reflexivity. }
  (* split_block *)
  set (m5 := store64 (store64 (store64 (store64 (store64 m3 rest (size - 16 - n))
                                                base n)
                                       (base + 8) rest)
                              (rest + 8) 0)
                     (rest + 16) base).
  assert (Hsplit : Explicit.split_block s base n
                   = Explicit.mkState m5 base (base + size) rest size 0 2 0).
  { unfold Explicit.split_block, s. cbn [Explicit.mem]. rewrite G0.
    change (2 * ALIGNMENT + HEADER_SIZE) with 24. change HEADER_SIZE with 8.
    rewrite (wsub_small (size - 8) n) by lia.
    replace (24 <=? size - 8 - n) with true by (symmetry; apply Z.leb_le; lia).
    rewrite (wadd_small n 8) by lia. rewrite (wadd_small base (n + 8)) by lia.
    rewrite (wsub_small (size - 8) (n + 8)) by lia.
    replace (base + (n + 8)) with rest by lia.
    replace (size - 8 - (n + 8)) with (size - 16 - n) by lia.
    rewrite is_malloc_store_apart by (unfold apart; lia). rewrite M0.
    unfold Explicit.add_freeblock.
    cbn [Explicit.first_free Explicit.with_mem Explicit.mem].
    replace (base =? NULL) with false by (symmetry; apply Z.eqb_neq; unfold NULL; lia).
    unfold Explicit.prev_field, Explicit.next_field.
    rewrite (wadd_small base 8), (wadd_small rest 8), (wadd_small rest 16) by lia.
    reflexivity. }
  (* remove_freeblock *)
  set (m6 := store64 m5 (rest + 16) 0).
  assert (P5 : Explicit.get_prev m5 base = rest).
  { unfold Explicit.get_prev, Explicit.prev_field, m5.
    rewrite (wadd_small base 8) by lia. mem_norm. apply wrap_small. lia. }
  assert (N5 : Explicit.get_next m5 base = 0).
  { unfold Explicit.get_next, Explicit.next_field, m5, m3.
    rewrite (wadd_small base 16) by lia. mem_norm. reflexivity. }
  assert (N6 : Explicit.get_next m6 base = 0).
  { unfold Explicit.get_next, Explicit.next_field, m6 in *.
    rewrite (wadd_small base 16) in * by lia. mem_norm. exact N5. }
  assert (Hrem : Explicit.remove_freeblock
                   (Explicit.mkState m5 base (base + size) rest size 0 2 0) base
                 = Explicit.mkState m6 base (base + size) rest size 0 2 0).
  { unfold Explicit.remove_freeblock. cbn [Explicit.first_free Explicit.mem].
    replace (base =? rest) with false by (symmetry; apply Z.eqb_neq; lia).
    cbn [Explicit.first_free Explicit.mem]. rewrite P5.
    replace (rest =? NULL) with false by (symmetry; apply Z.eqb_neq; unfold NULL; lia).
    cbn [negb Explicit.with_mem Explicit.mem]. rewrite N5.
    replace (Explicit.next_field rest) with (rest + 16)
      by (unfold Explicit.next_field; rewrite wadd_small by lia; reflexivity).
    fold m6.
    cbn [Explicit.with_mem Explicit.mem Explicit.segment_start Explicit.segment_end
         Explicit.first_free Explicit.segment_size Explicit.nused
         Explicit.num_freeblocks Explicit.num_usedblocks].
    rewrite N6. change (0 =? NULL) with true. cbn [negb]. reflexivity. }
  set (m7 := store64 m6 base (n + 1)).
  assert (L6 : load64 m6 base = n).
  { unfold m6, m5. mem_norm. apply wrap_small. lia. }
  assert (L7 : load64 m7 base = n + 1).
  { unfold m7. mem_norm. apply wrap_small. lia. }
  assert (G7 : get_size m7 base = n).
  { rewrite get_size_div, L7. apply div8_exact_succ. exact Hn8. }
  assert (M7 : is_malloc m7 base = true).
  { rewrite is_malloc_mod, L7. destruct (div8_exact_succ n Hn8) as [_ ->]. reflexivity. }
  assert (L7r : load64 m7 rest = size - 16 - n).
  { unfold m7, m6, m5. mem_norm. apply wrap_small. lia. }
  assert (G7r : get_size m7 rest = size - 16 - n).
  { rewrite get_size_div, L7r. apply div8_exact. exact Hr8. }
  assert (M7r : is_malloc m7 rest = false).
  { rewrite is_malloc_mod, L7r, (mod8_even _ Hr8). reflexivity. }
  assert (P7 : Explicit.get_prev m7 rest = 0).
  { unfold Explicit.get_prev, Explicit.prev_field, m7, m6, m5.
    rewrite (wadd_small rest 8) by lia. mem_norm. reflexivity. }
  assert (N7 : Explicit.get_next m7 rest = 0).
  { unfold Explicit.get_next, Explicit.next_field, m7, m6.
    rewrite (wadd_small rest 16) by lia. mem_norm. reflexivity. }
  exists (Explicit.mkState m7 base (base + size) rest size (n + 8) 1 1).
  split.
  { unfold Explicit.mymalloc.
    replace (MAX_REQUEST_SIZE <? R) with false by (symmetry; apply Z.ltb_ge; lia).
    replace (R =? 0) with false by (symmetry; apply Z.eqb_neq; lia).
    cbn [orb]. fold n. unfold s at 1 2. cbn [Explicit.segment_size Explicit.nused].
    rewrite (wadd_small n 0) by lia.
    replace (size <? n + 0) with false by (symmetry; apply Z.ltb_ge; lia).
    unfold s at 1 2. cbn [Explicit.mem Explicit.first_free Explicit.find_freeblock].
    replace (base =? NULL) with false by (symmetry; apply Z.eqb_neq; unfold NULL; lia).
    cbn [negb]. rewrite G0.
    replace (n <=? size - 8) with true by (symmetry; apply Z.leb_le; lia).
    replace (base =? NULL) with false by (symmetry; apply Z.eqb_neq; unfold NULL; lia).
    rewrite Hsplit, Hrem.
    cbn [Explicit.mem Explicit.with_mem Explicit.with_nused Explicit.with_counts
         Explicit.nused Explicit.num_freeblocks Explicit.num_usedblocks
         Explicit.segment_start Explicit.segment_end Explicit.segment_size
         Explicit.first_free].
    rewrite L6. change MALLOC with 1. rewrite (wadd_small n 1) by lia.
    fold m7. rewrite G7. change HEADER_SIZE with 8.
    rewrite (wadd_small n 8), (wadd_small 0 (n + 8)), (wadd_small base 8) by lia.
    reflexivity. }
  cbn [Explicit.mem Explicit.nused Explicit.num_freeblocks Explicit.num_usedblocks
       Explicit.first_free].
  split; [exact L7 |]. split; [rewrite L7r; lia |]. split; [reflexivity |].
  split; [exact P7 |]. split; [exact N7 |]. split; [reflexivity |].
  split; [reflexivity |]. split; [reflexivity |].
  unfold Explicit.validate_heap.
  cbn [Explicit.validate_walk Explicit.segment_start Explicit.segment_end
       Explicit.segment_size Explicit.nused Explicit.mem].
  replace (base <? base + size) with true by (symmetry; apply Z.ltb_lt; lia).
  replace (size <? n + 8) with false by (symmetry; apply Z.ltb_ge; lia).
  rewrite G7. change (2 * ALIGNMENT) with 16.
  replace (n <? 16) with false by (symmetry; apply Z.ltb_ge; lia).
  rewrite M7. change HEADER_SIZE with 8.
  rewrite (wadd_small n 8), (wadd_small base (n + 8)) by lia.
  replace (base + (n + 8)) with rest by lia.
  replace (rest <? base + size) with true by (symmetry; apply Z.ltb_lt; lia).
  rewrite G7r.
  replace (size - 16 - n <? 16) with false by (symmetry; apply Z.ltb_ge; lia).
  rewrite M7r.
  rewrite (wadd_small (size - 16 - n) 8), (wadd_small rest (size - 16 - n + 8)) by lia.
  replace (rest + (size - 16 - n + 8)) with (base + size) by lia.
  rewrite Z.ltb_irrefl.
  cbn [Explicit.num_usedblocks Explicit.num_freeblocks Explicit.first_free
       Explicit.validate_list].
  change (incr 0) with 1. cbn [Z.eqb Pos.eqb negb].
  replace (rest =? NULL) with false by (symmetry; apply Z.eqb_neq; unfold NULL; lia).
  cbn [negb]. rewrite M7r, N7.
  split; [destruct fuel; cbn [Explicit.validate_list]; reflexivity |].
  split; [reflexivity |]. split; [reflexivity |]. split; [reflexivity |].
  intros x Hx1 Hx2. unfold m7, m6, m5.
  rewrite !store64_outside by lia. reflexivity.
Qed.


(** X19.  On a heap that [myinit] has just set up, the first [mymalloc] of a
    request that leaves room for a free block returns the payload of the
    first block, [base + 8]: that block is marked allocated with the
    normalised size [n]; the rest of the segment is one free block of payload
    [size - 16 - n], which is the whole free list (head, null [prev] and
    [next]); [nused] is [n + 8], one block is used and one is free, and
    [validate_heap] accepts the heap. *)
Theorem explicit_first_allocation
  (MAX_REQUEST_SIZE : Z) (fuel : nat) (st0 : Explicit.state) (base size R : Z) :
  0 < base -> base + size < 2 ^ 64 -> size mod 8 = 0 ->
  0 < R <= MAX_REQUEST_SIZE -> R + 7 < 2 ^ 64 ->
  let n := Explicit.size_for R in
  n + 2 * HEADER_SIZE + 2 * ALIGNMENT <= size ->
  let st := snd (Explicit.myinit st0 base size) in
  let rest := base + HEADER_SIZE + n in
  exists st',
    Explicit.mymalloc MAX_REQUEST_SIZE (S fuel) st R = Some (base + HEADER_SIZE, st') /\
    load64 (Explicit.mem st') base = n + MALLOC /\
    load64 (Explicit.mem st') rest = size - 2 * HEADER_SIZE - n /\
    Explicit.first_free st' = rest /\
    Explicit.get_prev (Explicit.mem st') rest = NULL /\
    Explicit.get_next (Explicit.mem st') rest = NULL /\
    Explicit.nused st' = n + HEADER_SIZE /\
    Explicit.num_usedblocks st' = 1 /\
    Explicit.num_freeblocks st' = 1 /\
    Explicit.validate_heap (S (S (S fuel))) st' = Some true.
Proof.
  intros Hb Hbs H8 HR HR7 n Hroom st rest.
  destruct (first_allocation_state MAX_REQUEST_SIZE fuel st0 base size R
              Hb Hbs H8 HR HR7 Hroom)
    as (st' & H1 & H2 & H3 & H4 & H5 & H6 & H7 & H8' & H9 & H10 & _).
  exists st'. repeat (split; [assumption |]). assumption.
Qed.

Lemma explicit_first_allocation_witness :
  exists st',
    Explicit.mymalloc run_limit 1 (snd (Explicit.myinit Explicit.blank 4096 72)) 16
    = Some (4096 + HEADER_SIZE, st') /\
    Explicit.first_free st' = 4096 + HEADER_SIZE + Explicit.size_for 16 /\
    Explicit.validate_heap 3 st' = Some true.
Proof.
  pose proof (explicit_first_allocation run_limit 0 Explicit.blank 4096 72 16) as T.
  cbv zeta in T.
  specialize (T ltac:(lia) ltac:(lia) ltac:(reflexivity)
                ltac:(unfold run_limit; lia) ltac:(lia)
                ltac:(vm_compute; discriminate)).
  destruct T as (st' & H1 & _ & _ & H4 & _ & _ & _ & _ & _ & H10).
  exists st'. split; [exact H1 |]. split; [exact H4 | exact H10].
Defined.

(** ** Unlinking, merging and freeing in the explicit allocator *)

Lemma remove_freeblock_explicit (st : Explicit.state) (b : Z) :
  let m := Explicit.mem st in
  let p := Explicit.get_prev m b in
  let nx := Explicit.get_next m b in
  0 <= b -> b + 24 <= 2 ^ 64 ->
  ExplicitHeap.sep p b -> ExplicitHeap.sep nx b ->
  Explicit.remove_freeblock st b
  = Explicit.mkState
      (let m1 := if p =? NULL then m else store64 m (p + 16) nx in
       if nx =? NULL then m1 else store64 m1 (nx + 8) p)
      (Explicit.segment_start st) (Explicit.segment_end st)
      (if b =? Explicit.first_free st then nx else Explicit.first_free st)
      (Explicit.segment_size st) (Explicit.nused st)
      (Explicit.num_freeblocks st) (Explicit.num_usedblocks st).
Proof.
  intros m p nx Hb0 Hb1 Hp Hn.
  destruct st as [m0 ss se ff sz nu nf nub].
  cbn [Explicit.mem Explicit.segment_start Explicit.segment_end Explicit.first_free
       Explicit.segment_size Explicit.nused Explicit.num_freeblocks
       Explicit.num_usedblocks] in *.
  subst m. unfold Explicit.remove_freeblock.
  cbn [Explicit.mem Explicit.first_free].
  assert (Hm1 : forall st1 : Explicit.state,
             st1 = (if b =? ff
                    then Explicit.with_first_free
                           (Explicit.mkState m0 ss se ff sz nu nf nub)
                           (Explicit.get_next m0 b)
                    else Explicit.mkState m0 ss se ff sz nu nf nub) ->
             st1 = Explicit.mkState m0 ss se (if b =? ff then nx else ff) sz nu nf nub).
  { intros st1 ->. destruct (b =? ff); reflexivity. }
  rewrite (Hm1 _ eq_refl). clear Hm1.
  cbn [Explicit.mem Explicit.first_free]. fold p nx.
  assert (Hpf : forall q, 0 <= q -> q + 24 <= 2 ^ 64 ->
                  Explicit.prev_field q = q + 8 /\ Explicit.next_field q = q + 16).
  { intros q H0 H1. unfold Explicit.prev_field, Explicit.next_field.
    rewrite !wadd_small by lia. split; reflexivity. }
  destruct (Hpf b Hb0 Hb1) as [Hbp Hbn].
  destruct (p =? NULL) eqn:Ep; cbn [negb].
  - cbn [Explicit.mem]. fold nx p.
    destruct (nx =? NULL) eqn:En; cbn [negb]; [reflexivity |].
    apply Z.eqb_neq in En. destruct Hn as [Hn | (Hn0 & Hn1 & Hn2)]; [contradiction |].
    destruct (Hpf nx Hn0 Hn1) as [-> _]. reflexivity.
  - apply Z.eqb_neq in Ep. destruct Hp as [Hp | (Hp0 & Hp1 & Hp2)]; [contradiction |].
    destruct (Hpf p Hp0 Hp1) as [_ Hpn]. rewrite Hpn.
    cbn [Explicit.with_mem Explicit.mem Explicit.segment_start Explicit.segment_end
         Explicit.first_free Explicit.segment_size Explicit.nused
         Explicit.num_freeblocks Explicit.num_usedblocks].
    assert (Hnx2 : Explicit.get_next (store64 m0 (p + 16) nx) b = nx).
    { unfold nx, Explicit.get_next. rewrite Hbn. mem_norm. reflexivity. }
    assert (Hp2' : Explicit.get_prev (store64 m0 (p + 16) nx) b = p).
    { unfold p at 2. unfold Explicit.get_prev. rewrite Hbp. mem_norm. reflexivity. }
    rewrite Hnx2, Hp2'.
    destruct (nx =? NULL) eqn:En; cbn [negb]; [reflexivity |].
    apply Z.eqb_neq in En. destruct Hn as [Hn | (Hn0 & Hn1 & Hn2)]; [contradiction |].
    destruct (Hpf nx Hn0 Hn1) as [-> _]. reflexivity.
Qed.

(** X20.  [remove_freeblock] unlinks a node whose two neighbours are null or
    header structs away from it and from each other: afterwards the
    predecessor's [next] is the node's successor, the successor's [prev] is
    the node's predecessor, the head moves to the successor exactly when the
    node was the head, and memory is unchanged outside those two link
    fields; the node's own links are left as they were. *)
Theorem explicit_remove_freeblock_unlinks (st : Explicit.state) (b : Z) :
  let m := Explicit.mem st in
  let p := Explicit.get_prev m b in
  let nx := Explicit.get_next m b in
  0 <= b -> b + 24 <= 2 ^ 64 ->
  ExplicitHeap.sep p b -> ExplicitHeap.sep nx b ->
  (p = NULL \/ nx = NULL \/ p = nx \/ p + 24 <= nx \/ nx + 24 <= p) ->
  let st' := Explicit.remove_freeblock st b in
  (p <> NULL -> Explicit.get_next (Explicit.mem st') p = nx) /\
  (nx <> NULL -> Explicit.get_prev (Explicit.mem st') nx = p) /\
  Explicit.first_free st'
  = (if b =? Explicit.first_free st then nx else Explicit.first_free st) /\
  Explicit.get_prev (Explicit.mem st') b = p /\
  Explicit.get_next (Explicit.mem st') b = nx /\
  (forall x, (p = NULL \/ x < p + 16 \/ p + 24 <= x) ->
             (nx = NULL \/ x < nx + 8 \/ nx + 16 <= x) ->
             Explicit.mem st' x = m x) /\
  Explicit.num_freeblocks st' = Explicit.num_freeblocks st /\
  Explicit.nused st' = Explicit.nused st.
Proof.
  intros m p nx Hb0 Hb1 Hp Hn Hpn st'.
  unfold st'. rewrite remove_freeblock_explicit by assumption.
  cbn [Explicit.mem Explicit.first_free Explicit.num_freeblocks Explicit.nused].
  fold m p nx.
  pose proof (load64_range m (Explicit.prev_field b)) as Rp.
  pose proof (load64_range m (Explicit.next_field b)) as Rn.
  change (load64 m (Explicit.prev_field b)) with p in Rp.
  change (load64 m (Explicit.next_field b)) with nx in Rn.
  assert (Hbp : Explicit.prev_field b = b + 8)
    by (unfold Explicit.prev_field; apply wadd_small; lia).
  assert (Hbn : Explicit.next_field b = b + 16)
    by (unfold Explicit.next_field; apply wadd_small; lia).
  assert (Pb : load64 m (b + 8) = p) by (rewrite <- Hbp; reflexivity).
  assert (Nb : load64 m (b + 16) = nx) by (rewrite <- Hbn; reflexivity).
  unfold ExplicitHeap.sep in Hp, Hn. unfold NULL in *.
  unfold Explicit.get_next, Explicit.get_prev.
  destruct (Z.eqb_spec p 0) as [Ep | Ep]; destruct (Z.eqb_spec nx 0) as [En | En].
  - repeat split; try reflexivity; intros; try contradiction.
  - assert (Hnf : Explicit.prev_field nx = nx + 8)
      by (unfold Explicit.prev_field; apply wadd_small; lia).
    rewrite Hnf, Hbp, Hbn.
    split; [intros C; contradiction |].
    split; [intros _; mem_norm; apply wrap_small; lia |].
    split; [reflexivity |].
    split; [mem_norm; exact Pb |]. split; [mem_norm; exact Nb |].
    split; [| split; reflexivity].
    intros x _ Hx. apply store64_outside. lia.
  - assert (Hpf : Explicit.next_field p = p + 16)
      by (unfold Explicit.next_field; apply wadd_small; lia).
    rewrite Hpf, Hbp, Hbn.
    split; [intros _; mem_norm; apply wrap_small; lia |].
    split; [intros C; contradiction |].
    split; [reflexivity |].
    split; [mem_norm; exact Pb |]. split; [mem_norm; exact Nb |].
    split; [| split; reflexivity].
    intros x Hx _. apply store64_outside. lia.
  - assert (Hpf : Explicit.next_field p = p + 16)
      by (unfold Explicit.next_field; apply wadd_small; lia).
    assert (Hnf : Explicit.prev_field nx = nx + 8)
      by (unfold Explicit.prev_field; apply wadd_small; lia).
    rewrite Hpf, Hnf, Hbp, Hbn.
    split; [intros _; mem_norm; apply wrap_small; lia |].
    split; [intros _; mem_norm; apply wrap_small; lia |].
    split; [reflexivity |].
    split; [mem_norm; exact Pb |]. split; [mem_norm; exact Nb |].
    split; [| split; reflexivity].
    intros x Hx1 Hx2. rewrite !store64_outside by lia. reflexivity.
Qed.

Lemma explicit_remove_freeblock_unlinks_witness :
  let st := Explicit.myfree
              (ExplicitRun.final
                 (ExplicitRun.malloc
                    (ExplicitRun.final (ExplicitRun.malloc ExplicitRun.fresh 16)) 16))
              4104 in
  Explicit.get_next (Explicit.mem (Explicit.remove_freeblock st 4144))
                    (Explicit.get_prev (Explicit.mem st) 4144)
  = Explicit.get_next (Explicit.mem st) 4144.
Proof.
  intros st.
  assert (Hp : Explicit.get_prev (Explicit.mem st) 4144 = 4096)
    by (vm_compute; reflexivity).
  assert (Hn : Explicit.get_next (Explicit.mem st) 4144 = 0)
    by (vm_compute; reflexivity).
  refine (proj1 (explicit_remove_freeblock_unlinks st 4144 _ _ _ _ _) _);
    try lia; rewrite ?Hp, ?Hn; unfold ExplicitHeap.sep, NULL; lia.
Defined.

Lemma sum_div8 (w k : Z) :
  k mod 8 = 0 ->
  8 * ((w + k + 8) / 8) = 8 * (w / 8) + k + 8 /\ (w + k + 8) mod 2 = w mod 2.
Proof.
  intros Hk.
  pose proof (Z_div_mod_eq_full k 8).
  pose proof (Z_div_mod_eq_full w 8).
  pose proof (Z.mod_pos_bound w 8 ltac:(lia)).
  pose proof (Z_div_mod_eq_full (w + k + 8) 8).
  pose proof (Z.mod_pos_bound (w + k + 8) 8 ltac:(lia)).
  pose proof (Z_div_mod_eq_full w 2).
  pose proof (Z.mod_pos_bound w 2 ltac:(lia)).
  pose proof (Z_div_mod_eq_full (w + k + 8) 2).
  pose proof (Z.mod_pos_bound (w + k + 8) 2 ltac:(lia)).
  lia.
Qed.

(** X21.  [coalesce_block] merges a free right neighbour.  Take a non-null
    block of payload at least 16 with a non-null [prev] or [next], whose
    right neighbour starts below [segment_end], is free, has payload at
    least 16 and ends inside the address space, and whose neighbour's
    [prev] and [next] are each null, the block itself, or a header struct
    wholly before the block or wholly after the neighbour ([clear_of] on the
    merged block).  Then the payload grows by the neighbour's header and
    payload, the allocation bit stays, the head of the free list moves to
    the neighbour's successor if the neighbour was the head, the free-block
    counter drops by one, and memory changes only in the block's header
    word and in the two link fields that unlinking the neighbour
    rewrites. *)
Theorem explicit_coalesce_merges (st : Explicit.state) (block : Z) :
  let m := Explicit.mem st in
  let S := get_size m block in
  let nb := block + HEADER_SIZE + S in
  let Sn := get_size m nb in
  let pn := Explicit.get_prev m nb in
  let nn := Explicit.get_next m nb in
  0 < block -> 2 * ALIGNMENT <= S -> 2 * ALIGNMENT <= Sn ->
  nb + HEADER_SIZE + Sn <= 2 ^ 64 ->
  Explicit.get_prev m block <> NULL \/ Explicit.get_next m block <> NULL ->
  nb < Explicit.segment_end st ->
  is_malloc m nb = false ->
  Explicit.clear_of pn block (S + HEADER_SIZE + Sn) ->
  Explicit.clear_of nn block (S + HEADER_SIZE + Sn) ->
  let st' := Explicit.coalesce_block st block in
  get_size (Explicit.mem st') block = S + HEADER_SIZE + Sn /\
  is_malloc (Explicit.mem st') block = is_malloc m block /\
  Explicit.first_free st'
  = (if nb =? Explicit.first_free st then nn else Explicit.first_free st) /\
  Explicit.num_freeblocks st' = decr (Explicit.num_freeblocks st) /\
  Explicit.num_usedblocks st' = Explicit.num_usedblocks st /\
  Explicit.nused st' = Explicit.nused st /\
  (forall x, (x < block \/ block + HEADER_SIZE <= x) ->
             (pn = NULL \/ x < pn + 16 \/ pn + 24 <= x) ->
             (nn = NULL \/ x < nn + 8 \/ nn + 16 <= x) ->
             Explicit.mem st' x = m x).
Proof.
  intros m S nb Sn pn nn Hb HS HSn Hend Hl Hin Hfree Hcp Hcn st'.
  change HEADER_SIZE with 8 in *. change (2 * ALIGNMENT) with 16 in *.
  unfold Explicit.clear_of in Hcp, Hcn. change HEADER_SIZE with 8 in *.
  assert (Hnb : nb = block + 8 + S) by reflexivity.
  pose proof (get_size_mod8 m nb) as HSn8. fold Sn in HSn8.
  pose proof (load64_range m block) as Hw.
  pose proof (get_size_div m block) as HSw. fold S in HSw.
  set (w := load64 m block) in *.
  assert (Hwm : 0 <= w - S < 8).
  { pose proof (Z_div_mod_eq_full w 8). pose proof (Z.mod_pos_bound w 8 ltac:(lia)). lia. }
  assert (Hsp : ExplicitHeap.sep pn nb).
  { unfold ExplicitHeap.sep, NULL in *. lia. }
  assert (Hsn : ExplicitHeap.sep nn nb).
  { unfold ExplicitHeap.sep, NULL in *. lia. }
  unfold st', Explicit.coalesce_block. fold m.
  replace ((Explicit.get_prev m block =? NULL) && (Explicit.get_next m block =? NULL))
    with false.
  2:{ symmetry. apply andb_false_iff.
      destruct Hl as [Hl | Hl]; [left | right]; apply Z.eqb_neq; exact Hl. }
  replace (next_block m block) with nb.
  2:{ unfold next_block. fold S. change HEADER_SIZE with 8.
      rewrite (wadd_small block S), (wadd_small (block + S) 8) by lia. lia. }
  replace (Explicit.segment_end st <=? nb) with false
    by (symmetry; apply Z.leb_gt; exact Hin).
  rewrite Hfree. cbn [negb].
  rewrite remove_freeblock_explicit by (try assumption; lia).
  fold m pn nn.
  cbn [Explicit.mem Explicit.with_mem Explicit.with_counts Explicit.first_free
       Explicit.num_freeblocks Explicit.num_usedblocks Explicit.nused
       Explicit.segment_start Explicit.segment_end Explicit.segment_size].
  set (m2 := if nn =? NULL
             then if pn =? NULL then m else store64 m (pn + 16) nn
             else store64 (if pn =? NULL then m else store64 m (pn + 16) nn)
                          (nn + 8) pn).
  assert (Hfr : forall a, (a = block \/ a = nb) -> load64 m2 a = load64 m a).
  { intros a Ha. unfold m2, NULL in *.
    destruct (Z.eqb_spec pn 0) as [Ep | Ep]; destruct (Z.eqb_spec nn 0) as [En | En];
      mem_norm; reflexivity. }
  rewrite (Hfr block) by (left; reflexivity). fold w.
  assert (HSn2 : get_size m2 nb = Sn).
  { unfold get_size. rewrite (Hfr nb) by (right; reflexivity). reflexivity. }
  rewrite HSn2.
  change HEADER_SIZE with 8.
  rewrite (wadd_small Sn 8), (wadd_small w (Sn + 8)) by lia.
  destruct (sum_div8 w Sn HSn8) as [Hd8 Hd2].
  split.
  { rewrite get_size_store by lia.
    replace (w + (Sn + 8)) with (w + Sn + 8) by lia. lia. }
  split.
  { rewrite is_malloc_store by lia. rewrite is_malloc_mod. fold w.
    replace (w + (Sn + 8)) with (w + Sn + 8) by lia. rewrite Hd2. reflexivity. }
  split; [reflexivity |]. split; [reflexivity |].
  split; [reflexivity |]. split; [reflexivity |].
  intros x Hx Hxp Hxn. rewrite store64_outside by lia.
  unfold m2, NULL in *.
  destruct (Z.eqb_spec pn 0) as [Ep | Ep]; destruct (Z.eqb_spec nn 0) as [En | En];
    rewrite ?store64_outside by lia; reflexivity.
Qed.

Lemma explicit_coalesce_merges_witness :
  let st := Explicit.myfree
              (ExplicitRun.final
                 (ExplicitRun.malloc
                    (ExplicitRun.final (ExplicitRun.malloc ExplicitRun.fresh 16)) 16))
              4104 in
  get_size (Explicit.mem (Explicit.coalesce_block st 4120)) 4120
  = 16 + HEADER_SIZE + 16.
Proof.
  intros st.
  pose proof (explicit_coalesce_merges st 4120) as T. cbv zeta in T.
  assert (HS : get_size (Explicit.mem st) 4120 = 16) by (vm_compute; reflexivity).
  rewrite HS in T.
  assert (HSn : get_size (Explicit.mem st) (4120 + HEADER_SIZE + 16) = 16)
    by (vm_compute; reflexivity).
  assert (Hpn : Explicit.get_prev (Explicit.mem st) (4120 + HEADER_SIZE + 16) = 4096)
    by (vm_compute; reflexivity).
  assert (Hnn : Explicit.get_next (Explicit.mem st) (4120 + HEADER_SIZE + 16) = 0)
    by (vm_compute; reflexivity).
  rewrite HSn, Hpn, Hnn in T.
  refine (proj1 (T _ _ _ _ _ _ _ _ _)).
  - lia.
  - vm_compute; discriminate.
  - vm_compute; discriminate.
  - vm_compute; discriminate.
  - left. vm_compute. discriminate.
  - vm_compute. reflexivity.
  - vm_compute. reflexivity.
  - unfold Explicit.clear_of. change HEADER_SIZE with 8. right. right. left. lia.
  - left. reflexivity.
Defined.

Ltac explicit_simpl :=
  cbn [Explicit.mem Explicit.with_mem Explicit.with_nused Explicit.with_counts
       Explicit.with_first_free Explicit.nused Explicit.num_freeblocks
       Explicit.num_usedblocks Explicit.segment_start Explicit.segment_end
       Explicit.segment_size Explicit.first_free].

Lemma coalesce_block_noop (st : Explicit.state) (b : Z) :
  Explicit.segment_end st <= next_block (Explicit.mem st) b \/
  is_malloc (Explicit.mem st) (next_block (Explicit.mem st) b) = true ->
  Explicit.coalesce_block st b = st.
Proof.
  intros H. unfold Explicit.coalesce_block.
  destruct (_ && _); [reflexivity |].
  destruct (Explicit.segment_end st <=? next_block (Explicit.mem st) b) eqn:E;
    [reflexivity |].
  apply Z.leb_gt in E. destruct H as [H | H]; [lia |].
  rewrite H. reflexivity.
Qed.

(** X22.  The explicit [myfree] without merging.  Take a pointer past the
    first header whose block is allocated, has payload at least 16 and ends
    inside the address space, whose right neighbour is allocated or starts
    at or beyond [segment_end], and let [first_free] be null or a header
    struct wholly before the block's header or wholly after its payload (so
    the head is not the block itself nor inside it).  Then [myfree] clears
    the allocation bit, keeps the size, makes the block the head of the free
    list, takes its header and payload off [nused] (as 64-bit words) and
    moves one block from the used to the free counter.  When the list was
    not empty the block gets a null [prev], the old head as [next], and the
    old head's [prev] points back to it; when the list was empty only the
    header word is written, so the links of the new head are whatever the
    payload held. *)
Theorem explicit_myfree_pushes (st : Explicit.state) (ptr : Z) :
  let m := Explicit.mem st in
  let hdr := ptr - HEADER_SIZE in
  let S := get_size m hdr in
  let f := Explicit.first_free st in
  let nb := hdr + HEADER_SIZE + S in
  HEADER_SIZE < ptr -> nb < 2 ^ 64 -> 2 * ALIGNMENT <= S ->
  is_malloc m hdr = true ->
  f = NULL \/ (0 <= f /\ f + 24 <= hdr) \/ (nb <= f /\ f + 24 <= 2 ^ 64) ->
  Explicit.segment_end st <= nb \/ is_malloc m nb = true ->
  let st' := Explicit.myfree st ptr in
  Explicit.first_free st' = hdr /\
  is_malloc (Explicit.mem st') hdr = false /\
  get_size (Explicit.mem st') hdr = S /\
  Explicit.nused st' = wsub (Explicit.nused st) (S + HEADER_SIZE) /\
  Explicit.num_freeblocks st' = incr (Explicit.num_freeblocks st) /\
  Explicit.num_usedblocks st' = decr (Explicit.num_usedblocks st) /\
  (f <> NULL ->
   Explicit.get_prev (Explicit.mem st') hdr = NULL /\
   Explicit.get_next (Explicit.mem st') hdr = f /\
   Explicit.get_prev (Explicit.mem st') f = hdr /\
   forall x, (x < hdr \/ hdr + 24 <= x) -> (x < f + 8 \/ f + 16 <= x) ->
             Explicit.mem st' x = m x) /\
  (f = NULL ->
   forall x, (x < hdr \/ hdr + HEADER_SIZE <= x) -> Explicit.mem st' x = m x).
Proof.
  intros m hdr S f nb Hptr Hnb HS Hm Hf Hright st'.
  change HEADER_SIZE with 8 in *. change (2 * ALIGNMENT) with 16 in *.
  assert (Hnbv : nb = hdr + 8 + S) by reflexivity.
  assert (Hhdr : hdr = ptr - 8) by reflexivity.
  pose proof (load64_range m hdr) as Hw.
  pose proof (get_size_div m hdr) as HSw. fold S in HSw.
  pose proof (proj1 (is_malloc_true_odd m hdr) Hm) as Hodd.
  set (w := load64 m hdr) in *.
  destruct (clear_bit_word w Hodd) as [Hc8 Hc2].
  assert (Hw1 : 1 <= w).
  { pose proof (Z_div_mod_eq_full w 2). pose proof (Z.div_pos w 2). lia. }
  set (m1 := store64 m hdr (w - 1)).
  assert (G1 : get_size m1 hdr = S).
  { unfold m1. rewrite get_size_store by lia. rewrite Hc8. lia. }
  assert (M1 : is_malloc m1 hdr = false).
  { unfold m1. rewrite is_malloc_store by lia. rewrite Hc2. reflexivity. }
  unfold st', Explicit.myfree.
  replace (ptr =? NULL) with false by (symmetry; apply Z.eqb_neq; unfold NULL; lia).
  replace (get_header ptr) with hdr
    by (unfold get_header; change HEADER_SIZE with 8; rewrite wsub_small by lia; lia).
  fold m w. change MALLOC with 1. rewrite (wsub_small w 1) by lia. fold m1.
  explicit_simpl.
  rewrite G1. change HEADER_SIZE with 8. rewrite (wadd_small S 8) by lia.
  assert (Hnext : forall m', get_size m' hdr = S -> next_block m' hdr = nb).
  { intros m' Hg. unfold next_block. rewrite Hg. change HEADER_SIZE with 8.
    rewrite wadd_wadd. rewrite wrap_small by lia. lia. }
  unfold Explicit.add_freeblock.
  explicit_simpl.
  fold f.
  unfold NULL in *.
  destruct (Z.eqb_spec f 0) as [Ef | Ef].
  - (* empty list *)
    rewrite coalesce_block_noop.
    2:{ explicit_simpl.
        rewrite (Hnext m1 G1).
        destruct Hright as [Hr | Hr]; [left; exact Hr | right].
        unfold m1. rewrite is_malloc_store_apart; [exact Hr |].
        unfold apart. lia. }
    explicit_simpl.
    split; [reflexivity |]. split; [exact M1 |]. split; [exact G1 |].
    split; [reflexivity |]. split; [reflexivity |]. split; [reflexivity |].
    split; [intros C; contradiction |].
    intros _ x Hx. unfold m1. apply store64_outside. lia.
  - (* the block goes in front of the old head *)
    assert (Hfr : 0 <= f /\ f + 24 <= 2 ^ 64 /\ (f + 24 <= hdr \/ nb <= f)) by lia.
    unfold Explicit.prev_field, Explicit.next_field.
    explicit_simpl.
    rewrite (wadd_small f 8), (wadd_small hdr 8), (wadd_small hdr 16) by lia.
    set (m4 := store64 (store64 (store64 m1 (f + 8) hdr) (hdr + 8) 0) (hdr + 16) f).
    assert (L4 : load64 m4 hdr = w - 1).
    { unfold m4, m1. mem_norm. apply wrap_small. lia. }
    assert (G4 : get_size m4 hdr = S).
    { rewrite get_size_div, L4, Hc8. lia. }
    assert (M4 : is_malloc m4 hdr = false).
    { rewrite is_malloc_mod, L4, Hc2. reflexivity. }
    rewrite coalesce_block_noop.
    2:{ explicit_simpl.
        rewrite (Hnext m4 G4).
        destruct Hright as [Hr | Hr]; [left; exact Hr | right].
        rewrite is_malloc_mod in *. unfold m4, m1. mem_norm. exact Hr. }
    explicit_simpl.
    split; [reflexivity |]. split; [exact M4 |]. split; [exact G4 |].
    split; [reflexivity |]. split; [reflexivity |]. split; [reflexivity |].
    split; [| intros C; contradiction].
    intros _. unfold Explicit.get_prev, Explicit.get_next,
      Explicit.prev_field, Explicit.next_field.
    rewrite (wadd_small f 8), (wadd_small hdr 8), (wadd_small hdr 16) by lia.
    unfold m4.
    split; [mem_norm; reflexivity |].
    split; [mem_norm; apply wrap_small; lia |].
    split; [mem_norm; apply wrap_small; lia |].
    intros x Hx1 Hx2. unfold m1. rewrite !store64_outside by lia. reflexivity.
Qed.

Lemma explicit_myfree_pushes_witness :
  let st := ExplicitRun.final
              (ExplicitRun.malloc
                 (ExplicitRun.final (ExplicitRun.malloc ExplicitRun.fresh 16)) 16) in
  Explicit.first_free (Explicit.myfree st 4104) = 4104 - HEADER_SIZE.
Proof.
  intros st.
  pose proof (explicit_myfree_pushes st 4104) as T. cbv zeta in T.
  assert (HS : get_size (Explicit.mem st) (4104 - HEADER_SIZE) = 16)
    by (vm_compute; reflexivity).
  assert (Hf : Explicit.first_free st = 4144) by (vm_compute; reflexivity).
  rewrite HS, Hf in T.
  refine (proj1 (T _ _ _ _ _ _)).
  - vm_compute; reflexivity.
  - vm_compute; reflexivity.
  - vm_compute; discriminate.
  - vm_compute; reflexivity.
  - right. right. change HEADER_SIZE with 8. lia.
  - right. vm_compute. reflexivity.
Defined.

Lemma store64_inside (m : memory) (a v x : Z) :
  a <= x < a + 8 -> store64 m a v x = (v / 2 ^ (8 * (x - a))) mod 256.
Proof.
  intros H. unfold store64.
  replace (a <=? x) with true by (symmetry; apply Z.leb_le; lia).
  replace (x <? a + 8) with true by (symmetry; apply Z.ltb_lt; lia).
  reflexivity.
Qed.

(** X23.  On a heap that [myinit] has just set up, [mymalloc] of a request
    that leaves room for a free block followed by [myfree] of the result
    restores the heap: the block is merged with the free remainder into one
    free block of payload [size - 8] that is the whole free list, the
    counters and [nused] are those of the fresh heap, every byte outside
    the 24 bytes where the remainder's header struct was is as on the fresh
    heap, and [validate_heap] accepts. *)
Theorem explicit_malloc_free_round_trip
  (MAX_REQUEST_SIZE : Z) (fuel : nat) (st0 : Explicit.state) (base size R : Z) :
  0 < base -> base + size < 2 ^ 64 -> size mod 8 = 0 ->
  0 < R <= MAX_REQUEST_SIZE -> R + 7 < 2 ^ 64 ->
  let n := Explicit.size_for R in
  n + 2 * HEADER_SIZE + 2 * ALIGNMENT <= size ->
  let st := snd (Explicit.myinit st0 base size) in
  let rest := base + HEADER_SIZE + n in
  exists p st1,
    Explicit.mymalloc MAX_REQUEST_SIZE (S fuel) st R = Some (p, st1) /\
    p <> NULL /\
    let st2 := Explicit.myfree st1 p in
    load64 (Explicit.mem st2) base = size - HEADER_SIZE /\
    Explicit.first_free st2 = base /\
    Explicit.get_prev (Explicit.mem st2) base = NULL /\
    Explicit.get_next (Explicit.mem st2) base = NULL /\
    Explicit.nused st2 = 0 /\
    Explicit.num_usedblocks st2 = 0 /\
    Explicit.num_freeblocks st2 = 1 /\
    (forall x, (x < rest \/ rest + 24 <= x) ->
               Explicit.mem st2 x = Explicit.mem st x) /\
    Explicit.validate_heap (S (S fuel)) st2 = Some true.
Proof.
  intros Hb Hbs H8 HR HR7 n Hroom st rest.
  destruct (first_allocation_state MAX_REQUEST_SIZE fuel st0 base size R
              Hb Hbs H8 HR HR7 Hroom)
    as (st1 & Hm & L1 & L1r & F1 & P1r & N1r & U1 & CU1 & CF1 & _ & SS1 & SE1 & SZ1 & Fr1).
  fold n st rest in Hm, L1, L1r, F1, P1r, N1r, U1, Fr1.
  exists (base + HEADER_SIZE), st1.
  split; [exact Hm |].
  destruct (size_for_range R) as [Hn Hn8]. fold n in Hn, Hn8.
  assert (Hn16 : 16 <= n).
  { unfold n. rewrite explicit_size_max by lia. change (2 * ALIGNMENT) with 16. lia. }
  change HEADER_SIZE with 8 in *. change ALIGNMENT with 8 in *.
  change MALLOC with 1 in *. unfold NULL in *.
  split; [lia |].
  assert (Hrest : rest = base + 8 + n) by reflexivity. clearbody rest.
  assert (Hs8 : (size - 8) mod 8 = 0).
  { pose proof (Z_div_mod_eq_full size 8). pose proof (Z_div_mod_eq_full (size - 8) 8).
    pose proof (Z.mod_pos_bound (size - 8) 8 ltac:(lia)). lia. }
  assert (Hr8 : (size - 16 - n) mod 8 = 0).
  { pose proof (Z_div_mod_eq_full (size - 16 - n) 8).
    pose proof (Z_div_mod_eq_full n 8). pose proof (Z_div_mod_eq_full size 8).
    pose proof (Z.mod_pos_bound (size - 16 - n) 8 ltac:(lia)). lia. }
  (* the fresh heap *)
  assert (Hst : Explicit.mem st
                = store64 (store64 (store64 (Explicit.mem st0) base (size - 8))
                                   (base + 8) 0) (base + 16) 0).
  { unfold st, Explicit.myinit. change (HEADER_SIZE + ALIGNMENT * 2) with 24.
    replace (size <? 24) with false by (symmetry; apply Z.ltb_ge; lia).
    cbn [snd Explicit.mem].
    unfold Explicit.prev_field, Explicit.next_field. change HEADER_SIZE with 8.
    rewrite (wsub_small size 8), (wadd_small base 8), (wadd_small base 16) by lia.
    reflexivity. }
  clearbody st.
  destruct st1 as [m1 ss se ff sz nu nf nub].
  cbn [Explicit.mem Explicit.segment_start Explicit.segment_end Explicit.first_free
       Explicit.segment_size Explicit.nused Explicit.num_freeblocks
       Explicit.num_usedblocks] in *.
  subst ss se ff sz nu nf nub.
  replace (size - 2 * 8 - n) with (size - 16 - n) in L1r by lia.
  (* myfree *)
  set (m2 := store64 m1 base n).
  set (m5 := store64 (store64 (store64 m2 (rest + 8) base) (base + 8) 0)
                     (base + 16) rest).
  set (m6 := store64 m5 (base + 16) 0).
  set (m7 := store64 m6 base (size - 8)).
  assert (G2 : get_size m2 base = n).
  { unfold m2. rewrite get_size_store by lia. apply div8_exact. exact Hn8. }
  assert (L5r : load64 m5 rest = size - 16 - n).
  { unfold m5, m2. mem_norm. exact L1r. }
  assert (P5r : Explicit.get_prev m5 rest = base).
  { unfold Explicit.get_prev, Explicit.prev_field, m5.
    rewrite (wadd_small rest 8) by lia. mem_norm. apply wrap_small. lia. }
  assert (N5r : Explicit.get_next m5 rest = 0).
  { unfold Explicit.get_next, Explicit.next_field, m5, m2 in *.
    rewrite (wadd_small rest 16) in * by lia. mem_norm. exact N1r. }
  assert (Hfree : Explicit.myfree
                    (Explicit.mkState m1 base (base + size) rest size (n + 8) 1 1)
                    (base + 8)
                  = Explicit.mkState m7 base (base + size) base size 0 1 0).
  { unfold Explicit.myfree.
    replace (base + 8 =? 0) with false by (symmetry; apply Z.eqb_neq; lia).
    change NULL with 0.
    replace (base + 8 =? 0) with false by (symmetry; apply Z.eqb_neq; lia).
    replace (get_header (base + 8)) with base
      by (unfold get_header; change HEADER_SIZE with 8; rewrite wsub_small by lia; lia).
    explicit_simpl. rewrite L1. change MALLOC with 1.
    rewrite (wsub_small (n + 1) 1) by lia. replace (n + 1 - 1) with n by lia.
    fold m2. rewrite G2. change HEADER_SIZE with 8.
    rewrite (wadd_small n 8) by lia. rewrite (wsub_small (n + 8) (n + 8)) by lia.
    replace (n + 8 - (n + 8)) with 0 by lia.
    change (incr 1) with 2. change (decr 1) with 0.
    unfold Explicit.add_freeblock. explicit_simpl.
    replace (rest =? NULL) with false by (symmetry; apply Z.eqb_neq; unfold NULL; lia).
    unfold Explicit.prev_field, Explicit.next_field.
    rewrite (wadd_small rest 8), (wadd_small base 8), (wadd_small base 16) by lia.
    change NULL with 0. fold m5. explicit_simpl.
    (* coalesce_block *)
    unfold Explicit.coalesce_block. explicit_simpl.
    assert (N5 : Explicit.get_next m5 base = rest).
    { unfold Explicit.get_next, Explicit.next_field, m5.
      rewrite (wadd_small base 16) by lia. mem_norm. apply wrap_small. lia. }
    rewrite N5.
    replace (rest =? NULL) with false by (symmetry; apply Z.eqb_neq; unfold NULL; lia).
    rewrite andb_false_r.
    assert (L5 : load64 m5 base = n).
    { unfold m5, m2. mem_norm. apply wrap_small. lia. }
    assert (G5 : get_size m5 base = n).
    { rewrite get_size_div, L5. apply div8_exact. exact Hn8. }
    replace (next_block m5 base) with rest.
    2:{ unfold next_block. rewrite G5. change HEADER_SIZE with 8.
        rewrite (wadd_small base n), (wadd_small (base + n) 8) by lia. lia. }
    replace (base + size <=? rest) with false by (symmetry; apply Z.leb_gt; lia).
    assert (M5r : is_malloc m5 rest = false).
    { rewrite is_malloc_mod, L5r, (mod8_even _ Hr8). reflexivity. }
    rewrite M5r. cbn [negb].
    rewrite remove_freeblock_explicit;
      explicit_simpl; rewrite ?P5r, ?N5r;
      try (unfold ExplicitHeap.sep, NULL; lia).
    change (0 =? NULL) with true.
    replace (base =? NULL) with false by (symmetry; apply Z.eqb_neq; unfold NULL; lia).
    replace (rest =? base) with false by (symmetry; apply Z.eqb_neq; lia).
    cbv zeta. fold m6. explicit_simpl.
    assert (L6 : load64 m6 base = n).
    { unfold m6. mem_norm. exact L5. }
    assert (G6r : get_size m6 rest = size - 16 - n).
    { rewrite get_size_div. unfold m6. mem_norm. rewrite L5r.
      apply div8_exact. exact Hr8. }
    rewrite L6, G6r. change HEADER_SIZE with 8.
    rewrite (wadd_small (size - 16 - n) 8) by lia.
    rewrite (wadd_small n (size - 16 - n + 8)) by lia.
    replace (n + (size - 16 - n + 8)) with (size - 8) by lia.
    fold m7. change (decr 2) with 1. reflexivity. }
  cbv zeta. rewrite Hfree. explicit_simpl.
  assert (L7 : load64 m7 base = size - 8).
  { unfold m7. mem_norm. apply wrap_small. lia. }
  assert (P7 : Explicit.get_prev m7 base = 0).
  { unfold Explicit.get_prev, Explicit.prev_field, m7, m6, m5.
    rewrite (wadd_small base 8) by lia. mem_norm. reflexivity. }
  assert (N7 : Explicit.get_next m7 base = 0).
  { unfold Explicit.get_next, Explicit.next_field, m7, m6.
    rewrite (wadd_small base 16) by lia. mem_norm. reflexivity. }
  split; [exact L7 |]. split; [reflexivity |].
  split; [exact P7 |]. split; [exact N7 |].
  split; [reflexivity |]. split; [reflexivity |]. split; [reflexivity |].
  split.
  { intros x Hx. rewrite Hst.
    destruct (Z_lt_le_dec x base) as [C0 | C0].
    { unfold m7, m6, m5, m2. rewrite !store64_outside by lia.
      rewrite Fr1 by lia. rewrite Hst. rewrite !store64_outside by lia. reflexivity. }
    destruct (Z_lt_le_dec x (base + 8)) as [C1 | C1].
    { unfold m7. rewrite store64_inside by lia.
      rewrite !(store64_outside _ (base + 16)) by lia.
      rewrite !(store64_outside _ (base + 8)) by lia.
      rewrite store64_inside by lia. reflexivity. }
    destruct (Z_lt_le_dec x (base + 16)) as [C2 | C2].
    { unfold m7, m6, m5.
      rewrite (store64_outside _ base) by lia.
      rewrite !(store64_outside _ (base + 16)) by lia.
      rewrite !store64_inside by lia. reflexivity. }
    destruct (Z_lt_le_dec x (base + 24)) as [C3 | C3].
    { unfold m7, m6.
      rewrite (store64_outside _ base) by lia.
      rewrite !store64_inside by lia. reflexivity. }
    unfold m7, m6, m5, m2. rewrite !store64_outside by lia.
    rewrite Fr1 by lia. rewrite Hst. rewrite !store64_outside by lia. reflexivity. }
  unfold Explicit.validate_heap.
  cbn [Explicit.validate_walk Explicit.segment_start Explicit.segment_end
       Explicit.segment_size Explicit.nused Explicit.mem].
  replace (base <? base + size) with true by (symmetry; apply Z.ltb_lt; lia).
  replace (size <? 0) with false by (symmetry; apply Z.ltb_ge; lia).
  assert (G7 : get_size m7 base = size - 8).
  { rewrite get_size_div, L7. apply div8_exact. exact Hs8. }
  assert (M7 : is_malloc m7 base = false).
  { rewrite is_malloc_mod, L7, (mod8_even _ Hs8). reflexivity. }
  rewrite G7. change (2 * ALIGNMENT) with 16.
  replace (size - 8 <? 16) with false by (symmetry; apply Z.ltb_ge; lia).
  rewrite M7. change HEADER_SIZE with 8.
  rewrite (wadd_small (size - 8) 8), (wadd_small base (size - 8 + 8)) by lia.
  replace (base + (size - 8 + 8)) with (base + size) by lia.
  rewrite Z.ltb_irrefl.
  cbn [Explicit.num_usedblocks Explicit.num_freeblocks Explicit.first_free
       Explicit.validate_list Explicit.mem].
  change (incr 0) with 1. cbn [Z.eqb Pos.eqb negb].
  replace (base =? NULL) with false by (symmetry; apply Z.eqb_neq; unfold NULL; lia).
  cbn [negb]. rewrite M7, N7.
  destruct fuel; cbn [Explicit.validate_list]; reflexivity.
Qed.

Lemma explicit_malloc_free_round_trip_witness :
  exists p st1,
    Explicit.mymalloc run_limit 1 (snd (Explicit.myinit Explicit.blank 4096 72)) 16
    = Some (p, st1) /\
    p <> NULL /\
    Explicit.first_free (Explicit.myfree st1 p) = 4096 /\
    Explicit.validate_heap 2 (Explicit.myfree st1 p) = Some true.
Proof.
  pose proof (explicit_malloc_free_round_trip run_limit 0 Explicit.blank 4096 72 16) as T.
  cbv zeta in T.
  specialize (T ltac:(lia) ltac:(lia) ltac:(reflexivity)
                ltac:(unfold run_limit; lia) ltac:(lia)
                ltac:(vm_compute; discriminate)).
  destruct T as (p & st1 & H1 & H2 & _ & H4 & _ & _ & _ & _ & _ & _ & H11).
  exists p, st1. split; [exact H1 |]. split; [exact H2 |]. split; [exact H4 | exact H11].
Defined.
